(** * Buffered-IO: a shallow embedding of [File] (file.h, file.cc)

    The class [File] re-implements the C standard I/O streams on top of the
    POSIX descriptor calls [open], [read], [write], [lseek] and [close].
    This development embeds the member functions of file.cc as Rocq
    functions over an explicit [File] record and a small model of the
    descriptor layer, and states the properties of the stream against them.

    Conventions
    - [size_t] is the LP64 unsigned 64-bit type, [int] is 32-bit signed,
      [ssize_t] and [off_t] are 64-bit signed; [char] is signed (x86-64
      System V).  Values are carried in [Z], conversions are written out.
    - caller memory a function stores into ([ptr], [s]) is returned as the
      list of bytes stored, in order, from offset 0.  The size of the
      caller's object is not part of the model: that a call stores no more
      than the caller provided is a statement about that list
      ([stores_at_most]).
    - an access outside the buffer of the stream or the array of [itoa], a
      signed overflow and a missing variadic argument are undefined
      behaviour: the outcome [Undefined]. *)

From Stdlib Require Import Strings.Byte Strings.String.
From Stdlib Require Import ZArith List Lia Bool.
Import ListNotations.
Open Scope Z_scope.

(** ** Machine integers *)

Module Int.

Definition size_max : Z := 2 ^ 64.
Definition int_min : Z := - 2 ^ 31.
Definition int_max : Z := 2 ^ 31 - 1.

(** Conversion to [size_t]: reduction modulo 2^64. *)
Definition to_size_t (z : Z) : Z := z mod size_max.

(** Conversion of a 64-bit pattern to [ssize_t] / [off_t]. *)
Definition to_off_t (z : Z) : Z :=
  let u := z mod size_max in
  if u <? 2 ^ 63 then u else u - size_max.

(** Conversion to [int], as the compilers of the target do it. *)
Definition to_int (z : Z) : Z :=
  let u := z mod 2 ^ 32 in
  if u <? 2 ^ 31 then u else u - 2 ^ 32.

(** [(int) c] for a (signed) [char]. *)
Definition char_to_int (c : byte) : Z :=
  let n := Z.of_N (Byte.to_N c) in
  if n <? 128 then n else n - 256.

(** [(char) z] for an [int]. *)
Definition int_to_char (z : Z) : byte :=
  match Byte.of_N (Z.to_N (z mod 256)) with
  | Some b => b
  | None => x00
  end.

(** [x + 1] and [x * y] on [int]; [None] is the signed overflow. *)
Definition incr (x : Z) : option Z :=
  if x <? int_max then Some (x + 1) else None.

Definition mul (x y : Z) : option Z :=
  let p := x * y in
  if (int_min <=? p) && (p <=? int_max) then Some p else None.

(** [-x] on [int]; [None] for [INT_MIN]. *)
Definition neg (x : Z) : option Z :=
  if x =? int_min then None else Some (- x).

End Int.

(** ** The descriptor layer

    One open file description: the bytes of the file, the file offset, and
    for each of [read], [write] and [lseek] the results the environment has
    in store for the coming calls (an exhausted list means the calls
    succeed in full).  file.cc opens the descriptor with the access mode
    that [fmode] records and guards every [read] with [fmode != 'w'] and
    every [write] with [fmode != 'r'], so the access mode of the descriptor
    itself never decides a call and is not part of the model. *)

Module Sys.

Inductive Fault : Type :=
| pass                (* the call transfers all it can *)
| fail                (* the call returns -1 *)
| short (k : Z).      (* the call transfers at most [k] bytes *)

Record Descriptor : Type := mkDescriptor {
  contents : list byte;
  offset : Z;
  on_read : list Fault;
  on_write : list Fault;
  on_lseek : list Fault
}.

Inductive Whence : Type := SEEK_SET | SEEK_CUR | SEEK_END.

Definition next (l : list Fault) : Fault * list Fault :=
  match l with
  | [] => (pass, [])
  | x :: l' => (x, l')
  end.

Definition len {A : Type} (l : list A) : Z := Z.of_nat (length l).

(** The bytes of the file from the offset on. *)
Definition ahead (d : Descriptor) : list byte :=
  if (0 <=? offset d) && (offset d <? len (contents d))
  then skipn (Z.to_nat (offset d)) (contents d)
  else [].

Definition limit (x : Fault) (n : Z) : Z :=
  match x with
  | short k => Z.min n (Z.max 0 k)
  | _ => n
  end.

(** [read(fd, _, count)]: the [ssize_t] result, the bytes stored and the
    descriptor afterwards. *)
Definition read (d : Descriptor) (count : Z) : Z * list byte * Descriptor :=
  let (x, rest) := next (on_read d) in
  match x with
  | fail =>
      (-1, [], mkDescriptor (contents d) (offset d) rest (on_write d) (on_lseek d))
  | _ =>
      let k := limit x (Z.min (Z.max 0 count) (len (ahead d))) in
      let got := firstn (Z.to_nat k) (ahead d) in
      (len got, got,
       mkDescriptor (contents d) (offset d + len got) rest (on_write d) (on_lseek d))
  end.

(** The file after [src] is stored at offset [at]; a gap is zero-filled. *)
Definition overwrite (file : list byte) (at_ : Z) (src : list byte) : list byte :=
  let n := Z.to_nat at_ in
  firstn n file ++ repeat x00 (n - length file) ++ src
    ++ skipn (n + length src) file.

(** [write(fd, src, |src|)]. *)
Definition write (d : Descriptor) (src : list byte) : Z * Descriptor :=
  let (x, rest) := next (on_write d) in
  match x with
  | fail =>
      (-1, mkDescriptor (contents d) (offset d) (on_read d) rest (on_lseek d))
  | _ =>
      let put := firstn (Z.to_nat (limit x (len src))) src in
      (len put,
       mkDescriptor (match put with
                     | [] => contents d
                     | _ => overwrite (contents d) (offset d) put
                     end)
                    (offset d + len put) (on_read d) rest (on_lseek d))
  end.

(** [lseek(fd, off, whence)]; a negative target is refused (EINVAL). *)
Definition lseek (d : Descriptor) (off : Z) (w : Whence) : Z * Descriptor :=
  let (x, rest) := next (on_lseek d) in
  let base := match w with
              | SEEK_SET => 0
              | SEEK_CUR => offset d
              | SEEK_END => len (contents d)
              end in
  let target := base + off in
  match x with
  | fail =>
      (-1, mkDescriptor (contents d) (offset d) (on_read d) (on_write d) rest)
  | _ =>
      if target <? 0
      then (-1, mkDescriptor (contents d) (offset d) (on_read d) (on_write d) rest)
      else (target, mkDescriptor (contents d) target (on_read d) (on_write d) rest)
  end.

(** A descriptor on [file], at offset 0, with nothing going wrong. *)
Definition fresh (file : list byte) : Descriptor :=
  mkDescriptor file 0 [] [] [].

End Sys.

(** ** The stream object (file.h) *)

(** [fmode]: ['r'], ['w'] or ['+']. *)
Inductive Mode : Type := mode_r | mode_w | mode_plus.

(** [lastAct]: ['0'], ['r'] or ['w']. *)
Inductive Action : Type := act_0 | act_r | act_w.

(** The private members of [File] ([bmode] is never read).  [buf] is the
    allocation of [bufsiz] bytes; [fd] stands for the open file description
    the descriptor number denotes; [end_] is the member [end]. *)
Record File : Type := mkFile {
  buf : list byte;
  bufAt : Z;
  bufEnd : Z;
  fmode : Mode;
  lastAct : Action;
  fd : Sys.Descriptor;
  err : Z;
  end_ : bool
}.

Definition bufsiz : Z := 8192.
Definition eof : Z := -1.

Definition set_buf (b : list byte) (f : File) : File :=
  mkFile b (bufAt f) (bufEnd f) (fmode f) (lastAct f) (fd f) (err f) (end_ f).
Definition set_bufAt (z : Z) (f : File) : File :=
  mkFile (buf f) z (bufEnd f) (fmode f) (lastAct f) (fd f) (err f) (end_ f).
Definition set_bufEnd (z : Z) (f : File) : File :=
  mkFile (buf f) (bufAt f) z (fmode f) (lastAct f) (fd f) (err f) (end_ f).
Definition set_lastAct (a : Action) (f : File) : File :=
  mkFile (buf f) (bufAt f) (bufEnd f) (fmode f) a (fd f) (err f) (end_ f).
Definition set_fd (d : Sys.Descriptor) (f : File) : File :=
  mkFile (buf f) (bufAt f) (bufEnd f) (fmode f) (lastAct f) d (err f) (end_ f).
Definition set_err (z : Z) (f : File) : File :=
  mkFile (buf f) (bufAt f) (bufEnd f) (fmode f) (lastAct f) (fd f) z (end_ f).
Definition set_end (b : bool) (f : File) : File :=
  mkFile (buf f) (bufAt f) (bufEnd f) (fmode f) (lastAct f) (fd f) (err f) b.

(** How a member function leaves: by returning [a], by a C++ exception, or
    in undefined behaviour. *)
Inductive outcome (A : Type) : Type :=
| Done (a : A) (f : File)
| Thrown (what : string) (f : File)
| Undefined.

Arguments Done {A} a f.
Arguments Thrown {A} what f.
Arguments Undefined {A}.

Definition bind {A B : Type} (m : outcome A) (k : A -> File -> outcome B)
  : outcome B :=
  match m with
  | Done a f => k a f
  | Thrown what f => Thrown what f
  | Undefined => Undefined
  end.

Notation "'call' ( r , f ) <- m ; k" := (bind m (fun r f => k))
  (at level 10, r name, f name, m at level 100, k at level 200).

(** [buf + i] onwards, empty when [i] is outside the allocation. *)
Definition from (b : list byte) (i : Z) : list byte :=
  if (0 <=? i) && (i <? Sys.len b) then skipn (Z.to_nat i) b else [].

(** [*(buf + i) = c]; [None] outside the allocation. *)
Definition store (b : list byte) (i : Z) (c : byte) : option (list byte) :=
  if (0 <=? i) && (i <? Sys.len b)
  then Some (firstn (Z.to_nat i) b ++ c :: skipn (Z.to_nat (i + 1)) b)
  else None.

(** The allocation after [read] stored [got] at its start. *)
Definition fill (b got : list byte) : list byte :=
  got ++ skipn (length got) b.

(** *** Construction

    A C string argument is given by the bytes at the pointer; the string
    is what comes before the first NUL (or the end of the list). *)
Fixpoint c_str (l : list byte) : list byte :=
  match l with
  | [] => []
  | c :: l' => if Byte.eqb c x00 then [] else c :: c_str l'
  end.

(** How [File::File] leaves. *)
Inductive construction : Type :=
| Built (f : File)        (* the object exists *)
| OpenFailure             (* [throw "Open failure"] *)
| Indeterminate.          (* [fd] and [fmode] were never assigned *)

(** [File::File(name, mode)]: [opened] is what [open(name, flags)] yields
    ([None] for -1) and [block] the bytes of the block [malloc] hands out.
    With a mode string of another shape no branch assigns [fd] and
    [fmode]. *)
Definition File_new (opened : option Sys.Descriptor) (mode : list byte)
    (block : list byte) : construction :=
  let fm :=
    match c_str mode with
    | ["r"%byte] => Some mode_r
    | ["w"%byte] => Some mode_w
    | "r"%byte :: "+"%byte :: _ => Some mode_plus
    | "w"%byte :: "+"%byte :: _ => Some mode_plus
    | _ => None
    end in
  match fm, opened with
  | None, _ => Indeterminate
  | Some _, None => OpenFailure
  | Some m, Some d => Built (mkFile block 0 0 m act_0 d 0 false)
  end.

Definition ferror (f : File) : outcome Z := Done (err f) f.

Definition feof (f : File) : outcome bool := Done (end_ f) f.

(** *** [File::fflush] *)
Definition fflush (f : File) : outcome Z :=
  let reset f := Done 0 (set_lastAct act_0 (set_bufEnd 0 (set_bufAt 0 f))) in
  match lastAct f with
  | act_w =>
      if Sys.len (buf f) <? bufAt f then Undefined else
      let (r, d) := Sys.write (fd f) (firstn (Z.to_nat (bufAt f)) (buf f)) in
      if r <? 0 then Done eof (set_fd d f) else reset (set_fd d f)
  | act_r =>
      let (r, d) := Sys.lseek (fd f)
                      (Int.to_off_t (Int.to_size_t (bufAt f - bufEnd f)))
                      Sys.SEEK_CUR in
      if r =? -1 then Done eof (set_err (-4) (set_fd d f)) else reset (set_fd d f)
  | act_0 => reset f
  end.

(** [if (lastAct == a) { if (fflush() != 0) return ...; }]: the value
    tested, 0 when the stream was not last used for [a]. *)
Definition flush_when (a : Action) (f : File) : outcome Z :=
  match lastAct f, a with
  | act_r, act_r | act_w, act_w | act_0, act_0 => fflush f
  | _, _ => Done 0 f
  end.

(** *** [File::fread] *)

(** [while (bufAt < bufEnd) *(ptr + ptrAt++) = *(buf + bufAt++);]
    [rest] is the allocation from [bufAt] on, [out] what [ptr] holds. *)
Fixpoint drain (rest : list byte) (at_ end' : Z) (out : list byte)
  : option (Z * list byte) :=
  if at_ <? end' then
    match rest with
    | [] => None
    | c :: rest' => drain rest' (at_ + 1) end' (out ++ [c])
    end
  else Some (at_, out).

(** The closing loop of [fread]; the boolean tells whether [end] was set:
[[
  while (ptrAt < size * nmemb) {
    if (bufAt == bufEnd && bufEnd < bufsiz) { end = true; break; }
    *(ptr + ptrAt++) = *(buf + bufAt++);
  }
]] *)
Fixpoint copy_out (rest : list byte) (at_ end' n ptrAt : Z) (out : list byte)
  : option (Z * Z * bool * list byte) :=
  if ptrAt <? n then
    if (at_ =? end') && (end' <? bufsiz) then Some (at_, ptrAt, true, out)
    else
      match rest with
      | [] => None
      | c :: rest' => copy_out rest' (at_ + 1) end' n (ptrAt + 1) (out ++ [c])
      end
  else Some (at_, ptrAt, false, out).

(** Lines 130-139: [lastAct = 'r'], the loop, [return ptrAt]. *)
Definition fread_copy (n ptrAt : Z) (out : list byte) (f : File)
  : outcome (Z * list byte) :=
  let f := set_lastAct act_r f in
  match copy_out (from (buf f) (bufAt f)) (bufAt f) (bufEnd f) n ptrAt out with
  | None => Undefined
  | Some (at', ptrAt', ended, out') =>
      let f := set_bufAt at' f in
      Done (ptrAt', out') (if ended then set_end true f else f)
  end.

(** Lines 107-129: the refill, or the read straight into [ptr]. *)
Definition fread_fill (n ptrAt : Z) (out : list byte) (f : File)
  : outcome (Z * list byte) :=
  match lastAct f with
  | act_0 =>
      if Int.to_size_t (n - ptrAt) >? bufsiz then
        let '(r, got, d) := Sys.read (fd f) n in
        let f := set_fd d f in
        let bytes_read := Int.to_size_t r in
        if bytes_read <? 0 then Done (Int.to_size_t eof, out ++ got) (set_err (-3) f)
        else
          let f := if bytes_read <? Int.to_size_t (n - ptrAt)
                   then set_end true f else f in
          Done (Int.to_size_t (bytes_read + ptrAt), out ++ got) f
      else
        let '(r, got, d) := Sys.read (fd f) bufsiz in
        let f := set_bufEnd (Int.to_size_t r) (set_buf (fill (buf f) got) (set_fd d f)) in
        if bufEnd f <? 0 then Done (Int.to_size_t eof, out) (set_err (-2) f)
        else if bufEnd f =? 0 then Done (ptrAt, out) (set_end true f)
        else fread_copy n ptrAt out f
  | _ => fread_copy n ptrAt out f
  end.

(** Lines 95-106, and on to the rest: a read that runs past the buffered
    bytes first hands those out and flushes. *)
Definition fread_drain (n : Z) (f : File) : outcome (Z * list byte) :=
  match lastAct f with
  | act_r =>
      if Int.to_size_t (bufAt f + n) >? bufEnd f then
        match drain (from (buf f) (bufAt f)) (bufAt f) (bufEnd f) [] with
        | None => Undefined
        | Some (at', out) =>
            let ptrAt := Sys.len out in
            call (r, f) <- fflush (set_bufAt at' f);
            if negb (r =? 0)
            then Done (Int.to_size_t eof, out)
                      (set_bufAt (Int.to_size_t (bufAt f - ptrAt)) f)
            else fread_fill n ptrAt out f
        end
      else fread_fill n 0 [] f
  | _ => fread_fill n 0 [] f
  end.

Definition fread (size nmemb : Z) (f : File) : outcome (Z * list byte) :=
  let n := Int.to_size_t (size * nmemb) in
  match fmode f with
  | mode_w => Done (Int.to_size_t eof, []) f
  | _ =>
      call (r, f) <- flush_when act_w f;
      if negb (r =? 0) then Done (Int.to_size_t eof, []) f
      else fread_drain n f
  end.

(** *** [File::fwrite] *)

(** [for (; bytes_written < size * nmemb; bytes_written++)
      *(buf + bufAt++) = ((char * ) ptr)[bytes_written];]
    [src] is [ptr] from [bytes_written] on. *)
Fixpoint copy_in (src : list byte) (b : list byte) (at_ bytes_written n : Z)
  : option (list byte * Z * Z) :=
  if bytes_written <? n then
    match src with
    | [] => None
    | c :: src' =>
        match store b at_ c with
        | None => None
        | Some b' => copy_in src' b' (at_ + 1) (bytes_written + 1) n
        end
    end
  else Some (b, at_, bytes_written).

(** Lines 162-167. *)
Definition fwrite_copy (ptr : list byte) (n bytes_written : Z) (f : File)
  : outcome Z :=
  if bytes_written =? 0 then
    match copy_in ptr (buf f) (bufAt f) bytes_written n with
    | None => Undefined
    | Some (b, at', written) => Done written (set_bufAt at' (set_buf b f))
    end
  else Done bytes_written f.

(** Lines 149-167. *)
Definition fwrite_put (ptr : list byte) (n : Z) (f : File) : outcome Z :=
  let f := set_lastAct act_w f in
  if Int.to_size_t (bufAt f + n) >? bufsiz then
    call (r, f) <- fflush f;
    if negb (r =? 0) then Done (Int.to_size_t eof) f else
    if n >? bufsiz then
      if Sys.len ptr <? n then Undefined else
      let (r, d) := Sys.write (fd f) (firstn (Z.to_nat n) ptr) in
      let f := set_fd d f in
      let bytes_written := Int.to_size_t r in
      if bytes_written <? 0 then Done (Int.to_size_t eof) (set_err (-1) f)
      else fwrite_copy ptr n bytes_written f
    else fwrite_copy ptr n 0 f
  else fwrite_copy ptr n 0 f.

Definition fwrite (ptr : list byte) (size nmemb : Z) (f : File) : outcome Z :=
  let n := Int.to_size_t (size * nmemb) in
  match fmode f with
  | mode_r => Done (Int.to_size_t eof) f
  | _ =>
      call (r, f) <- flush_when act_r f;
      if negb (r =? 0) then Done (Int.to_size_t eof) f
      else fwrite_put ptr n f
  end.

(** *** [File::fgetc], [File::fputc] *)

(** [temp] after [fread] stored [out] into it. *)
Definition temp_after (out : list byte) : byte :=
  match out with
  | c :: _ => c
  | [] => x00
  end.

(** The result of [fread] is a [size_t]: the test [< 0] compares unsigned
    values. *)
Definition fgetc (f : File) : outcome Z :=
  call (r, f) <- fread 1 1 f;
  if fst r <? 0 then Done eof f
  else Done (Int.char_to_int (temp_after (snd r))) f.

Definition fputc (c : Z) (f : File) : outcome Z :=
  call (r, f) <- fwrite [Int.int_to_char c] 1 1 f;
  if r <? 0 then Done eof f else Done c f.

(** *** [File::fgets]

    The result pairs the pointer returned ([true] for [s], [false] for
    [NULL]) with the characters stored into [s]. *)

(** The body of the [for] loop, [k] iterations from the end. *)
Fixpoint fgets_loop (k : nat) (file_offset overflow : Z) (s : list byte)
    (f : File) : outcome (bool * list byte) :=
  match k with
  | O => Done (true, s) f
  | S k' =>
      call (temp, f) <- fgetc f;
      match (if bufAt f =? bufEnd f then Int.incr overflow else Some overflow) with
      | None => Undefined
      | Some overflow =>
          if temp =? eof then
            if negb (end_ f) then
              let f := set_lastAct act_0 (set_bufEnd 0 (set_bufAt 0 f)) in
              match Int.mul overflow bufsiz with
              | None => Undefined
              | Some back =>
                  let off := Int.to_off_t
                               (Int.to_size_t
                                  (Int.to_size_t (file_offset - bufEnd f) - back)) in
                  let (r, d) := Sys.lseek (fd f) off Sys.SEEK_CUR in
                  if r =? -1 then Thrown "Reposition failure" (set_fd d f)
                  else Done (false, s) (set_fd d f)
              end
            else Done (true, s) f
          else
            let s := s ++ [Int.int_to_char temp] in
            if temp =? Int.char_to_int x0a then Done (true, s) f
            else fgets_loop k' file_offset overflow s f
      end
  end.

Definition fgets (size : Z) (f : File) : outcome (bool * list byte) :=
  match fmode f with
  | mode_w => Done (false, []) f
  | _ =>
      call (r, f) <- flush_when act_w f;
      if negb (r =? 0) then Done (false, []) f else
      let file_offset := Int.to_int (bufAt f) in
      let overflow := if bufAt f =? bufEnd f then 1 else 0 in
      fgets_loop (Z.to_nat size) file_offset overflow [] f
  end.

(** *** [File::fputs] *)

(** [while (str[size] != '\0') size++;] *)
Fixpoint strlen (str : list byte) : Z :=
  match str with
  | [] => 0
  | c :: str' => if Byte.eqb c x00 then 0 else 1 + strlen str'
  end.

Definition fputs (str : list byte) (f : File) : outcome Z :=
  match fmode f with
  | mode_r => Done (-1) f
  | _ =>
      let size := strlen str in
      call (r, f) <- fwrite str 1 size f;
      Done (Int.to_int r) f
  end.

(** *** [File::fseek]

    [Whence] has the three enumerators of file.h; [fseek] below is the
    member function on them.  The enumeration type also holds the value
    3, which names no enumerator and takes the last [else]:
    [fseek_value] is the member function on the value of its argument. *)
Inductive Whence : Type := seek_set | seek_cur | seek_end.

Definition Whence_value (whence : Whence) : Z :=
  match whence with
  | seek_set => 0
  | seek_cur => 1
  | seek_end => 2
  end.

Definition fseek (offset : Z) (whence : Whence) (f : File) : outcome Z :=
  call (_r, f) <- fflush f;
  let where_ :=
    match whence with
    | seek_set => Sys.SEEK_SET
    | seek_cur => Sys.SEEK_CUR
    | seek_end => Sys.SEEK_END
    end in
  let (r, d) := Sys.lseek (fd f) offset where_ in
  if r =? -1 then Done (-1) (set_fd d f)
  else Done 0 (set_end false (set_fd d f)).

Definition fseek_value (offset whence : Z) (f : File) : outcome Z :=
  call (_r, f) <- fflush f;
  match (if whence =? Whence_value seek_set then Some Sys.SEEK_SET
         else if whence =? Whence_value seek_cur then Some Sys.SEEK_CUR
         else if whence =? Whence_value seek_end then Some Sys.SEEK_END
         else None) with
  | None => Done (-2) f
  | Some where_ =>
      let (r, d) := Sys.lseek (fd f) offset where_ in
      if r =? -1 then Done (-1) (set_fd d f)
      else Done 0 (set_end false (set_fd d f))
  end.

(** *** [itoa] and [File::fprintf] *)

Definition ITOA_BUFSIZE : Z := 32.

(** [for (; i > 0; i = i / 10) *--p = '0' + (i % 10);]
    [room] counts the slots of [a] below [p], [str] is the string at [p];
    [None] when [p] would leave [a]. *)
Fixpoint itoa_loop (room : nat) (i : Z) (str : list byte)
  : option (nat * list byte) :=
  if 0 <? i then
    match room with
    | O => None
    | S room' =>
        itoa_loop room' (Z.quot i 10)
          (Int.int_to_char (Int.char_to_int "0"%byte + Z.rem i 10) :: str)
    end
  else Some (room, str).

(** The string [itoa] returns; [None] is undefined behaviour. *)
Definition itoa (i : Z) : option (list byte) :=
  let room := Z.to_nat (ITOA_BUFSIZE - 1) in
  if i =? 0 then Some ["0"%byte]
  else
    let negative := i <? 0 in
    match (if negative then Int.neg i else Some i) with
    | None => None
    | Some i =>
        match itoa_loop room i [] with
        | None => None
        | Some (room, str) =>
            if negative then
              match room with
              | O => None
              | S _ => Some ("-"%byte :: str)
              end
            else Some str
        end
    end.

(** The variadic arguments, in order. *)
Inductive Arg : Type :=
| arg_int (i : Z)
| arg_str (s : list byte).

(** [for (; *s != '\0'; s++) { if (fputc( *s ) < 0) return -1; n++; }]
    [None] stands for the [return -1]. *)
Fixpoint put_chars (s : list byte) (n : Z) (f : File) : outcome (option Z) :=
  match s with
  | [] => Done (Some n) f
  | c :: s' =>
      if Byte.eqb c x00 then Done (Some n) f
      else
        call (r, f) <- fputc (Int.char_to_int c) f;
        if r <? 0 then Done None f
        else
          match Int.incr n with
          | None => Undefined
          | Some n => put_chars s' n f
          end
  end.

Fixpoint fprintf_loop (p : list byte) (args : list Arg) (n : Z) (f : File)
  : outcome Z :=
  match p with
  | [] => Done n f
  | c :: p1 =>
      if Byte.eqb c x00 then Done n f
      else if negb (Byte.eqb c "%"%byte) then
        call (r, f) <- fputc (Int.char_to_int c) f;
        if r <? 0 then Done (-1) f
        else
          match Int.incr n with
          | None => Undefined
          | Some n => fprintf_loop p1 args n f
          end
      else
        match p1 with
        | [] =>
            (* [*++p] is the terminator: it is put out, and the scan then
               moves past the end of the string *)
            call (r, f) <- fputc 0 f;
            if r <? 0 then Done (-1) f else Undefined
        | c2 :: p2 =>
            if Byte.eqb c2 "s"%byte then
              match args with
              | arg_str s :: args' =>
                  call (r, f) <- put_chars s n f;
                  match r with
                  | None => Done (-1) f
                  | Some n => fprintf_loop p2 args' n f
                  end
              | _ => Undefined
              end
            else if Byte.eqb c2 "d"%byte then
              match args with
              | arg_int i :: args' =>
                  match itoa i with
                  | None => Undefined
                  | Some s =>
                      call (r, f) <- put_chars s n f;
                      match r with
                      | None => Done (-1) f
                      | Some n => fprintf_loop p2 args' n f
                      end
                  end
              | _ => Undefined
              end
            else
              call (r, f) <- fputc (Int.char_to_int c2) f;
              if r <? 0 then Done (-1) f
              else
                match Int.incr n with
                | None => Undefined
                | Some n => fprintf_loop p2 args n f
                end
        end
  end.

Definition fprintf (format : list byte) (args : list Arg) (f : File)
  : outcome Z :=
  fprintf_loop format args 0 f.

(** ** Streams used in the statements *)

Definition bytes := list_byte_of_string.

(** The block [malloc(bufsiz)] returns.  Its content is indeterminate;
    zero bytes stand for it.  A byte of the block reaches the caller only
    when [fread] hands out from a buffer that no [read] has filled; what
    is handed out then is stated for every block further down. *)
Definition heap : list byte := repeat x00 (Z.to_nat bufsiz).

(** The stream right after [File(name, mode)] on the descriptor [d]. *)
Definition stream (m : Mode) (d : Sys.Descriptor) : File :=
  mkFile heap 0 0 m act_0 d 0 false.

(** The state [fflush] leaves on success. *)
Definition flushed (f : File) : File :=
  set_lastAct act_0 (set_bufEnd 0 (set_bufAt 0 f)).

(** What the stream keeps between calls: the cursor stays inside the
    allocation; [bufEnd] counts the bytes of the last refill while reading
    and is 0 otherwise. *)
Definition buffer_ok (f : File) : Prop :=
  Sys.len (buf f) = bufsiz /\
  match lastAct f with
  | act_0 => bufAt f = 0 /\ bufEnd f = 0
  | act_r => 0 <= bufAt f <= bufEnd f /\ bufEnd f <= bufsiz
  | act_w => 0 <= bufAt f <= bufsiz /\ bufEnd f = 0
  end.

(** [valid_len] of the specification: in read mode the bytes fetched from
    the descriptor, which the code keeps in [bufEnd]; in write mode the
    bytes pending flush, for which the code has no field of its own,
    [cursor] standing for them. *)
Definition valid_len (f : File) : Z :=
  match lastAct f with
  | act_w => bufAt f
  | _ => bufEnd f
  end.

(** The invariant of the data model, as the specification words it:
    [0 <= cursor <= valid_len <= capacity]. *)
Definition data_model_invariant (f : File) : Prop :=
  0 <= bufAt f <= valid_len f /\ valid_len f <= bufsiz.

(** No [read] on the descriptor is going to fail. *)
Definition reads_succeed (f : File) : Prop :=
  Forall (fun x => x <> Sys.fail) (Sys.on_read (fd f)).

(** [fwrite] of [n] bytes either fits behind the pending bytes or goes
    straight to the descriptor. *)
Definition fits_or_direct (n : Z) (f : File) : Prop :=
  lastAct f = act_w -> bufAt f + n <= bufsiz \/ bufsiz < n.

(** A property of the state a call leaves, however it leaves. *)
Definition leaves {A : Type} (P : File -> Prop) (o : outcome A) : Prop :=
  match o with
  | Done _ f => P f
  | Thrown _ f => P f
  | Undefined => True
  end.

(** What every operation hands on to the next one. *)
Definition sound (f : File) : Prop := buffer_ok f /\ reads_succeed f.

(** [err] is as it was before the call, [e], or records a failed
    [lseek]. *)
Definition keeps_err (e : Z) (g : File) : Prop := err g = e \/ err g = -4.

(** The count a call returns is not negative. *)
Definition counted {A : Type} (o : outcome (Z * A)) : Prop :=
  match o with
  | Done (r, _) _ => 0 <= r
  | _ => True
  end.

(** The call returns: it neither throws nor runs into the undefined
    behaviour the model knows, an access outside the buffer of the stream
    among it.  What the call stores into the caller's object is part of
    its result and is bounded apart, by [stores_at_most]. *)
Definition returns {A : Type} (o : outcome A) : Prop :=
  exists a f, o = Done a f.

(** The call stores no more than [cap] bytes into the caller's object. *)
Definition stores_at_most {A : Type} (cap : Z) (o : outcome (A * list byte))
  : Prop :=
  match o with
  | Done (_, out) _ => Sys.len out <= cap
  | _ => True
  end.

(** A descriptor on the file "ab" whose second [read] fails. *)
Definition second_read_fails : Sys.Descriptor :=
  Sys.mkDescriptor (bytes "ab") 0 [Sys.pass; Sys.fail] [] [].

(** A descriptor on the file "ab" whose first [read] fails. *)
Definition first_read_fails : Sys.Descriptor :=
  Sys.mkDescriptor (bytes "ab") 0 [Sys.fail] [] [].

(** A descriptor on the file "abcdef" whose [read]s hand out two bytes
    at a time and fail the third time. *)
Definition third_read_fails : Sys.Descriptor :=
  Sys.mkDescriptor (bytes "abcdef") 0 [Sys.short 2; Sys.short 2; Sys.fail] [] [].

(** A descriptor on the file "abc" whose first [write] fails. *)
Definition first_write_fails : Sys.Descriptor :=
  Sys.mkDescriptor (bytes "abc") 0 [] [Sys.fail] [].

(** A descriptor on the file "abc" whose first [write] takes one byte. *)
Definition first_write_short : Sys.Descriptor :=
  Sys.mkDescriptor (bytes "abc") 0 [] [Sys.short 1] [].

(** The stream on that descriptor once [fputs("xy")] has returned. *)
Definition pending_xy : File :=
  mkFile (bytes "xy" ++ skipn 2 heap) 2 0 mode_w act_w first_write_short 0 false.

(** A payload that fills the buffer to the last byte. *)
Definition full_buffer : list byte := repeat "a"%byte (Z.to_nat bufsiz).

(** *** Decimal numerals

    The minimal decimal representation of the specification, read off a
    string: an optional ['-'], then digits without a leading zero (the
    numeral "0" apart) whose value is the magnitude. *)
Definition digit_value (c : byte) : option Z :=
  let n := Z.of_N (Byte.to_N c) in
  if (48 <=? n) && (n <=? 57) then Some (n - 48) else None.

Fixpoint digits_value (acc : Z) (s : list byte) : option Z :=
  match s with
  | [] => Some acc
  | c :: s' =>
      match digit_value c with
      | None => None
      | Some v => digits_value (10 * acc + v) s'
      end
  end.

Definition natural_numeral (s : list byte) (n : Z) : Prop :=
  match s with
  | [] => False
  | d :: ds => (d = "0"%byte -> ds = []) /\ digits_value 0 s = Some n
  end.

Definition minimal_decimal (s : list byte) (i : Z) : Prop :=
  match s with
  | c :: ds =>
      if Byte.eqb c "-"%byte
      then i < 0 /\ natural_numeral ds (- i)
      else 0 <= i /\ natural_numeral s i
  | [] => False
  end.

(** ** Streams in step with their file

    [reading f before pending after]: the descriptor behaves, the file is
    [before ++ pending ++ after], the caller has consumed [before], the
    buffer still holds [pending] unconsumed, and the descriptor stands
    behind [pending]. *)
Definition reading (f : File) (before pending after : list byte) : Prop :=
  fmode f <> mode_w /\
  Sys.len (buf f) = bufsiz /\
  Sys.contents (fd f) = before ++ pending ++ after /\
  Sys.offset (fd f) = Sys.len (before ++ pending) /\
  Sys.on_read (fd f) = [] /\ Sys.on_lseek (fd f) = [] /\
  match lastAct f with
  | act_0 => pending = [] /\ bufAt f = 0 /\ bufEnd f = 0
  | act_r =>
      exists used tail,
        buf f = used ++ pending ++ tail /\
        bufAt f = Sys.len used /\ bufEnd f = Sys.len used + Sys.len pending
  | act_w => False
  end.

(** [writing f pending]: the descriptor takes every [write] in full and
    the buffer holds [pending], accepted from the caller and not yet
    written. *)
Definition writing (f : File) (pending : list byte) : Prop :=
  fmode f <> mode_r /\
  Sys.len (buf f) = bufsiz /\
  Sys.on_write (fd f) = [] /\
  0 <= Sys.offset (fd f) /\
  match lastAct f with
  | act_w => exists tail, buf f = pending ++ tail /\ bufAt f = Sys.len pending
  | act_0 => pending = [] /\ bufAt f = 0 /\ bufEnd f = 0
  | act_r => False
  end.

(** The file after [data] went out at offset [at_] (a [write] of no bytes
    changes nothing). *)
Definition placed (file : list byte) (at_ : Z) (data : list byte) : list byte :=
  match data with
  | [] => file
  | _ => Sys.overwrite file at_ data
  end.

(** *** [File::~File]

    [cls] is what [close(fd)] returns.  [fflush] throws nothing, so the
    handler, [assert(0)], runs exactly for the "Close failure". *)
Inductive destruction : Type :=
| Closed (d : Sys.Descriptor)   (* the destructor returns; the file is [d]'s *)
| Aborted                       (* [assert(0)] *)
| Unspecified.                  (* undefined behaviour inside [fflush] *)

Definition File_delete (cls : Z) (f : File) : destruction :=
  match fflush f with
  | Done _r g => if cls =? -1 then Aborted else Closed (fd g)
  | Thrown _ _ => Aborted
  | Undefined => Unspecified
  end.

(** What [fgets(s, k)] stores when it scans [todo]: up to a newline or
    [k] characters, going on with NUL once the file is used up. *)
Fixpoint scanned (k : nat) (todo : list byte) : list byte :=
  match k with
  | O => []
  | S k' =>
      match todo with
      | [] => x00 :: scanned k' []
      | c :: t => if Byte.eqb c x0a then [c] else c :: scanned k' t
      end
  end.

(** What is left of [todo] after that scan. *)
Fixpoint unscanned (k : nat) (todo : list byte) : list byte :=
  match k with
  | O => todo
  | S k' =>
      match todo with
      | [] => []
      | c :: t => if Byte.eqb c x0a then t else unscanned k' t
      end
  end.

(** The text a format and its arguments stand for; [None] where
    [fprintf] has no defined result. *)
Fixpoint expand (p : list byte) (args : list Arg) : option (list byte) :=
  match p with
  | [] => Some []
  | c :: p1 =>
      if Byte.eqb c x00 then Some []
      else if negb (Byte.eqb c "%"%byte) then option_map (cons c) (expand p1 args)
      else
        match p1 with
        | [] => None
        | c2 :: p2 =>
            if Byte.eqb c2 "s"%byte then
              match args with
              | arg_str s :: args' => option_map (app (c_str s)) (expand p2 args')
              | _ => None
              end
            else if Byte.eqb c2 "d"%byte then
              match args with
              | arg_int i :: args' =>
                  match itoa i with
                  | Some s => option_map (app s) (expand p2 args')
                  | None => None
                  end
              | _ => None
              end
            else option_map (cons c2) (expand p2 args)
        end
  end.

(** A character [fputc] hands back as a non-negative [int]. *)
Definition seven_bit (c : byte) : Prop := 0 <= Int.char_to_int c.

(** Where [fseek(offset, whence)] aims, counted from the start of the
    file, on a stream that has consumed [before] of the file [whole]. *)
Definition seek_target (offset : Z) (whence : Whence) (before whole : list byte) : Z :=
  match whence with
  | seek_set => offset
  | seek_cur => Sys.len before + offset
  | seek_end => Sys.len whole + offset
  end.

(** A payload larger than the buffer. *)
Definition large_payload : list byte := repeat "a"%byte (Z.to_nat 9000).

(** The stream on "abcdef", open for both directions, once
    [fread(ptr, 1, 2)] has returned: the six bytes are in the buffer and
    two of them are consumed. *)
Definition read_ab : File :=
  mkFile (bytes "abcdef" ++ skipn 6 heap) 2 6 mode_plus act_r
    (Sys.mkDescriptor (bytes "abcdef") 6 [] [] []) 0 false.

(** * Properties *)

(** ** Arithmetic and list facts *)

Lemma to_size_t_small (z : Z) : 0 <= z < Int.size_max -> Int.to_size_t z = z.
Proof. intros H. unfold Int.to_size_t. now apply Z.mod_small. Qed.

Lemma to_size_t_range (z : Z) : 0 <= Int.to_size_t z < Int.size_max.
Proof. unfold Int.to_size_t. apply Z.mod_pos_bound. reflexivity. Qed.

(** An unsigned value is never below 0. *)
Lemma size_t_never_negative (z : Z) : (Int.to_size_t z <? 0) = false.
Proof. apply Z.ltb_ge. apply to_size_t_range. Qed.

Lemma size_max_eq : Int.size_max = 18446744073709551616.
Proof. reflexivity. Qed.

Lemma len_nonneg {A} (l : list A) : 0 <= Sys.len l.
Proof. unfold Sys.len. lia. Qed.

Lemma len_app {A} (l1 l2 : list A) : Sys.len (l1 ++ l2) = Sys.len l1 + Sys.len l2.
Proof. unfold Sys.len. rewrite length_app. lia. Qed.

Lemma len_firstn_le {A} (k : Z) (l : list A) :
  Sys.len (firstn (Z.to_nat k) l) <= Z.max 0 k /\ Sys.len (firstn (Z.to_nat k) l) <= Sys.len l.
Proof. unfold Sys.len. rewrite length_firstn. lia. Qed.

Section Descriptor.
Variable d : Sys.Descriptor.

Lemma next_ok (l : list Sys.Fault) :
  Forall (fun x => x <> Sys.fail) l ->
  fst (Sys.next l) <> Sys.fail /\ Forall (fun x => x <> Sys.fail) (snd (Sys.next l)).
Proof.
  intros H. destruct H; simpl; split; auto. discriminate.
Qed.

Lemma read_ok (count : Z) r got d' :
  Sys.read d count = (r, got, d') ->
  Forall (fun x => x <> Sys.fail) (Sys.on_read d) ->
  Forall (fun x => x <> Sys.fail) (Sys.on_read d') /\
  r = Sys.len got /\ 0 <= r <= Z.max 0 count.
Proof.
  unfold Sys.read. intros E H. destruct (next_ok _ H) as [Hx Hrest].
  destruct (Sys.next (Sys.on_read d)) as [x rest]. simpl in Hx, Hrest.
  assert (B : forall k, k <= Z.max 0 count ->
            0 <= Sys.len (firstn (Z.to_nat k) (Sys.ahead d)) <= Z.max 0 count).
  { intros k Hk. pose proof (len_firstn_le k (Sys.ahead d)).
    pose proof (len_nonneg (firstn (Z.to_nat k) (Sys.ahead d))). lia. }
  destruct x; try congruence; inversion E; subst; simpl; (split; [assumption|split; [reflexivity|]]);
    apply B; simpl; lia.
Qed.

Lemma write_on_read (src : list byte) r d' :
  Sys.write d src = (r, d') -> Sys.on_read d' = Sys.on_read d.
Proof.
  unfold Sys.write. destruct (Sys.next (Sys.on_write d)) as [x rest].
  destruct x; intros E; inversion E; reflexivity.
Qed.

Lemma lseek_on_read off w r d' :
  Sys.lseek d off w = (r, d') -> Sys.on_read d' = Sys.on_read d.
Proof.
  unfold Sys.lseek. destruct (Sys.next (Sys.on_lseek d)) as [x rest].
  destruct x; try destruct (_ <? 0); intros E; inversion E; reflexivity.
Qed.
End Descriptor.

Lemma sound_frame (f g : File) :
  Sys.len (buf g) = Sys.len (buf f) -> bufAt g = bufAt f -> bufEnd g = bufEnd f ->
  lastAct g = lastAct f -> Sys.on_read (fd g) = Sys.on_read (fd f) ->
  sound f -> sound g.
Proof.
  unfold sound, buffer_ok, reads_succeed. intros -> -> -> -> ->. trivial.
Qed.

Lemma sound_flushed (f g : File) :
  Sys.len (buf g) = Sys.len (buf f) -> bufAt g = 0 -> bufEnd g = 0 ->
  lastAct g = act_0 -> Sys.on_read (fd g) = Sys.on_read (fd f) ->
  sound f -> sound g.
Proof.
  unfold sound, buffer_ok, reads_succeed. intros -> -> -> -> ->. tauto.
Qed.

Lemma leaves_bind {A B : Type} (P : File -> Prop) (m : outcome A)
    (k : A -> File -> outcome B) :
  leaves P m ->
  (forall a f, m = Done a f -> P f -> leaves P (k a f)) ->
  leaves P (bind m k).
Proof.
  intros Hm HD. destruct m as [a f|w f|]; simpl in *; auto.
Qed.

Lemma fflush_never_throws (f : File) w g : fflush f <> Thrown w g.
Proof.
  unfold fflush. destruct (lastAct f); try discriminate.
  - destruct (Sys.lseek _ _ _) as [r d]. destruct (r =? -1); discriminate.
  - destruct (_ <? bufAt f); [discriminate|].
    destruct (Sys.write _ _) as [r d]. destruct (r <? 0); discriminate.
Qed.

(** What a returning [fflush] did to the buffer. *)
Lemma fflush_done (f : File) r g :
  fflush f = Done r g ->
  buf g = buf f /\ Sys.on_read (fd g) = Sys.on_read (fd f) /\
  ((r = 0 /\ bufAt g = 0 /\ bufEnd g = 0 /\ lastAct g = act_0) \/
   (r <> 0 /\ bufAt g = bufAt f /\ bufEnd g = bufEnd f /\ lastAct g = lastAct f)).
Proof.
  unfold fflush. destruct (lastAct f) eqn:A.
  - intros E; inversion E; subst; simpl. auto 10.
  - destruct (Sys.lseek _ _ _) as [x d] eqn:L. apply lseek_on_read in L.
    destruct (x =? -1); intros E; inversion E; subst; simpl; (split; [reflexivity|split; [assumption|]]).
    + right. repeat split; try assumption. discriminate.
    + left. auto.
  - destruct (_ <? bufAt f); [discriminate|].
    destruct (Sys.write _ _) as [x d] eqn:W. apply write_on_read in W.
    destruct (x <? 0); intros E; inversion E; subst; simpl; (split; [reflexivity|split; [assumption|]]).
    + right. repeat split; try assumption. discriminate.
    + left. auto.
Qed.

Lemma fflush_sound (f : File) r g : fflush f = Done r g -> sound f -> sound g.
Proof.
  intros E S. destruct (fflush_done _ _ _ E) as (Hb & Hd & [(_ & H1 & H2 & H3) | (_ & H1 & H2 & H3)]).
  - apply (sound_flushed f); congruence.
  - apply (sound_frame f); congruence.
Qed.

Lemma fflush_leaves_sound (f : File) : sound f -> leaves sound (fflush f).
Proof.
  intros S. destruct (fflush f) as [r g|w g|] eqn:E; simpl; trivial.
  - eapply fflush_sound; eauto.
  - exfalso. eapply fflush_never_throws; eauto.
Qed.

Lemma flush_when_leaves_sound a (f : File) : sound f -> leaves sound (flush_when a f).
Proof.
  intros S. unfold flush_when.
  destruct (lastAct f), a; try exact S; apply fflush_leaves_sound; exact S.
Qed.

Lemma flush_when_done a (f : File) r g :
  flush_when a f = Done r g -> a <> act_0 -> sound f ->
  sound g /\ (r = 0 -> lastAct g <> a /\ (lastAct f <> a -> g = f)).
Proof.
  unfold flush_when. intros E Ha S.
  destruct (lastAct f) eqn:A, a; try congruence;
    try (inversion E; subst; split; [assumption|]; intros _; split; [congruence|reflexivity]);
    (split; [eapply fflush_sound; eauto|]);
    intros ->; destruct (fflush_done _ _ _ E) as (_ & _ & [(_ & _ & _ & H3) | (H0 & _)]);
    try congruence; split; congruence.
Qed.

Lemma drain_end rest : forall at_ end' out at' out',
  drain rest at_ end' out = Some (at', out') -> at_ <= end' ->
  at' = end' /\ Sys.len out' = Sys.len out + (end' - at_).
Proof.
  induction rest as [|c rest IH]; intros at_ end' out at' out'; simpl;
    destruct (at_ <? end') eqn:L; intros E Hle; try discriminate.
  - inversion E; subst. apply Z.ltb_ge in L. lia.
  - apply Z.ltb_lt in L. apply IH in E; [|lia]. rewrite len_app in E.
    change (Sys.len [c]) with 1 in E. lia.
  - inversion E; subst. apply Z.ltb_ge in L. lia.
Qed.

Lemma copy_out_cursor rest : forall at_ end' n ptrAt out at' ptrAt' e out',
  copy_out rest at_ end' n ptrAt out = Some (at', ptrAt', e, out') ->
  Sys.len rest = bufsiz - at_ -> at_ <= end' <= bufsiz ->
  at_ <= at' <= end'.
Proof.
  induction rest as [|c rest IH]; intros at_ end' n ptrAt out at' ptrAt' e out' E Hlen Hle;
    cbn [copy_out] in E; destruct (ptrAt <? n);
    try (inversion E; subst; lia).
  - destruct ((at_ =? end') && (end' <? bufsiz)); [inversion E; subst; lia | discriminate].
  - destruct ((at_ =? end') && (end' <? bufsiz)) eqn:T; [inversion E; subst; lia|].
    assert (Hc : Sys.len (c :: rest) = 1 + Sys.len rest)
      by (unfold Sys.len; cbn [length]; lia).
    assert (at_ < end').
    { apply andb_false_iff in T. pose proof (len_nonneg rest).
      destruct T as [T|T]; [apply Z.eqb_neq in T | apply Z.ltb_ge in T]; lia. }
    apply IH in E; lia.
Qed.

Lemma len_from (b : list byte) (i : Z) :
  0 <= i <= Sys.len b -> Sys.len (from b i) = Sys.len b - i.
Proof.
  intros H. unfold from. destruct ((0 <=? i) && (i <? Sys.len b)) eqn:T.
  - unfold Sys.len in *. rewrite length_skipn. lia.
  - apply andb_false_iff in T. destruct T as [T|T];
      [apply Z.leb_gt in T | apply Z.ltb_ge in T]; unfold Sys.len in *; simpl; lia.
Qed.

Lemma len_fill (b got : list byte) :
  Sys.len got <= Sys.len b -> Sys.len (fill b got) = Sys.len b.
Proof.
  unfold fill, Sys.len. rewrite length_app, length_skipn. lia.
Qed.

Lemma fread_copy_sound n ptrAt out (f : File) :
  Sys.len (buf f) = bufsiz -> 0 <= bufAt f <= bufEnd f -> bufEnd f <= bufsiz ->
  reads_succeed f -> leaves sound (fread_copy n ptrAt out f).
Proof.
  intros Hlen Hc He Hr. unfold fread_copy. cbn [buf bufAt bufEnd set_lastAct].
  destruct (copy_out _ _ _ _ _ _) as [[[[at' p'] e] out']|] eqn:E; [|exact I].
  apply copy_out_cursor in E; [| rewrite len_from; lia | lia].
  assert (S : sound (set_bufAt at' (set_lastAct act_r f))).
  { split; [split; simpl; [assumption | lia] | exact Hr]. }
  destruct e; exact S.
Qed.

Lemma fread_fill_sound n ptrAt out (f : File) :
  sound f -> lastAct f <> act_w -> leaves sound (fread_fill n ptrAt out f).
Proof.
  intros [[Hlen Hb] Hr] Hw. unfold fread_fill.
  destruct (lastAct f) eqn:A; try congruence.
  - destruct (_ >? bufsiz).
    + destruct (Sys.read (fd f) n) as [[r got] d] eqn:E.
      destruct (read_ok _ _ _ _ _ E Hr) as (Hr' & _ & _).
      assert (S : forall g, buf g = buf f -> bufAt g = bufAt f -> bufEnd g = bufEnd f ->
                            lastAct g = lastAct f -> fd g = d -> sound g).
      { intros g E1 E2 E3 E4 E5. unfold sound, buffer_ok, reads_succeed.
        rewrite E1, E2, E3, E4, E5, A. tauto. }
      destruct (_ <? 0); [apply S; reflexivity|].
      destruct (_ <? _); apply S; reflexivity.
    + destruct (Sys.read (fd f) bufsiz) as [[r got] d] eqn:E.
      destruct (read_ok _ _ _ _ _ E Hr) as (Hr' & Hgot & Hrange).
      assert (Hsz : Int.to_size_t r = r).
      { apply to_size_t_small. rewrite size_max_eq. unfold bufsiz in Hrange. lia. }
      cbn [bufEnd set_bufEnd]. rewrite Hsz.
      assert (Hfill : Sys.len (fill (buf f) got) = bufsiz).
      { rewrite len_fill; [assumption|]. unfold bufsiz in *. lia. }
      destruct (r <? 0) eqn:N; [apply Z.ltb_lt in N; lia|].
      destruct (r =? 0) eqn:Z0.
      * apply Z.eqb_eq in Z0. subst r. simpl.
        split; [split; simpl; [assumption | rewrite A; tauto] | exact Hr'].
      * apply Z.eqb_neq in Z0. apply fread_copy_sound; simpl; try assumption; try lia.
  - apply fread_copy_sound; try tauto.
Qed.

Lemma fread_drain_sound n (g : File) :
  sound g -> lastAct g <> act_w -> leaves sound (fread_drain n g).
Proof.
  intros Sg Hw. unfold fread_drain. destruct (lastAct g) eqn:A; try congruence.
  - apply fread_fill_sound; [assumption | congruence].
  - destruct (_ >? bufEnd g); [| apply fread_fill_sound; [assumption | congruence]].
    destruct (drain _ _ _ _) as [[at' out]|] eqn:D; [|exact I].
    pose proof Sg as [[Hlen Hb] Hr]. rewrite A in Hb.
    apply drain_end in D; [|lia]. destruct D as [-> Hout].
    change (Sys.len []) with 0 in Hout.
    assert (S1 : sound (set_bufAt (bufEnd g) g)).
    { split; [split; simpl; [assumption | rewrite A; lia] | exact Hr]. }
    apply leaves_bind; [apply fflush_leaves_sound; assumption|].
    intros r f' E S2.
    destruct (fflush_done _ _ _ E) as (Hbuf & Hd & [(-> & H1 & H2 & H3) | (H0 & H1 & H2 & H3)]).
    + cbn [Z.eqb negb]. apply fread_fill_sound; [assumption | congruence].
    + apply Z.eqb_neq in H0. rewrite H0. cbn [negb leaves].
      simpl in Hbuf, Hd, H1, H2, H3.
      apply (sound_frame g); simpl; try congruence.
      rewrite H1, Hout.
      replace (bufEnd g - (0 + (bufEnd g - bufAt g))) with (bufAt g) by lia.
      apply to_size_t_small. rewrite size_max_eq. unfold bufsiz in *. lia.
Qed.

Lemma fread_sound size nmemb (f : File) : sound f -> leaves sound (fread size nmemb f).
Proof.
  intros S. unfold fread.
  destruct (fmode f); [ | exact S | ];
    (apply leaves_bind; [apply flush_when_leaves_sound; assumption|];
     intros r g E _; destruct (flush_when_done _ _ _ _ E) as [Sg Hg]; [discriminate|assumption|];
     destruct (r =? 0) eqn:R; cbn [negb]; [|exact Sg];
     apply Z.eqb_eq in R; apply fread_drain_sound; [assumption | apply Hg; assumption]).
Qed.

Lemma store_len (b : list byte) i c b' :
  store b i c = Some b' -> Sys.len b' = Sys.len b /\ 0 <= i < Sys.len b.
Proof.
  unfold store. destruct ((0 <=? i) && (i <? Sys.len b)) eqn:T; [|discriminate].
  apply andb_true_iff in T. destruct T as [T1 T2].
  apply Z.leb_le in T1. apply Z.ltb_lt in T2. intros [= <-].
  split; [|lia]. unfold Sys.len in *.
  rewrite length_app, length_firstn, length_cons, length_skipn. lia.
Qed.

Lemma copy_in_cursor src : forall b at_ bw n b' at' bw',
  copy_in src b at_ bw n = Some (b', at', bw') ->
  0 <= at_ <= Sys.len b -> bw <= n ->
  Sys.len b' = Sys.len b /\ at' = at_ + (n - bw) /\ at' <= Sys.len b.
Proof.
  induction src as [|c src IH]; intros b at_ bw n b' at' bw' E Hat Hbw;
    cbn [copy_in] in E; destruct (bw <? n) eqn:L;
    try discriminate;
    try (apply Z.ltb_ge in L; inversion E; subst; lia).
  apply Z.ltb_lt in L. destruct (store b at_ c) as [b1|] eqn:St; [|discriminate].
  apply store_len in St. destruct St as [Hl Hi].
  apply IH in E; lia.
Qed.

Lemma fwrite_copy_sound ptr n (f : File) :
  Sys.len (buf f) = bufsiz -> 0 <= bufAt f <= bufsiz -> bufEnd f = 0 -> 0 <= n ->
  (lastAct f = act_w \/ (lastAct f = act_0 /\ bufAt f = 0 /\ bufsiz < n)) ->
  reads_succeed f ->
  forall bw, bw = 0 \/ lastAct f = act_0 -> 0 <= bw -> leaves sound (fwrite_copy ptr n bw f).
Proof.
  intros Hlen Hat He Hn Hact Hr bw Hbw Hbw0. unfold fwrite_copy.
  destruct (bw =? 0) eqn:Z0.
  - apply Z.eqb_eq in Z0. subst bw.
    destruct (copy_in _ _ _ _ _) as [[[b at'] w]|] eqn:E; [|exact I].
    apply copy_in_cursor in E; [|lia|lia]. destruct E as (Hl & Hat' & Hle).
    destruct Hact as [A | (A & A0 & Hbig)].
    + split; [split; simpl; [congruence | rewrite A; lia] | exact Hr].
    + exfalso. lia.
  - destruct Hbw as [-> | A]; [discriminate|].
    destruct Hact as [A' | (_ & A0 & _)]; [congruence|].
    split; [split; [assumption | rewrite A; lia] | exact Hr].
Qed.

Lemma fwrite_put_sound ptr n (f : File) :
  sound f -> lastAct f <> act_r -> 0 <= n < Int.size_max ->
  (bufAt f + n <= bufsiz \/ bufsiz < n) ->
  leaves sound (fwrite_put ptr n f).
Proof.
  intros [[Hlen Hb] Hr] Ha Hn Hfit. unfold fwrite_put. cbn [bufAt set_lastAct].
  assert (Hat : 0 <= bufAt f <= bufsiz /\ bufEnd f = 0).
  { destruct (lastAct f); try congruence; unfold bufsiz; lia. }
  assert (S1 : sound (set_lastAct act_w f)).
  { split; [split; simpl; [assumption | lia] | exact Hr]. }
  rewrite size_max_eq in Hn.
  destruct (_ >? bufsiz) eqn:C.
  - assert (Hbig : bufsiz < n).
    { destruct Hfit as [Hfit|]; [|assumption]. exfalso.
      rewrite to_size_t_small in C
        by (rewrite size_max_eq; unfold bufsiz in *; lia).
      rewrite Z.gtb_ltb in C. apply Z.ltb_lt in C. lia. }
    apply leaves_bind; [apply fflush_leaves_sound; exact S1|].
    intros r g E Sg.
    destruct (fflush_done _ _ _ E) as (Hbuf & Hd & [(-> & H1 & H2 & H3) | (H0 & H1 & H2 & H3)]).
    + cbn [Z.eqb negb]. destruct (n >? bufsiz) eqn:C2;
        [|rewrite Z.gtb_ltb in C2; apply Z.ltb_ge in C2; lia].
      destruct (_ <? n); [exact I|].
      destruct (Sys.write _ _) as [x d] eqn:W. apply write_on_read in W.
      destruct (_ <? 0).
      * apply (sound_frame g); simpl; auto.
      * destruct Sg as [[Hlg Hbg] Hrg].
        apply fwrite_copy_sound; simpl; try lia; try assumption.
        -- right. auto.
        -- unfold reads_succeed. simpl. rewrite W. exact Hrg.
        -- right. assumption.
        -- apply to_size_t_range.
    + apply Z.eqb_neq in H0. rewrite H0. exact Sg.
  - apply fwrite_copy_sound; simpl; try lia; try assumption; auto.
Qed.

Lemma fits_after_flush n (f g : File) :
  flush_when act_r f = Done 0 g -> sound f -> fits_or_direct n f -> 0 <= n ->
  bufAt g + n <= bufsiz \/ bufsiz < n.
Proof.
  unfold flush_when. intros E [[_ Hb] _] Hfit Hn. destruct (lastAct f) eqn:A.
  - inversion E; subst. lia.
  - destruct (fflush_done _ _ _ E) as (_ & _ & [(_ & H1 & _) | (H0 & _)]); [lia | congruence].
  - inversion E; subst. apply Hfit. exact A.
Qed.

Lemma fwrite_sound ptr size nmemb (f : File) :
  sound f -> fits_or_direct (Int.to_size_t (size * nmemb)) f ->
  leaves sound (fwrite ptr size nmemb f).
Proof.
  intros S Hfit. unfold fwrite.
  pose proof (to_size_t_range (size * nmemb)) as Hn.
  destruct (fmode f); [exact S | | ];
    (apply leaves_bind; [apply flush_when_leaves_sound; assumption|];
     intros r g E _; destruct (flush_when_done _ _ _ _ E) as [Sg Hg]; [discriminate|assumption|];
     destruct (r =? 0) eqn:R; cbn [negb]; [|exact Sg];
     apply Z.eqb_eq in R; subst r; destruct (Hg eq_refl) as [Hg1 _];
     apply fwrite_put_sound; try assumption;
     eapply fits_after_flush; eauto; lia).
Qed.

Lemma fgetc_sound (f : File) : sound f -> leaves sound (fgetc f).
Proof.
  intros S. unfold fgetc. apply leaves_bind; [apply fread_sound; exact S|].
  intros r g _ Sg. destruct (fst r <? 0); exact Sg.
Qed.

Lemma fputc_sound c (f : File) :
  sound f -> fits_or_direct 1 f -> leaves sound (fputc c f).
Proof.
  intros S Hfit. unfold fputc. apply leaves_bind; [apply fwrite_sound; assumption|].
  intros r g _ Sg. destruct (r <? 0); exact Sg.
Qed.

Lemma fputs_sound str (f : File) :
  sound f -> fits_or_direct (Int.to_size_t (strlen str)) f -> leaves sound (fputs str f).
Proof.
  intros S Hfit. unfold fputs. destruct (fmode f); [exact S | | ];
    (apply leaves_bind;
     [apply fwrite_sound; [assumption | now rewrite Z.mul_1_l] | intros r g _ Sg; exact Sg]).
Qed.

Lemma fgets_loop_sound k : forall file_offset overflow s (f : File),
  sound f -> leaves sound (fgets_loop k file_offset overflow s f).
Proof.
  induction k as [|k IH]; intros file_offset overflow s f S; cbn [fgets_loop]; [exact S|].
  apply leaves_bind; [apply fgetc_sound; exact S|].
  intros temp g _ Sg.
  destruct (if bufAt g =? bufEnd g then Int.incr overflow else Some overflow) as [ov|];
    [|exact I].
  destruct (temp =? eof).
  - destruct (end_ g); cbn [negb]; [exact Sg|].
    destruct (Int.mul ov bufsiz) as [back|]; [|exact I].
    destruct (Sys.lseek _ _ _) as [r d] eqn:L. apply lseek_on_read in L.
    destruct (r =? -1); apply (sound_flushed g); simpl; auto.
  - destruct (temp =? _); [exact Sg | apply IH; exact Sg].
Qed.

Lemma fgets_sound size (f : File) : sound f -> leaves sound (fgets size f).
Proof.
  intros S. unfold fgets. destruct (fmode f); [ | exact S | ];
    (apply leaves_bind; [apply flush_when_leaves_sound; exact S|];
     intros r g _ Sg; destruct (negb (r =? 0)); [exact Sg | apply fgets_loop_sound; exact Sg]).
Qed.

Lemma fseek_sound offset whence (f : File) : sound f -> leaves sound (fseek offset whence f).
Proof.
  intros S. unfold fseek. apply leaves_bind; [apply fflush_leaves_sound; exact S|].
  intros r g _ Sg. destruct (Sys.lseek _ _ _) as [x d] eqn:L. apply lseek_on_read in L.
  destruct (x =? -1); apply (sound_frame g); simpl; auto.
Qed.

Lemma File_new_sound d mode block (f : File) :
  File_new (Some d) mode block = Built f ->
  Sys.len block = bufsiz -> Forall (fun x => x <> Sys.fail) (Sys.on_read d) ->
  sound f.
Proof.
  unfold File_new. intros E Hl Hr.
  destruct (match c_str mode with [] => None | _ => _ end) as [m|]; [|discriminate].
  inversion E; subst. split; [split; simpl; [assumption | auto] | exact Hr].
Qed.

(** ** The read path returns *)

Lemma drain_defined rest : forall at_ end' out,
  Sys.len rest = bufsiz - at_ -> at_ <= end' <= bufsiz ->
  exists r, drain rest at_ end' out = Some r.
Proof.
  induction rest as [|c rest IH]; intros at_ end' out Hlen Hle; cbn [drain];
    destruct (at_ <? end') eqn:L; eauto.
  - apply Z.ltb_lt in L. change (Sys.len []) with 0 in Hlen. lia.
  - apply Z.ltb_lt in L. apply IH; [|lia].
    unfold Sys.len in *. cbn [length] in Hlen. lia.
Qed.

Lemma copy_out_defined rest : forall at_ end' n ptrAt out,
  Sys.len rest = bufsiz - at_ -> at_ <= end' <= bufsiz ->
  n - ptrAt <= end' - at_ \/ end' < bufsiz ->
  exists r, copy_out rest at_ end' n ptrAt out = Some r.
Proof.
  induction rest as [|c rest IH]; intros at_ end' n ptrAt out Hlen Hle Hn;
    cbn [copy_out]; destruct (ptrAt <? n) eqn:L; eauto;
    apply Z.ltb_lt in L;
    destruct ((at_ =? end') && (end' <? bufsiz)) eqn:T; eauto;
    apply andb_false_iff in T.
  - change (Sys.len []) with 0 in Hlen. exfalso.
    destruct T as [T|T]; [apply Z.eqb_neq in T | apply Z.ltb_ge in T]; lia.
  - assert (Hc : Sys.len (c :: rest) = 1 + Sys.len rest)
      by (unfold Sys.len; cbn [length]; lia).
    pose proof (len_nonneg rest).
    apply IH; [lia | | lia].
    destruct T as [T|T]; [apply Z.eqb_neq in T | apply Z.ltb_ge in T]; lia.
Qed.

Lemma fread_copy_returns n ptrAt out (f : File) :
  Sys.len (buf f) = bufsiz -> 0 <= bufAt f <= bufEnd f -> bufEnd f <= bufsiz ->
  n - ptrAt <= bufEnd f - bufAt f \/ bufEnd f < bufsiz ->
  returns (fread_copy n ptrAt out f).
Proof.
  intros Hlen Hat He Hn. unfold fread_copy. cbn [buf bufAt bufEnd set_lastAct].
  destruct (copy_out_defined (from (buf f) (bufAt f)) (bufAt f) (bufEnd f) n ptrAt out)
    as [[[[at' p'] e] out'] E]; [rewrite len_from; lia | lia | exact Hn |].
  rewrite E. unfold returns. eauto.
Qed.

Lemma fread_fill_returns n ptrAt out (f : File) :
  sound f -> lastAct f <> act_w -> 0 <= ptrAt <= n -> n < Int.size_max ->
  (lastAct f = act_r -> n - ptrAt <= bufEnd f - bufAt f) ->
  returns (fread_fill n ptrAt out f).
Proof.
  intros [[Hlen Hb] Hr] Hw Hp Hmax Hfit. unfold fread_fill.
  destruct (lastAct f) eqn:A; try congruence.
  - destruct (_ >? bufsiz) eqn:G.
    + destruct (Sys.read (fd f) n) as [[r got] d].
      rewrite size_t_never_negative. unfold returns. eauto.
    + destruct (Sys.read (fd f) bufsiz) as [[r got] d] eqn:E.
      destruct (read_ok _ _ _ _ _ E Hr) as (_ & Hgot & Hrange).
      cbn [bufEnd set_bufEnd]. rewrite size_t_never_negative.
      assert (Hsz : Int.to_size_t r = r).
      { apply to_size_t_small. rewrite size_max_eq. unfold bufsiz in Hrange. lia. }
      rewrite Hsz. destruct (r =? 0) eqn:Z0; [unfold returns; eauto|].
      apply Z.eqb_neq in Z0.
      rewrite Z.gtb_ltb in G. apply Z.ltb_ge in G.
      rewrite to_size_t_small in G by lia.
      apply fread_copy_returns; cbn [buf bufAt bufEnd set_buf set_bufEnd set_fd].
      * rewrite len_fill; [assumption|]. unfold bufsiz in *. lia.
      * lia.
      * unfold bufsiz in *. lia.
      * unfold bufsiz in *. lia.
  - apply fread_copy_returns; try tauto; left; apply Hfit; reflexivity.
Qed.

Lemma fflush_returns (f : File) : sound f -> returns (fflush f).
Proof.
  intros [[Hlen Hb] _]. unfold fflush, returns. destruct (lastAct f).
  - eauto.
  - destruct (Sys.lseek _ _ _) as [r d]. destruct (r =? -1); eauto.
  - destruct (Sys.len (buf f) <? bufAt f) eqn:L; [apply Z.ltb_lt in L; lia|].
    destruct (Sys.write _ _) as [r d]. destruct (r <? 0); eauto.
Qed.

Lemma fread_drain_returns n (f : File) :
  sound f -> lastAct f <> act_w -> 0 <= n < Int.size_max - bufsiz ->
  returns (fread_drain n f).
Proof.
  intros S Hw Hn. pose proof S as [[Hlen Hb] Hr]. unfold fread_drain.
  rewrite size_max_eq in Hn.
  destruct (lastAct f) eqn:A; try congruence.
  - apply fread_fill_returns; try assumption; try congruence;
      rewrite ?size_max_eq; unfold bufsiz in *; lia.
  - rewrite to_size_t_small by (rewrite size_max_eq; unfold bufsiz in *; lia).
    destruct (_ >? bufEnd f) eqn:G; rewrite Z.gtb_ltb in G.
    + apply Z.ltb_lt in G.
      destruct (drain_defined (from (buf f) (bufAt f)) (bufAt f) (bufEnd f) [])
        as [[at' out] D]; [rewrite len_from; lia | lia |].
      rewrite D. apply drain_end in D; [|lia]. destruct D as [-> Hout].
      change (Sys.len []) with 0 in Hout.
      assert (S1 : sound (set_bufAt (bufEnd f) f)).
      { split; [split; simpl; [assumption | rewrite A; lia] | exact Hr]. }
      destruct (fflush_returns _ S1) as (r & g & E). rewrite E. cbn [bind].
      destruct (negb (r =? 0)) eqn:R; [unfold returns; eauto|].
      apply negb_false_iff, Z.eqb_eq in R. subst r.
      pose proof (fflush_sound _ _ _ E S1) as Sg.
      destruct (fflush_done _ _ _ E) as (_ & _ & [(_ & _ & _ & H3) | (H0 & _)]); [|congruence].
      apply fread_fill_returns; try assumption; try congruence;
        rewrite ?size_max_eq; unfold bufsiz in *; lia.
    + apply Z.ltb_ge in G.
      apply fread_fill_returns; try assumption; try congruence;
        rewrite ?size_max_eq; unfold bufsiz in *; lia.
Qed.

(** From a state the operations hand on, a read whose size leaves the
    cursor arithmetic below 2^64 returns: it neither leaves the
    allocation nor throws. *)
Lemma fread_returns size nmemb (f : File) :
  sound f -> 0 <= size * nmemb < Int.size_max - bufsiz ->
  returns (fread size nmemb f).
Proof.
  intros S Hn. unfold fread.
  assert (Hn' : 0 <= size * nmemb < Int.size_max)
    by (rewrite size_max_eq in *; unfold bufsiz in Hn; lia).
  rewrite (to_size_t_small (size * nmemb)) by exact Hn'.
  assert (F : returns (call (r, g) <- flush_when act_w f;
                       if negb (r =? 0) then Done (Int.to_size_t eof, []) g
                       else fread_drain (size * nmemb) g)).
  { destruct (flush_when act_w f) as [r g| |] eqn:E.
    - cbn [bind]. destruct (flush_when_done _ _ _ _ E) as [Sg Hg]; [discriminate|assumption|].
      destruct (r =? 0) eqn:R; cbn [negb]; [|unfold returns; eauto].
      apply Z.eqb_eq in R. apply fread_drain_returns; [assumption | apply Hg; assumption | assumption].
    - exfalso. unfold flush_when in E.
      destruct (lastAct f); try discriminate. eapply fflush_never_throws; eauto.
    - exfalso. unfold flush_when in E.
      destruct (lastAct f); try discriminate.
      destruct (fflush_returns f S) as (r & g & E'). congruence. }
  destruct (fmode f); [exact F | unfold returns; eauto | exact F].
Qed.

Lemma fgetc_returns (f : File) : sound f -> returns (fgetc f).
Proof.
  intros S. unfold fgetc.
  destruct (fread_returns 1 1 f S) as ([r out] & g & E);
    [rewrite size_max_eq; unfold bufsiz; lia|].
  rewrite E. cbn [bind fst]. destruct (r <? 0); unfold returns; eauto.
Qed.

Lemma fseek_returns offset whence (f : File) :
  sound f -> returns (fseek offset whence f).
Proof.
  intros S. unfold fseek. destruct (fflush_returns f S) as (r & g & E).
  rewrite E. cbn [bind]. destruct (Sys.lseek _ _ _) as [x d].
  destruct (x =? -1); unfold returns; eauto.
Qed.

(** ** Opening a stream *)

Lemma stream_opened (d : Sys.Descriptor) :
  File_new (Some d) (bytes "r") heap = Built (stream mode_r d) /\
  File_new (Some d) (bytes "w") heap = Built (stream mode_w d) /\
  File_new (Some d) (bytes "r+") heap = Built (stream mode_plus d) /\
  File_new (Some d) (bytes "w+") heap = Built (stream mode_plus d).
Proof. repeat split. Qed.

Lemma heap_len : Sys.len heap = bufsiz.
Proof. vm_compute. reflexivity. Qed.

Lemma stream_sound (m : Mode) (d : Sys.Descriptor) :
  Forall (fun x => x <> Sys.fail) (Sys.on_read d) -> sound (stream m d).
Proof.
  intros H. split; [split; [exact heap_len | split; reflexivity] | exact H].
Qed.

(** ** The buffer invariant (C4) *)

(** The part of C4 that holds.  After open and after every [fread],
    [fwrite], [fgetc], [fputc], [fgets], [fputs], [fflush] and [fseek]
    that returns (or throws), [buffer_ok] holds, and with it the
    invariant of the data model ([buffer_ok_bounds]): the allocation keeps
    its [bufsiz] bytes; with [lastAct = 'r'],
    [0 <= bufAt <= bufEnd <= bufsiz]; with [lastAct = '0'],
    [bufAt = bufEnd = 0]; with [lastAct = 'w'], [0 <= bufAt <= bufsiz].
    This is for streams on which no [read] fails and for writes that fit
    behind the pending bytes or exceed the buffer; the two situations left
    out are those in which the invariant breaks (a [fwrite] that flushes
    and then buffers, further down, and a failed [read], C7). *)
Theorem buffer_ok_preserved :
  (forall d mode block f,
      File_new (Some d) mode block = Built f ->
      Sys.len block = bufsiz ->
      Forall (fun x => x <> Sys.fail) (Sys.on_read d) -> sound f) /\
  (forall f, buffer_ok f -> reads_succeed f ->
     (forall size nmemb, leaves sound (fread size nmemb f)) /\
     (forall ptr size nmemb,
         fits_or_direct (Int.to_size_t (size * nmemb)) f ->
         leaves sound (fwrite ptr size nmemb f)) /\
     leaves sound (fgetc f) /\
     (forall c, fits_or_direct 1 f -> leaves sound (fputc c f)) /\
     (forall size, leaves sound (fgets size f)) /\
     (forall str,
         fits_or_direct (Int.to_size_t (strlen str)) f ->
         leaves sound (fputs str f)) /\
     leaves sound (fflush f) /\
     (forall offset whence, leaves sound (fseek offset whence f))).
Proof.
  split; [exact File_new_sound|].
  intros f Hb Hr. assert (S : sound f) by (split; assumption).
  repeat split; intros.
  - now apply fread_sound.
  - now apply fwrite_sound.
  - now apply fgetc_sound.
  - now apply fputc_sound.
  - now apply fgets_sound.
  - now apply fputs_sound.
  - now apply fflush_leaves_sound.
  - now apply fseek_sound.
Qed.

Lemma buffer_ok_preserved_witness :
  buffer_ok (stream mode_plus (Sys.fresh (bytes "abc"))) /\
  reads_succeed (stream mode_plus (Sys.fresh (bytes "abc"))) /\
  leaves sound (fread 1 2 (stream mode_plus (Sys.fresh (bytes "abc")))) /\
  leaves sound (fputc 97 (stream mode_plus (Sys.fresh (bytes "abc")))) /\
  (exists g, fread 1 2 (stream mode_plus (Sys.fresh (bytes "abc")))
             = Done (2, bytes "ab") g) /\
  (exists g, fputc 97 (stream mode_plus (Sys.fresh (bytes "abc"))) = Done 97 g).
Proof.
  assert (Hb : buffer_ok (stream mode_plus (Sys.fresh (bytes "abc")))).
  { split; [vm_compute; reflexivity | split; reflexivity]. }
  assert (Hr : reads_succeed (stream mode_plus (Sys.fresh (bytes "abc")))).
  { constructor. }
  split; [exact Hb | split; [exact Hr|]].
  destruct (proj2 buffer_ok_preserved _ Hb Hr) as (R & _ & _ & P & _).
  split; [apply R | split; [apply P; intros E; discriminate E|]].
  split; eexists; vm_compute; reflexivity.
Defined.

(** [buffer_ok] gives the invariant of the data model, in every mode. *)
Lemma buffer_ok_bounds (f : File) :
  buffer_ok f ->
  0 <= bufAt f <= bufsiz /\ 0 <= bufEnd f <= bufsiz /\
  data_model_invariant f.
Proof.
  unfold buffer_ok, data_model_invariant, valid_len, bufsiz. intros [_ H].
  destruct (lastAct f); repeat split; lia.
Qed.

(** ** Writing to a read-only stream (C8) *)

(** C8.  On a stream opened ReadOnly ([fmode = 'r']) every [fwrite]
    returns the EOF sentinel, [(size_t) eof], and leaves the whole stream
    as it was: buffer, [bufAt], [bufEnd], [lastAct], [err], [end] and the
    descriptor with the file behind it. *)
Theorem fwrite_read_only_refused (f : File) (ptr : list byte) (size nmemb : Z) :
  fmode f = mode_r ->
  fwrite ptr size nmemb f = Done (Int.to_size_t eof) f /\
  Int.to_size_t eof = Int.size_max - 1.
Proof.
  intros H. unfold fwrite. rewrite H. split; reflexivity.
Qed.

Lemma fwrite_read_only_refused_witness :
  fmode (stream mode_r (Sys.fresh (bytes "abc"))) = mode_r /\
  fwrite (bytes "xyz") 1 3 (stream mode_r (Sys.fresh (bytes "abc")))
  = Done (Int.to_size_t eof) (stream mode_r (Sys.fresh (bytes "abc"))).
Proof.
  split; [reflexivity|].
  apply (fwrite_read_only_refused (stream mode_r (Sys.fresh (bytes "abc")))).
  reflexivity.
Defined.

(** ** Flushing pending writes (C5) *)

(** C5, as stated, fails: a short [write] does not make [fflush] fail.
    With "xy" pending and a [write] that takes one byte of the two,
    [fflush] returns 0, records no error and drops the byte not written. *)
Lemma fflush_short_write_succeeds :
  fputs (bytes "xy") (stream mode_w first_write_short) = Done 2 pending_xy /\
  lastAct pending_xy = act_w /\ bufAt pending_xy = 2 /\
  fst (Sys.write (fd pending_xy) (firstn 2 (buf pending_xy))) = 1 /\
  exists g, fflush pending_xy = Done 0 g /\ err g = 0 /\
            Sys.contents (fd g) = bytes "xbc".
Proof.
  split; [vm_compute; reflexivity|].
  split; [reflexivity|]. split; [reflexivity|]. split; [vm_compute; reflexivity|].
  eexists. split; [vm_compute; reflexivity|]. split; reflexivity.
Qed.

(** C5, amended.  With [lastAct = 'w'], [fflush] issues one [write] of
    exactly the first [bufAt] bytes of [buf].  A negative result makes it
    return [eof] with [bufAt], [bufEnd] and [lastAct] untouched; any other
    result, a short count included, makes it return 0 with [bufAt = 0],
    [bufEnd = 0] and [lastAct = '0']. *)
Theorem fflush_write_branch (f : File) :
  lastAct f = act_w -> 0 <= bufAt f <= Sys.len (buf f) ->
  exists pending r d,
    pending = firstn (Z.to_nat (bufAt f)) (buf f) /\
    Sys.len pending = bufAt f /\
    Sys.write (fd f) pending = (r, d) /\
    (r < 0 ->
     exists g, fflush f = Done eof g /\ fd g = d /\
               bufAt g = bufAt f /\ bufEnd g = bufEnd f /\ lastAct g = act_w) /\
    (0 <= r ->
     exists g, fflush f = Done 0 g /\ fd g = d /\
               bufAt g = 0 /\ bufEnd g = 0 /\ lastAct g = act_0).
Proof.
  intros A Hat. unfold fflush. rewrite A.
  destruct (Sys.len (buf f) <? bufAt f) eqn:L; [apply Z.ltb_lt in L; lia|].
  destruct (Sys.write _ _) as [r d] eqn:W.
  exists (firstn (Z.to_nat (bufAt f)) (buf f)), r, d.
  split; [reflexivity|]. split.
  { unfold Sys.len in *. rewrite length_firstn. lia. }
  split; [exact W|]. split; intros Hr.
  - destruct (r <? 0) eqn:N; [|apply Z.ltb_ge in N; lia].
    eexists. split; [reflexivity|]. simpl. auto.
  - destruct (r <? 0) eqn:N; [apply Z.ltb_lt in N; lia|].
    eexists. split; [reflexivity|]. simpl. auto.
Qed.

Lemma fflush_write_branch_witness :
  lastAct pending_xy = act_w /\
  0 <= bufAt pending_xy <= Sys.len (buf pending_xy) /\
  exists pending r d,
    pending = firstn (Z.to_nat (bufAt pending_xy)) (buf pending_xy) /\
    Sys.len pending = bufAt pending_xy /\
    Sys.write (fd pending_xy) pending = (r, d) /\
    (r < 0 ->
     exists g, fflush pending_xy = Done eof g /\ fd g = d /\
               bufAt g = bufAt pending_xy /\ bufEnd g = bufEnd pending_xy /\
               lastAct g = act_w) /\
    (0 <= r ->
     exists g, fflush pending_xy = Done 0 g /\ fd g = d /\
               bufAt g = 0 /\ bufEnd g = 0 /\ lastAct g = act_0).
Proof.
  assert (Ha : lastAct pending_xy = act_w) by reflexivity.
  assert (Hc : 0 <= bufAt pending_xy <= Sys.len (buf pending_xy)).
  { vm_compute. split; discriminate. }
  split; [exact Ha | split; [exact Hc|]].
  exact (fflush_write_branch pending_xy Ha Hc).
Defined.

(** ** [fgets] without room (C10) *)

(** C10, as stated, fails: with a byte pending and the [write] of the
    sync failing, [fgets(s, 0)] on a read-write stream returns [NULL]. *)
Lemma fgets_size_zero_failed_sync_returns_null :
  exists f g,
    fputc 120 (stream mode_plus first_write_fails) = Done 120 f /\
    fmode f <> mode_w /\ lastAct f = act_w /\
    fgets 0 f = Done (false, []) g.
Proof.
  do 2 eexists. split; [vm_compute; reflexivity|].
  split; [discriminate | split; [reflexivity | vm_compute; reflexivity]].
Qed.

(** C10, amended.  On a stream that is not write-only, [fgets] with
    [size <= 0] stores no character.  When [lastAct] is not ['w'] it
    returns [s] and changes nothing; when [lastAct = 'w'] the only effect
    is that of [fflush], and it returns [s] if the flush returned 0 and
    [NULL] if the flush failed. *)
Theorem fgets_nonpositive_size (f : File) (size : Z) :
  fmode f <> mode_w -> size <= 0 ->
  (lastAct f <> act_w -> fgets size f = Done (true, []) f) /\
  (lastAct f = act_w ->
   fgets size f = (call (r, g) <- fflush f; Done (r =? 0, []) g)).
Proof.
  intros Hm Hs. unfold fgets.
  replace (Z.to_nat size) with O by lia. cbn [fgets_loop].
  destruct (fmode f); try congruence;
    (split; intros A; unfold flush_when;
     [ destruct (lastAct f); try congruence; reflexivity
     | rewrite A; destruct (fflush f) as [r g| |]; try reflexivity;
       cbn [bind]; destruct (r =? 0); reflexivity ]).
Qed.

Lemma fgets_nonpositive_size_witness :
  fmode (stream mode_r (Sys.fresh (bytes "abc"))) <> mode_w /\ 0 <= 0 /\
  fgets 0 (stream mode_r (Sys.fresh (bytes "abc")))
  = Done (true, []) (stream mode_r (Sys.fresh (bytes "abc"))).
Proof.
  assert (Hm : fmode (stream mode_r (Sys.fresh (bytes "abc"))) <> mode_w)
    by discriminate.
  assert (Hs : 0 <= 0) by lia.
  split; [exact Hm | split; [exact Hs|]].
  apply (proj1 (fgets_nonpositive_size _ 0 Hm Hs)). discriminate.
Defined.

(** ** Read errors (C7, C2, C1)

    [read] yields an [ssize_t]; file.cc stores it in a [size_t] and then
    tests [< 0], which an unsigned value never satisfies.  The three
    statements below follow from that one comparison. *)

(** The part of C7 that holds: a refill of zero bytes sets [end] and
    returns the count delivered, 0 here, without touching [err]. *)
Lemma fread_zero_byte_refill (f : File) (size nmemb : Z) d :
  fmode f <> mode_w -> lastAct f = act_0 ->
  Int.to_size_t (size * nmemb) <= bufsiz ->
  Sys.read (fd f) bufsiz = (0, [], d) ->
  exists g, fread size nmemb f = Done (0, []) g /\
            end_ g = true /\ err g = err f /\ fd g = d.
Proof.
  intros Hm A Hn R. unfold fread, flush_when, fread_drain, fread_fill.
  assert (C : (Int.to_size_t (Int.to_size_t (size * nmemb) - 0) >? bufsiz) = false).
  { rewrite Z.sub_0_r, to_size_t_small by apply to_size_t_range.
    rewrite Z.gtb_ltb. apply Z.ltb_ge. exact Hn. }
  destruct (fmode f); try congruence;
    rewrite A; cbn [bind Z.eqb negb]; rewrite A, C, R;
    eexists; (split; [reflexivity|]); simpl; auto.
Qed.

Lemma fflush_keeps_err e (f : File) :
  keeps_err e f -> leaves (keeps_err e) (fflush f).
Proof.
  intros K. unfold fflush. destruct (lastAct f).
  - exact K.
  - destruct (Sys.lseek _ _ _) as [r d]. destruct (r =? -1); [right; reflexivity | exact K].
  - destruct (_ <? bufAt f); [exact I|].
    destruct (Sys.write _ _) as [r d]. destruct (r <? 0); exact K.
Qed.

Lemma flush_when_keeps_err a e (f : File) :
  keeps_err e f -> leaves (keeps_err e) (flush_when a f).
Proof.
  intros K. unfold flush_when.
  destruct (lastAct f), a; try exact K; apply fflush_keeps_err; exact K.
Qed.

Lemma fread_copy_keeps_err e n ptrAt out (f : File) :
  keeps_err e f -> leaves (keeps_err e) (fread_copy n ptrAt out f).
Proof.
  intros K. unfold fread_copy.
  destruct (copy_out _ _ _ _ _ _) as [[[[at' p'] ended] out']|]; [|exact I].
  destruct ended; exact K.
Qed.

Lemma fread_fill_keeps_err e n ptrAt out (f : File) :
  keeps_err e f -> leaves (keeps_err e) (fread_fill n ptrAt out f).
Proof.
  intros K. unfold fread_fill.
  destruct (lastAct f); try (apply fread_copy_keeps_err; exact K).
  destruct (_ >? bufsiz).
  - destruct (Sys.read (fd f) n) as [[r got] d].
    rewrite size_t_never_negative. destruct (_ <? _); exact K.
  - destruct (Sys.read (fd f) bufsiz) as [[r got] d].
    cbn [bufEnd set_bufEnd]. rewrite size_t_never_negative.
    destruct (_ =? 0); [exact K | apply fread_copy_keeps_err; exact K].
Qed.

Lemma fread_drain_keeps_err e n (f : File) :
  keeps_err e f -> leaves (keeps_err e) (fread_drain n f).
Proof.
  intros K. unfold fread_drain.
  destruct (lastAct f); try (apply fread_fill_keeps_err; exact K).
  destruct (_ >? bufEnd f); [|apply fread_fill_keeps_err; exact K].
  destruct (drain _ _ _ _) as [[at' out]|]; [|exact I].
  apply leaves_bind; [apply fflush_keeps_err; exact K|].
  intros r g _ Kg. destruct (negb (r =? 0)); [exact Kg|].
  apply fread_fill_keeps_err; exact Kg.
Qed.

(** X24.  No [fread] ever records a read error: [err] is left as it
    was, or set to -4 by a failed [lseek] of [fflush]; the assignments
    [err = -2] and [err = -3] are dead. *)
Lemma fread_never_records_read_error size nmemb (f : File) :
  leaves (keeps_err (err f)) (fread size nmemb f).
Proof.
  assert (K : keeps_err (err f) f) by (left; reflexivity).
  unfold fread. destruct (fmode f); [ | exact K | ];
    (apply leaves_bind; [apply flush_when_keeps_err; exact K|];
     intros r g _ Kg; destruct (negb (r =? 0)); [exact Kg|];
     apply fread_drain_keeps_err; exact Kg).
Qed.

Lemma copy_out_count rest : forall at_ end' n ptrAt out at' ptrAt' e out',
  copy_out rest at_ end' n ptrAt out = Some (at', ptrAt', e, out') ->
  ptrAt <= ptrAt'.
Proof.
  induction rest as [|c rest IH]; intros at_ end' n ptrAt out at' ptrAt' e out' E;
    cbn [copy_out] in E; destruct (ptrAt <? n);
    try (inversion E; subst; lia);
    destruct ((at_ =? end') && (end' <? bufsiz));
    try (inversion E; subst; lia); try discriminate.
  apply IH in E. lia.
Qed.

Lemma fread_copy_counted n ptrAt out (f : File) :
  0 <= ptrAt -> counted (fread_copy n ptrAt out f).
Proof.
  intros Hp. unfold fread_copy.
  destruct (copy_out _ _ _ _ _ _) as [[[[at' p'] ended] out']|] eqn:E; [|exact I].
  apply copy_out_count in E. simpl. lia.
Qed.

Lemma fread_fill_counted n ptrAt out (f : File) :
  0 <= ptrAt -> counted (fread_fill n ptrAt out f).
Proof.
  intros Hp. unfold fread_fill.
  destruct (lastAct f); try (apply fread_copy_counted; exact Hp).
  destruct (_ >? bufsiz).
  - destruct (Sys.read (fd f) n) as [[r got] d].
    rewrite size_t_never_negative. simpl. apply to_size_t_range.
  - destruct (Sys.read (fd f) bufsiz) as [[r got] d].
    cbn [bufEnd set_bufEnd]. rewrite size_t_never_negative.
    destruct (_ =? 0); [exact Hp | apply fread_copy_counted; exact Hp].
Qed.

(** The value [fread] returns is a [size_t]: it is never negative. *)
Lemma fread_counted size nmemb (f : File) : counted (fread size nmemb f).
Proof.
  pose proof (to_size_t_range eof) as He.
  unfold fread. destruct (fmode f); [ | simpl; lia | ];
    (destruct (flush_when act_w f) as [r g| |]; cbn [bind]; try exact I;
     destruct (negb (r =? 0)); [simpl; lia|];
     unfold fread_drain;
     destruct (lastAct g); try (apply fread_fill_counted; lia);
     destruct (_ >? bufEnd g); [|apply fread_fill_counted; lia];
     destruct (drain _ _ _ _) as [[at' out]|]; [|exact I];
     destruct (fflush _) as [r' g'| |]; cbn [bind]; try exact I;
     destruct (negb (r' =? 0)); [simpl; lia|];
     apply fread_fill_counted; apply len_nonneg).
Qed.

(** X26.  [fgetc] never takes its [return eof]: what it returns is the
    content of [temp], so it is -1 only when that byte is 0xFF. *)
Lemma fgetc_returns_temp (f : File) v g :
  fgetc f = Done v g ->
  exists r out, fread 1 1 f = Done (r, out) g /\
                v = Int.char_to_int (temp_after out).
Proof.
  unfold fgetc. pose proof (fread_counted 1 1 f) as C.
  destruct (fread 1 1 f) as [[r out] h| |]; cbn [bind fst snd]; try discriminate.
  simpl in C. destruct (r <? 0) eqn:N; [apply Z.ltb_lt in N; lia|].
  intros E; inversion E; subst. eauto.
Qed.

(** C7 at the failing input: the stream is opened for reading on "ab" and
    the first [read] fails.  [fread(ptr, 1, 1)] does not return the EOF
    sentinel and does not set [err]: it returns 1, hands out the byte the
    buffer happened to hold, and leaves [bufEnd = 2^64 - 1]. *)
Theorem fread_failed_read_is_not_reported :
  exists g,
    fread 1 1 (stream mode_r first_read_fails) = Done (1, [x00]) g /\
    err g = 0 /\ bufEnd g = Int.size_max - 1 /\ Sys.offset (fd g) = 0.
Proof.
  eexists. split; [vm_compute; reflexivity|]. repeat split.
Qed.

(** C2 at the failing inputs: at end-of-stream (an empty file) [fgetc]
    returns 0, the initial content of [temp]; on a failed [read] it
    returns the byte the never filled buffer holds, 0 for the block
    [heap]; in neither case the EOF sentinel. *)
Theorem fgetc_does_not_map_eof :
  (exists g, fgetc (stream mode_r (Sys.fresh [])) = Done 0 g /\ end_ g = true) /\
  (exists g, fgetc (stream mode_r first_read_fails) = Done 0 g /\
             end_ g = false /\ err g = 0).
Proof.
  split; eexists; (split; [vm_compute; reflexivity|]); repeat split.
Qed.

(** C1 at the failing input: the stream is opened for reading on "ab";
    the first [read] refills the buffer, the second one fails while
    [fgets(s, 3)] is scanning.  [fgets] returns [s], not [NULL], with
    "aba" stored, and the descriptor stays at offset 2, not at the offset
    0 it had when the call began; [end] was never set. *)
Theorem fgets_read_error_is_not_rolled_back :
  Sys.offset (fd (stream mode_r second_read_fails)) = 0 /\
  exists g,
    fgets 3 (stream mode_r second_read_fails) = Done (true, bytes "aba") g /\
    Sys.offset (fd g) = 2 /\ end_ g = false /\ err g = 0.
Proof.
  split; [reflexivity|].
  eexists. split; [vm_compute; reflexivity|]. repeat split.
Qed.

(** The same after two refills: "ab" and "cd" are scanned, the third
    [read] fails, and [fgets(s, 6)] goes on with the stale "cd"; the
    descriptor stays 4 bytes past the offset at which the call began. *)
Lemma fgets_read_error_after_two_refills :
  exists g,
    fgets 6 (stream mode_r third_read_fails) = Done (true, bytes "abcdcd") g /\
    Sys.offset (fd g) = 4 /\ end_ g = false /\ err g = 0.
Proof.
  eexists. split; [vm_compute; reflexivity|]. repeat split.
Qed.

(** ** [fwrite] and [lastAct] (C3) *)

Lemma store_at (pre post : list byte) (old c : byte) :
  store (pre ++ old :: post) (Sys.len pre) c = Some (pre ++ c :: post).
Proof.
  unfold store. pose proof (len_nonneg pre) as Hp.
  assert (L : Sys.len pre < Sys.len (pre ++ old :: post)).
  { rewrite len_app. unfold Sys.len. cbn [length]. lia. }
  destruct (0 <=? Sys.len pre) eqn:A; [|apply Z.leb_gt in A; lia].
  destruct (Sys.len pre <? Sys.len (pre ++ old :: post)) eqn:B;
    [|apply Z.ltb_ge in B; lia].
  cbn [andb]. f_equal. unfold Sys.len.
  replace (Z.to_nat (Z.of_nat (length pre))) with (length pre + 0)%nat by lia.
  replace (Z.to_nat (Z.of_nat (length pre) + 1)) with (length pre + 1)%nat by lia.
  rewrite firstn_app_2, skipn_app, skipn_all2 by lia. cbn [firstn app].
  rewrite app_nil_r.
  replace (length pre + 1 - length pre)%nat with 1%nat by lia. reflexivity.
Qed.

(** A payload that fits is laid over the allocation from [at_] on. *)
Lemma copy_in_fits (src : list byte) : forall (pre old post : list byte) bw n,
  length old = length src -> n - bw = Sys.len src ->
  copy_in src (pre ++ old ++ post) (Sys.len pre) bw n =
  Some (pre ++ src ++ post, Sys.len pre + Sys.len src, n).
Proof.
  induction src as [|c src IH]; intros pre old post bw n Hl Hn.
  - destruct old; [|discriminate]. change (Sys.len []) with 0 in *.
    cbn [copy_in app]. destruct (bw <? n) eqn:L; [apply Z.ltb_lt in L; lia|].
    apply Z.ltb_ge in L. repeat f_equal; lia.
  - destruct old as [|o old]; [discriminate|].
    assert (Hc : Sys.len (c :: src) = 1 + Sys.len src)
      by (unfold Sys.len; cbn [length]; lia).
    pose proof (len_nonneg src).
    cbn [copy_in]. destruct (bw <? n) eqn:L; [|apply Z.ltb_ge in L; lia].
    cbn [app]. rewrite (store_at pre (old ++ post) o c).
    replace (pre ++ c :: old ++ post) with ((pre ++ [c]) ++ old ++ post)
      by (rewrite <- app_assoc; reflexivity).
    replace (Sys.len pre + 1) with (Sys.len (pre ++ [c]))
      by (rewrite len_app; reflexivity).
    rewrite (IH (pre ++ [c]) old post (bw + 1) n); [| cbn [length] in Hl; lia | lia].
    rewrite <- app_assoc, len_app. change (Sys.len [c]) with 1.
    cbn [app]. rewrite Hc.
    replace (Sys.len pre + 1 + Sys.len src)
      with (Sys.len pre + (1 + Sys.len src)) by lia.
    reflexivity.
Qed.

(** The part of C3 that holds.  A payload that fits behind the pending
    bytes is buffered: [fwrite] returns its length, lays it over [buf]
    from [bufAt] on, advances [bufAt] and leaves [lastAct = 'w']. *)
Lemma fwrite_buffers (f : File) (ptr pre old post : list byte) :
  fmode f <> mode_r -> lastAct f <> act_r ->
  buf f = pre ++ old ++ post -> bufAt f = Sys.len pre ->
  length old = length ptr -> Sys.len pre + Sys.len ptr <= bufsiz ->
  fwrite ptr 1 (Sys.len ptr) f
  = Done (Sys.len ptr)
         (set_bufAt (Sys.len pre + Sys.len ptr)
            (set_buf (pre ++ ptr ++ post) (set_lastAct act_w f))).
Proof.
  intros Hm Ha Hb Hat Hl Hfit. unfold fwrite.
  pose proof (len_nonneg pre) as Hp. pose proof (len_nonneg ptr) as Hq.
  assert (Hn : Int.to_size_t (1 * Sys.len ptr) = Sys.len ptr).
  { rewrite Z.mul_1_l. apply to_size_t_small. rewrite size_max_eq.
    unfold bufsiz in Hfit. lia. }
  assert (Hflush : flush_when act_r f = Done 0 f).
  { unfold flush_when. destruct (lastAct f); congruence. }
  assert (Hput : fwrite_put ptr (Sys.len ptr) f
                 = Done (Sys.len ptr)
                     (set_bufAt (Sys.len pre + Sys.len ptr)
                        (set_buf (pre ++ ptr ++ post) (set_lastAct act_w f)))).
  { unfold fwrite_put. cbn [bufAt set_lastAct]. rewrite Hat.
    rewrite to_size_t_small
      by (rewrite size_max_eq; unfold bufsiz in Hfit; lia).
    destruct (Sys.len pre + Sys.len ptr >? bufsiz) eqn:C;
      [rewrite Z.gtb_ltb in C; apply Z.ltb_lt in C; lia|].
    unfold fwrite_copy. cbn [Z.eqb buf bufAt set_lastAct]. rewrite Hb, Hat.
    rewrite (copy_in_fits ptr pre old post 0 (Sys.len ptr)) by (assumption || lia).
    reflexivity. }
  rewrite Hn, Hflush. cbn [bind Z.eqb negb].
  destruct (fmode f); [congruence | exact Hput | exact Hput].
Qed.

Lemma full_buffer_len : Sys.len full_buffer = bufsiz.
Proof. unfold Sys.len, full_buffer. rewrite repeat_length. reflexivity. Qed.

(** C3 at the failing input: on a stream opened for writing, a write of
    8192 bytes fills the buffer and a write of one more byte flushes it
    first.  The second [fwrite] returns 1 and leaves [lastAct = '0'], not
    ['w'], with the byte in the buffer; the next [fflush] therefore writes
    nothing, and the file holds the 8192 bytes only. *)
Theorem fwrite_after_flush_leaves_no_action :
  exists f g h,
    fwrite full_buffer 1 bufsiz (stream mode_w (Sys.fresh [])) = Done bufsiz f /\
    lastAct f = act_w /\
    fwrite (bytes "x") 1 1 f = Done 1 g /\
    lastAct g = act_0 /\ bufAt g = 1 /\
    fflush g = Done 0 h /\
    Sys.contents (fd h) = full_buffer.
Proof.
  do 3 eexists. split.
  { rewrite <- full_buffer_len.
    apply (fwrite_buffers (stream mode_w (Sys.fresh [])) full_buffer [] heap []).
    - discriminate.
    - discriminate.
    - cbn [app buf stream]. rewrite app_nil_r. reflexivity.
    - reflexivity.
    - unfold heap, full_buffer. rewrite !repeat_length. reflexivity.
    - rewrite full_buffer_len. change (Sys.len []) with 0. lia. }
  split; [reflexivity|]. split; [vm_compute; reflexivity|].
  split; [reflexivity|]. split; [reflexivity|].
  split; vm_compute; reflexivity.
Qed.

(** ** The invariant of the data model (C4) *)

(** C4 at the failing input.  The stream is opened for both directions
    on a file of 8195 bytes.  A [fwrite] of 8192 bytes fills the buffer;
    the invariant holds.  A [fwrite] of 8 bytes flushes the buffer and
    then buffers the 8 bytes, leaving [lastAct = '0'] with [bufAt = 8]
    (C3).  The next [fread] of one byte therefore flushes nothing: it
    refills the buffer with the 3 bytes left in the file, over the
    pending ones, and hands out the byte at [bufAt], a stale byte of the
    first payload.  It returns in read mode with [bufAt = 9] above
    [bufEnd = 3]: [cursor <= valid_len] is broken, with no call of the
    descriptor layer having failed. *)
Theorem fwrite_flush_breaks_data_model_invariant :
  exists f g h,
    fwrite full_buffer 1 bufsiz
      (stream mode_plus (Sys.fresh (full_buffer ++ bytes "xyz")))
    = Done bufsiz f /\
    data_model_invariant f /\
    fwrite (bytes "12345678") 1 8 f = Done 8 g /\
    lastAct g = act_0 /\ bufAt g = 8 /\ bufEnd g = 0 /\
    fread 1 1 g = Done (1, bytes "a") h /\
    lastAct h = act_r /\ bufAt h = 9 /\ bufEnd h = 3 /\
    valid_len h = 3 /\
    ~ data_model_invariant h.
Proof.
  do 3 eexists. split.
  { rewrite <- full_buffer_len.
    apply (fwrite_buffers (stream mode_plus (Sys.fresh (full_buffer ++ bytes "xyz")))
             full_buffer [] heap []).
    - discriminate.
    - discriminate.
    - cbn [app buf stream]. rewrite app_nil_r. reflexivity.
    - reflexivity.
    - unfold heap, full_buffer. rewrite !repeat_length. reflexivity.
    - rewrite full_buffer_len. change (Sys.len []) with 0. lia. }
  split.
  { unfold data_model_invariant, valid_len.
    cbn [lastAct bufAt set_bufAt set_buf set_lastAct].
    rewrite full_buffer_len. change (Sys.len []) with 0. unfold bufsiz. lia. }
  split; [vm_compute; reflexivity|].
  split; [reflexivity|]. split; [reflexivity|]. split; [reflexivity|].
  split; [vm_compute; reflexivity|].
  split; [reflexivity|]. split; [reflexivity|]. split; [reflexivity|].
  split; [reflexivity|].
  vm_compute. intros [[_ H] _]. apply H. reflexivity.
Qed.

(** ** [fseek] (C6) *)

(** C6 at the failing input: one byte is pending on a stream whose
    [write] fails.  [fseek(2, seek_set)] does not stop at the failed
    flush: it moves the descriptor to offset 2 and returns 0, with the
    byte still pending. *)
Theorem fseek_ignores_failed_sync :
  exists f e g,
    fputc 120 (stream mode_w first_write_fails) = Done 120 f /\
    fflush f = Done eof e /\
    fseek 2 seek_set f = Done 0 g /\
    Sys.offset (fd f) = 0 /\ Sys.offset (fd g) = 2 /\
    lastAct g = act_w /\ bufAt g = 1 /\ err g = 0.
Proof.
  do 3 eexists. split; [vm_compute; reflexivity|].
  split; [vm_compute; reflexivity|].
  split; [vm_compute; reflexivity|]. repeat split.
Qed.

(** ** [itoa] and [fprintf] (C9) *)

Lemma digit_char (d : Z) :
  0 <= d <= 9 ->
  digit_value (Int.int_to_char (Int.char_to_int "0"%byte + d)) = Some d /\
  (d <> 0 -> Int.int_to_char (Int.char_to_int "0"%byte + d) <> "0"%byte).
Proof.
  intros H.
  assert (C : d = 0 \/ d = 1 \/ d = 2 \/ d = 3 \/ d = 4 \/ d = 5 \/ d = 6 \/
              d = 7 \/ d = 8 \/ d = 9) by lia.
  repeat (destruct C as [-> | C]; [split; [reflexivity | intros N; try lia; discriminate]|]).
  subst d. split; [reflexivity | discriminate].
Qed.

Lemma digits_value_app (s t : list byte) : forall acc,
  digits_value acc (s ++ t) =
  match digits_value acc s with
  | Some v => digits_value v t
  | None => None
  end.
Proof.
  induction s as [|c s IH]; intros acc; cbn [digits_value app]; [reflexivity|].
  destruct (digit_value c); [apply IH | reflexivity].
Qed.

Lemma itoa_loop_zero (room : nat) (str : list byte) :
  itoa_loop room 0 str = Some (room, str).
Proof. destruct room; reflexivity. Qed.

(** The loop of [itoa] on a magnitude below [10^k], with room for [k]
    digits: it stays inside [a] and puts the digits of [i], most
    significant first and without a leading zero, in front of [str]. *)
Lemma itoa_loop_digits (k : nat) : forall (room : nat) (i : Z) (str : list byte),
  0 <= i < 10 ^ Z.of_nat k -> (k <= room)%nat ->
  exists s,
    itoa_loop room i str = Some ((room - length s)%nat, s ++ str) /\
    (length s <= k)%nat /\
    (forall acc, digits_value acc s = Some (acc * 10 ^ Sys.len s + i)) /\
    (i = 0 -> s = []) /\
    (0 < i -> exists d ds, s = d :: ds /\ d <> "0"%byte).
Proof.
  assert (Zero : forall j room str, j = 0 ->
             itoa_loop room j str = Some ((room - length (@nil byte))%nat, [] ++ str) /\
             (forall acc, digits_value acc [] = Some (acc * 10 ^ Sys.len (@nil byte) + j)) /\
             (j = 0 -> @nil byte = []) /\
             (0 < j -> exists d ds, @nil byte = d :: ds /\ d <> "0"%byte)).
  { intros j room str ->. rewrite itoa_loop_zero. cbn [length app].
    rewrite Nat.sub_0_r. split; [reflexivity|].
    split; [intros acc; cbn; f_equal; lia|]. split; [reflexivity|lia]. }
  induction k as [|k IH]; intros room i str Hi Hroom.
  - assert (H0 : i = 0) by (change (10 ^ Z.of_nat 0) with 1 in Hi; lia).
    destruct (Zero i room str H0) as (H1 & H2 & H3 & H4).
    exists []. repeat split; auto.
  - destruct (Z.eq_dec i 0) as [H0 | Hnz].
    { destruct (Zero i room str H0) as (H1 & H2 & H3 & H4).
      exists []. repeat split; auto. simpl. lia. }
    destruct room as [|room]; [lia|].
    assert (Hpos : 0 < i) by lia.
    cbn [itoa_loop]. destruct (0 <? i) eqn:L; [|apply Z.ltb_ge in L; lia].
    rewrite Z.quot_div_nonneg, Z.rem_mod_nonneg by lia.
    set (c := Int.int_to_char (Int.char_to_int "0"%byte + i mod 10)).
    assert (Hq : 0 <= i / 10 < 10 ^ Z.of_nat k).
    { split; [apply Z.div_pos; lia|].
      apply Z.div_lt_upper_bound; [lia|].
      replace (Z.of_nat (S k)) with (Z.of_nat k + 1) in Hi by lia.
      rewrite Z.pow_add_r, Z.pow_1_r in Hi by lia. lia. }
    destruct (IH room (i / 10) (c :: str) Hq ltac:(lia)) as (s1 & E & Hl & Hv & Hz & Hh).
    assert (Hm : 0 <= i mod 10 <= 9) by (pose proof (Z.mod_pos_bound i 10); lia).
    destruct (digit_char (i mod 10) Hm) as [Dv Dn]. fold c in Dv, Dn.
    exists (s1 ++ [c]). rewrite <- app_assoc. cbn [app].
    rewrite length_app. cbn [length].
    replace (S room - (length s1 + 1))%nat with (room - length s1)%nat by lia.
    split; [exact E|]. split; [lia|]. split; [|split; [lia|]].
    + intros acc. rewrite digits_value_app, Hv. cbn [digits_value]. rewrite Dv.
      f_equal. rewrite len_app. change (Sys.len [c]) with 1.
      rewrite Z.pow_add_r, Z.pow_1_r by (pose proof (len_nonneg s1); lia).
      pose proof (Z.div_mod i 10 ltac:(lia)). lia.
    + intros _. destruct (Z.eq_dec (i / 10) 0) as [Q0 | Q0].
      * rewrite (Hz Q0). exists c, []. split; [reflexivity|].
        apply Dn. intros M0. pose proof (Z.div_mod i 10 ltac:(lia)). lia.
      * destruct (Hh ltac:(lia)) as (d & ds & -> & Hd).
        exists d, (ds ++ [c]). split; [reflexivity | exact Hd].
Qed.

(** X25.  The part of C9 that holds for every [int] but [INT_MIN]:
    [itoa] returns the minimal decimal representation. *)
Lemma itoa_minimal_decimal (i : Z) :
  Int.int_min < i <= Int.int_max ->
  exists s, itoa i = Some s /\ minimal_decimal s i.
Proof.
  unfold Int.int_min, Int.int_max. intros Hi. unfold itoa.
  destruct (i =? 0) eqn:Z0.
  { apply Z.eqb_eq in Z0. subst i. exists ["0"%byte].
    split; [reflexivity|]. cbn. repeat split; lia. }
  apply Z.eqb_neq in Z0.
  assert (Digit : forall d ds v, digits_value 0 (d :: ds) = Some v ->
                    Byte.eqb d "-"%byte = false).
  { intros d ds v E. destruct (Byte.eqb d "-"%byte) eqn:B; [|reflexivity].
    apply byte_dec_bl in B. subst d. discriminate E. }
  destruct (i <? 0) eqn:N.
  - apply Z.ltb_lt in N. unfold Int.neg, Int.int_min.
    destruct (i =? - 2 ^ 31) eqn:M; [apply Z.eqb_eq in M; lia|].
    destruct (itoa_loop_digits 10 (Z.to_nat (ITOA_BUFSIZE - 1)) (- i) [])
      as (s & E & Hl & Hv & _ & Hh); [lia | vm_compute; lia |].
    rewrite E, app_nil_r.
    destruct (Z.to_nat (ITOA_BUFSIZE - 1) - length s)%nat eqn:R;
      [change (Z.to_nat (ITOA_BUFSIZE - 1)) with 31%nat in R; lia|].
    exists ("-"%byte :: s). split; [reflexivity|].
    cbn [minimal_decimal Byte.eqb]. change (Byte.eqb "-" "-") with true. cbv iota.
    split; [lia|].
    destruct (Hh ltac:(lia)) as (d & ds & -> & Hd).
    split; [intros; contradiction | rewrite Hv; f_equal; lia].
  - apply Z.ltb_ge in N.
    destruct (itoa_loop_digits 10 (Z.to_nat (ITOA_BUFSIZE - 1)) i [])
      as (s & E & Hl & Hv & _ & Hh); [lia | vm_compute; lia |].
    rewrite E, app_nil_r. exists s. split; [reflexivity|].
    destruct (Hh ltac:(lia)) as (d & ds & -> & Hd).
    pose proof (Hv 0) as V. rewrite Z.mul_0_l, Z.add_0_l in V.
    cbn [minimal_decimal]. rewrite (Digit _ _ _ V).
    split; [lia|]. split; [intros; contradiction | exact V].
Qed.

(** The example of C9 holds: on a stream just opened for writing,
    [fprintf("%d-%s-%%", -7, "ab")] returns 7 and leaves the seven
    characters "-7-ab-%" pending, which [fflush] writes out. *)
Lemma fprintf_example :
  exists f g,
    fprintf (bytes "%d-%s-%%") [arg_int (-7); arg_str (bytes "ab")]
      (stream mode_w (Sys.fresh []))
    = Done 7 f /\
    bufAt f = 7 /\ firstn 7 (buf f) = bytes "-7-ab-%" /\
    fflush f = Done 0 g /\ Sys.contents (fd g) = bytes "-7-ab-%".
Proof.
  do 2 eexists. split; [vm_compute; reflexivity|].
  split; [reflexivity|]. split; [vm_compute; reflexivity|].
  split; vm_compute; reflexivity.
Qed.

(** C9 at the failing input: for [INT_MIN] the negation [i = -i] in
    [itoa] overflows, so no decimal representation is produced, and
    [fprintf("%d", INT_MIN)] is undefined on every stream. *)
Theorem itoa_int_min_overflows (f : File) :
  Int.int_min = -2147483648 /\
  itoa Int.int_min = None /\
  fprintf (bytes "%d") [arg_int Int.int_min] f = Undefined.
Proof. repeat split. Qed.

(** ** The byte 0xFF

    [char] being signed, [fgetc] returns -1 exactly when the byte handed
    out is 0xFF; [fgets] takes that for a failed read.  On the file
    "\xFFa" the rollback branch runs with [overflow = 1]: it seeks 8192
    bytes back from offset 2, [lseek] refuses, and [fgets] throws. *)
Lemma fgets_byte_ff_throws :
  Int.char_to_int xff = eof /\
  exists g,
    fgets 4 (stream mode_r (Sys.fresh [xff; "a"%byte]))
    = Thrown "Reposition failure" g /\
    Sys.offset (fd g) = 2.
Proof.
  split; [reflexivity|].
  eexists. split; [vm_compute; reflexivity | reflexivity].
Qed.

(** * Streams in step with their file

    From here on the descriptor behaves: every [read], [write] and
    [lseek] does all it is asked to.  [reading] and [writing] tie the
    buffer of the stream to the bytes of the file; the lemmas follow the
    operations through those states. *)

(** ** Lists cut at [Z] positions *)


Lemma firstn_len_app {A} (l1 l2 : list A) :
  firstn (Z.to_nat (Sys.len l1)) (l1 ++ l2) = l1.
Proof.
  unfold Sys.len. rewrite Nat2Z.id.
  rewrite firstn_app, Nat.sub_diag, firstn_all. cbn [firstn]. apply app_nil_r.
Qed.

Lemma skipn_len_app {A} (l1 l2 : list A) :
  skipn (Z.to_nat (Sys.len l1)) (l1 ++ l2) = l2.
Proof.
  unfold Sys.len. rewrite Nat2Z.id.
  rewrite skipn_app, Nat.sub_diag, skipn_all. reflexivity.
Qed.

Lemma firstn_short {A} (n : Z) (l : list A) :
  Sys.len l <= n -> firstn (Z.to_nat n) l = l.
Proof. unfold Sys.len. intros H. apply firstn_all2. lia. Qed.

Lemma len_firstn {A} (n : Z) (l : list A) :
  0 <= n <= Sys.len l -> Sys.len (firstn (Z.to_nat n) l) = n.
Proof. unfold Sys.len. intros H. rewrite length_firstn. lia. Qed.

Lemma firstn_app_Z {A} (n : Z) (l1 l2 : list A) :
  Sys.len l1 <= n ->
  firstn (Z.to_nat n) (l1 ++ l2) = l1 ++ firstn (Z.to_nat (n - Sys.len l1)) l2.
Proof.
  unfold Sys.len. intros H. rewrite firstn_app, firstn_all2 by lia.
  do 2 f_equal. lia.
Qed.

Lemma firstn_app_in {A} (n : Z) (l1 l2 : list A) :
  n <= Sys.len l1 -> firstn (Z.to_nat n) (l1 ++ l2) = firstn (Z.to_nat n) l1.
Proof.
  unfold Sys.len. intros H. rewrite firstn_app.
  replace (Z.to_nat n - length l1)%nat with 0%nat by lia.
  cbn [firstn]. apply app_nil_r.
Qed.

Lemma firstn_firstn_Z {A} (m n : Z) (l : list A) :
  m <= n -> firstn (Z.to_nat m) (firstn (Z.to_nat n) l) = firstn (Z.to_nat m) l.
Proof. intros H. rewrite firstn_firstn. f_equal. lia. Qed.

Lemma from_app (used rest : list byte) : from (used ++ rest) (Sys.len used) = rest.
Proof.
  unfold from. pose proof (len_nonneg used) as Hu. pose proof (len_nonneg rest) as Hr.
  rewrite len_app.
  destruct (0 <=? Sys.len used) eqn:A; [|apply Z.leb_gt in A; lia].
  destruct (Sys.len used <? Sys.len used + Sys.len rest) eqn:B; cbn [andb].
  - apply skipn_len_app.
  - apply Z.ltb_ge in B. destruct rest; [reflexivity|].
    unfold Sys.len in B. cbn [length] in B. lia.
Qed.

(** ** The descriptor when nothing goes wrong *)

Lemma ahead_app (d : Sys.Descriptor) (pre post : list byte) :
  Sys.contents d = pre ++ post -> Sys.offset d = Sys.len pre -> Sys.ahead d = post.
Proof.
  intros Hc Ho. unfold Sys.ahead. rewrite Hc, Ho. apply (from_app pre post).
Qed.

Lemma read_in_full (d : Sys.Descriptor) (pre post : list byte) (count : Z) :
  Sys.contents d = pre ++ post -> Sys.offset d = Sys.len pre ->
  Sys.on_read d = [] -> 0 <= count ->
  Sys.read d count =
  (Sys.len (firstn (Z.to_nat count) post), firstn (Z.to_nat count) post,
   Sys.mkDescriptor (Sys.contents d)
     (Sys.offset d + Sys.len (firstn (Z.to_nat count) post))
     [] (Sys.on_write d) (Sys.on_lseek d)).
Proof.
  intros Hc Ho Hr Hn. unfold Sys.read. rewrite Hr. cbn [Sys.next Sys.limit].
  rewrite (ahead_app d pre post Hc Ho).
  assert (E : firstn (Z.to_nat (Z.min (Z.max 0 count) (Sys.len post))) post
              = firstn (Z.to_nat count) post).
  { unfold Sys.len. destruct (Z_le_gt_dec count (Z.of_nat (length post))).
    - f_equal. lia.
    - rewrite !firstn_all2 by lia. reflexivity. }
  rewrite E. reflexivity.
Qed.

Lemma lseek_cur (d : Sys.Descriptor) (off : Z) :
  Sys.on_lseek d = [] -> 0 <= Sys.offset d + off ->
  Sys.lseek d off Sys.SEEK_CUR =
  (Sys.offset d + off,
   Sys.mkDescriptor (Sys.contents d) (Sys.offset d + off)
     (Sys.on_read d) (Sys.on_write d) []).
Proof.
  intros Hs Ht. unfold Sys.lseek. rewrite Hs. cbn [Sys.next].
  destruct (Sys.offset d + off <? 0) eqn:L; [apply Z.ltb_lt in L; lia | reflexivity].
Qed.

(** ** The loops of [fread] in closed form *)

Lemma drain_data (data : list byte) : forall tail at_ out,
  drain (data ++ tail) at_ (at_ + Sys.len data) out
  = Some (at_ + Sys.len data, out ++ data).
Proof.
  induction data as [|c data IH]; intros tail at_ out.
  - change (Sys.len []) with 0. rewrite Z.add_0_r, app_nil_r. cbn [app].
    destruct tail; cbn [drain]; rewrite Z.ltb_irrefl; reflexivity.
  - assert (Hc : Sys.len (c :: data) = 1 + Sys.len data)
      by (unfold Sys.len; cbn [length]; lia).
    pose proof (len_nonneg data). cbn [app drain].
    destruct (at_ <? at_ + Sys.len (c :: data)) eqn:L; [|apply Z.ltb_ge in L; lia].
    replace (at_ + Sys.len (c :: data)) with (at_ + 1 + Sys.len data) by lia.
    rewrite IH, <- app_assoc. reflexivity.
Qed.

Lemma copy_out_stop (rest : list byte) at_ end' n ptrAt out :
  n <= ptrAt -> copy_out rest at_ end' n ptrAt out = Some (at_, ptrAt, false, out).
Proof.
  intros H. destruct rest; cbn [copy_out];
    (destruct (ptrAt <? n) eqn:L; [apply Z.ltb_lt in L; lia | reflexivity]).
Qed.

Lemma copy_out_end (rest : list byte) at_ n ptrAt out :
  ptrAt < n -> at_ < bufsiz ->
  copy_out rest at_ at_ n ptrAt out = Some (at_, ptrAt, true, out).
Proof.
  intros H Hb. destruct rest; cbn [copy_out];
    (destruct (ptrAt <? n) eqn:L; [|apply Z.ltb_ge in L; lia]);
    rewrite Z.eqb_refl; (destruct (at_ <? bufsiz) eqn:B; [|apply Z.ltb_ge in B; lia]);
    reflexivity.
Qed.

(** Enough buffered bytes: the loop hands out the next [n - ptrAt]. *)
Lemma copy_out_enough (data : list byte) : forall tail at_ n ptrAt out,
  ptrAt <= n -> n - ptrAt <= Sys.len data ->
  copy_out (data ++ tail) at_ (at_ + Sys.len data) n ptrAt out
  = Some (at_ + (n - ptrAt), n, false, out ++ firstn (Z.to_nat (n - ptrAt)) data).
Proof.
  induction data as [|c data IH]; intros tail at_ n ptrAt out Hp Hn.
  - change (Sys.len []) with 0 in *. assert (n = ptrAt) by lia. subst n.
    rewrite copy_out_stop by lia. rewrite Z.sub_diag, Z.add_0_r.
    cbn [Z.to_nat firstn]. rewrite app_nil_r. reflexivity.
  - assert (Hc : Sys.len (c :: data) = 1 + Sys.len data)
      by (unfold Sys.len; cbn [length]; lia).
    pose proof (len_nonneg data).
    destruct (Z.eq_dec n ptrAt) as [-> | Hne].
    + rewrite copy_out_stop by lia. rewrite Z.sub_diag, Z.add_0_r.
      cbn [Z.to_nat firstn]. rewrite app_nil_r. reflexivity.
    + cbn [app copy_out].
      destruct (ptrAt <? n) eqn:L; [|apply Z.ltb_ge in L; lia].
      destruct (at_ =? at_ + Sys.len (c :: data)) eqn:Q; [apply Z.eqb_eq in Q; lia|].
      cbn [andb].
      replace (at_ + Sys.len (c :: data)) with (at_ + 1 + Sys.len data) by lia.
      rewrite IH by lia. rewrite <- app_assoc.
      replace (Z.to_nat (n - ptrAt)) with (S (Z.to_nat (n - (ptrAt + 1)))) by lia.
      cbn [firstn app].
      replace (at_ + 1 + (n - (ptrAt + 1))) with (at_ + (n - ptrAt)) by lia.
      reflexivity.
Qed.

(** Too few, below capacity: the loop hands out all of them and sets
    [end]. *)
Lemma copy_out_short (data : list byte) : forall tail at_ n ptrAt out,
  Sys.len data < n - ptrAt -> at_ + Sys.len data < bufsiz ->
  copy_out (data ++ tail) at_ (at_ + Sys.len data) n ptrAt out
  = Some (at_ + Sys.len data, ptrAt + Sys.len data, true, out ++ data).
Proof.
  induction data as [|c data IH]; intros tail at_ n ptrAt out Hn Hb.
  - change (Sys.len []) with 0 in *. rewrite !Z.add_0_r, app_nil_r. cbn [app].
    apply copy_out_end; lia.
  - assert (Hc : Sys.len (c :: data) = 1 + Sys.len data)
      by (unfold Sys.len; cbn [length]; lia).
    pose proof (len_nonneg data). cbn [app copy_out].
    destruct (ptrAt <? n) eqn:L; [|apply Z.ltb_ge in L; lia].
    destruct (at_ =? at_ + Sys.len (c :: data)) eqn:Q; [apply Z.eqb_eq in Q; lia|].
    cbn [andb].
    replace (at_ + Sys.len (c :: data)) with (at_ + 1 + Sys.len data) by lia.
    rewrite IH by lia. rewrite <- app_assoc. cbn [app].
    replace (at_ + 1 + Sys.len data) with (at_ + Sys.len (c :: data)) by lia.
    replace (ptrAt + 1 + Sys.len data) with (ptrAt + Sys.len (c :: data)) by lia.
    reflexivity.
Qed.

(** ** [fread] on a stream in step with its file *)

(** The refill stage, from an empty buffer, with [ptrAt] bytes already
    delivered and no more than [bufsiz] outstanding. *)
Lemma fread_fill_reading (f : File) (before after out : list byte) (n ptrAt : Z) :
  reading f before [] after -> lastAct f = act_0 ->
  0 <= ptrAt < n -> n - ptrAt <= bufsiz ->
  exists g pending' after',
    fread_fill n ptrAt out f
    = Done (ptrAt + Sys.len (firstn (Z.to_nat (n - ptrAt)) after),
            out ++ firstn (Z.to_nat (n - ptrAt)) after) g /\
    firstn (Z.to_nat (n - ptrAt)) after ++ pending' ++ after' = after /\
    reading g (before ++ firstn (Z.to_nat (n - ptrAt)) after) pending' after' /\
    end_ g = (end_ f || (Sys.len (firstn (Z.to_nat (n - ptrAt)) after) <? n - ptrAt)) /\
    err g = err f.
Proof.
  intros (Hm & Hlen & Hc & Ho & Hr & Hs & Hact) A Hp Hn.
  rewrite A in Hact. destruct Hact as (_ & Hat & He).
  cbn [app] in Hc. rewrite app_nil_r in Ho.
  unfold fread_fill. rewrite A.
  rewrite to_size_t_small by (rewrite size_max_eq; unfold bufsiz in Hn; lia).
  destruct (n - ptrAt >? bufsiz) eqn:G;
    [rewrite Z.gtb_ltb in G; apply Z.ltb_lt in G; lia|].
  rewrite (read_in_full (fd f) before after bufsiz Hc Ho Hr) by (unfold bufsiz; lia).
  remember (firstn (Z.to_nat bufsiz) after) as got eqn:Egot.
  remember (firstn (Z.to_nat (n - ptrAt)) after) as d eqn:Edd.
  assert (Hgot : Sys.len got <= bufsiz).
  { rewrite Egot. pose proof (len_firstn_le bufsiz after). unfold bufsiz in *. lia. }
  pose proof (len_nonneg got) as Hg0.
  assert (Hd : d = firstn (Z.to_nat (n - ptrAt)) got).
  { rewrite Edd, Egot, firstn_firstn_Z by lia. reflexivity. }
  assert (Hsplit : got ++ skipn (Z.to_nat bufsiz) after = after)
    by (rewrite Egot; apply firstn_skipn).
  cbn [bufEnd set_bufEnd].
  rewrite to_size_t_small by (rewrite size_max_eq; unfold bufsiz in Hgot; lia).
  destruct (Sys.len got <? 0) eqn:N; [apply Z.ltb_lt in N; lia|].
  destruct (Sys.len got =? 0) eqn:Z0.
  - apply Z.eqb_eq in Z0. assert (Eg : got = []) by (destruct got; [reflexivity | discriminate]).
    assert (Ea : after = []).
    { rewrite Egot in Eg. destruct after; [reflexivity|].
      change (Z.to_nat bufsiz) with (S (Z.to_nat (bufsiz - 1))) in Eg. discriminate. }
    assert (Ed : d = []) by (rewrite Hd, Eg; apply firstn_nil).
    rewrite Ed, Eg. change (Sys.len []) with 0. rewrite !Z.add_0_r, !app_nil_r.
    eexists. exists [], [].
    split; [reflexivity|]. split; [symmetry; exact Ea|].
    split.
    + unfold reading. cbn. rewrite A. repeat split; auto.
      * rewrite Hc, Ea, !app_nil_r. reflexivity.
      * rewrite ?app_nil_r, ?Z.add_0_r. exact Ho.
    + split; [|reflexivity]. cbn.
      destruct (0 <? n - ptrAt) eqn:P; [|apply Z.ltb_ge in P; lia].
      symmetry. apply orb_true_r.
  - apply Z.eqb_neq in Z0.
    unfold fread_copy. cbn [buf bufAt bufEnd set_lastAct set_bufEnd set_buf set_fd].
    rewrite Hat. unfold fill.
    assert (Hfrom : from (got ++ skipn (length got) (buf f)) 0
                    = got ++ skipn (length got) (buf f)).
    { apply (from_app [] (got ++ skipn (length got) (buf f))). }
    rewrite Hfrom.
    assert (Hbuflen : Sys.len (got ++ skipn (length got) (buf f)) = bufsiz).
    { rewrite <- Hlen. apply (len_fill (buf f) got). lia. }
    destruct (Z_le_gt_dec (n - ptrAt) (Sys.len got)) as [Hle | Hgt].
    + pose proof (copy_out_enough got (skipn (length got) (buf f)) 0 n ptrAt out
                    ltac:(lia) Hle) as E.
      rewrite Z.add_0_l in E. rewrite E. rewrite <- Hd.
      assert (Hld : Sys.len d = n - ptrAt) by (rewrite Hd; apply len_firstn; lia).
      rewrite Hld. replace (ptrAt + (n - ptrAt)) with n by lia.
      eexists. exists (skipn (Z.to_nat (n - ptrAt)) got), (skipn (Z.to_nat bufsiz) after).
      split; [reflexivity|].
      assert (Hgd : d ++ skipn (Z.to_nat (n - ptrAt)) got = got)
        by (rewrite Hd; apply firstn_skipn).
      split; [rewrite app_assoc, Hgd; exact Hsplit|].
      split.
      * unfold reading. cbn. repeat split; auto.
        -- rewrite Hc, <- app_assoc. f_equal.
           rewrite app_assoc, Hgd. symmetry. exact Hsplit.
        -- rewrite Ho, <- app_assoc, Hgd, len_app. reflexivity.
        -- exists d, (skipn (length got) (buf f)).
           split; [rewrite app_assoc, Hgd; reflexivity|].
           split; [lia|]. rewrite <- Hgd at 1. rewrite len_app. lia.
           (* *)
      * split; [|reflexivity]. cbn.
        rewrite Z.ltb_irrefl, orb_false_r. reflexivity.
    + pose proof (copy_out_short got (skipn (length got) (buf f)) 0 n ptrAt out
                    ltac:(lia) ltac:(lia)) as E.
      rewrite Z.add_0_l in E. rewrite E.
      assert (Hga : got = after).
      { rewrite Egot. apply firstn_short.
        destruct (Z_le_gt_dec (Sys.len after) bufsiz); [assumption|].
        exfalso. rewrite Egot in Hgt.
        rewrite len_firstn in Hgt by (unfold bufsiz in *; lia). lia. }
      assert (Eda : d = after).
      { rewrite Edd. apply firstn_short. rewrite <- Hga. lia. }
      rewrite Eda, <- Hga.
      eexists. exists [], [].
      split; [reflexivity|]. split; [rewrite !app_nil_r; reflexivity|].
      split.
      * unfold reading. cbn. repeat split; auto.
        -- rewrite Hc, <- Hga, !app_nil_r. reflexivity.
        -- rewrite Ho, !app_nil_r, len_app, Hga. reflexivity.
        -- exists got, (skipn (length got) (buf f)).
           split; [reflexivity|]. split; [reflexivity|].
           change (Sys.len []) with 0. lia.
      * split; [|reflexivity]. cbn.
        destruct (Sys.len got <? n - ptrAt) eqn:P; [|apply Z.ltb_ge in P; lia].
        rewrite orb_true_r. reflexivity.
Qed.

Lemma flush_when_idle a (f : File) : lastAct f <> a -> flush_when a f = Done 0 f.
Proof. unfold flush_when. destruct (lastAct f), a; congruence. Qed.

(** [fread] hands out the next bytes of the file, in order, and stays in
    step with it. *)
Lemma fread_reading (f : File) (before pending after : list byte) (size nmemb : Z) :
  reading f before pending after ->
  0 < size * nmemb -> size * nmemb - Sys.len pending <= bufsiz ->
  exists g pending' after',
    fread size nmemb f
    = Done (Sys.len (firstn (Z.to_nat (size * nmemb)) (pending ++ after)),
            firstn (Z.to_nat (size * nmemb)) (pending ++ after)) g /\
    firstn (Z.to_nat (size * nmemb)) (pending ++ after) ++ pending' ++ after'
    = pending ++ after /\
    reading g (before ++ firstn (Z.to_nat (size * nmemb)) (pending ++ after))
      pending' after' /\
    end_ g = (end_ f
              || (Sys.len (firstn (Z.to_nat (size * nmemb)) (pending ++ after))
                  <? size * nmemb)) /\
    err g = err f.
Proof.
  intros R Hpos Hout. remember (size * nmemb) as n eqn:En.
  pose proof R as (Hm & Hlen & Hc & Ho & Hr & Hs & Hact).
  pose proof (len_nonneg pending) as Hp0. pose proof (len_nonneg before) as Hb0.
  assert (Hw : lastAct f <> act_w) by (destruct (lastAct f); [discriminate.. | contradiction]).
  assert (Hpend : Sys.len pending <= bufsiz).
  { destruct (lastAct f); try contradiction.
    - destruct Hact as (-> & _). unfold bufsiz. cbn. lia.
    - destruct Hact as (used & tail & Hb & _ & _). rewrite Hb, !len_app in Hlen.
      pose proof (len_nonneg used). pose proof (len_nonneg tail). lia. }
  assert (Hsz : Int.to_size_t n = n).
  { apply to_size_t_small. rewrite size_max_eq. unfold bufsiz in *. lia. }
  assert (Start : fread size nmemb f = fread_drain n f).
  { unfold fread. rewrite <- En, Hsz, (flush_when_idle act_w f Hw).
    cbn [bind Z.eqb negb]. destruct (fmode f); congruence. }
  rewrite Start. unfold fread_drain.
  destruct (lastAct f) eqn:A; try contradiction.
  - (* nothing buffered *)
    destruct Hact as (-> & Hat & He). cbn [app].
    destruct (fread_fill_reading f before after [] n 0 R A ltac:(lia) ltac:(cbn in Hout; lia))
      as (g & p' & a' & E & Hsp & Rg & Hend & Herr).
    rewrite Z.sub_0_r in *. rewrite Z.add_0_l in E. cbn [app] in E.
    exists g, p', a'. split; [exact E|]. split; [exact Hsp|]. split; [exact Rg|]. split; [exact Hend | exact Herr].
  - destruct Hact as (used & tail & Hb & Hat & He).
    pose proof (len_nonneg used) as Hu0.
    assert (Hused : Sys.len used + Sys.len pending <= bufsiz).
    { rewrite Hb, !len_app in Hlen. pose proof (len_nonneg tail). lia. }
    rewrite Hat, He.
    rewrite to_size_t_small by (rewrite size_max_eq; unfold bufsiz in *; lia).
    destruct (Sys.len used + n >? Sys.len used + Sys.len pending) eqn:G;
      rewrite Z.gtb_ltb in G.
    + (* the read runs past the buffered bytes *)
      apply Z.ltb_lt in G. rewrite Hb, from_app, drain_data. cbn [app].
      unfold fflush. cbn [lastAct bufAt bufEnd fd set_bufAt]. rewrite A, He, Z.sub_diag.
      change (Int.to_off_t (Int.to_size_t 0)) with 0.
      rewrite (lseek_cur (fd f) 0 Hs) by (rewrite Ho; pose proof (len_nonneg (before ++ pending)); lia).
      rewrite Z.add_0_r.
      destruct (Sys.offset (fd f) =? -1) eqn:Q;
        [apply Z.eqb_eq in Q; rewrite Ho in Q;
         pose proof (len_nonneg (before ++ pending)); lia|].
      cbn [bind Z.eqb negb].
      match goal with
      | |- context [fread_fill n (Sys.len pending) pending ?g0] =>
          assert (R0 : reading g0 (before ++ pending) [] after)
      end.
      { unfold reading. cbn. repeat split; auto.
        - rewrite Hc, <- app_assoc. reflexivity.
        - rewrite app_nil_r. exact Ho. }
      match goal with
      | |- context [fread_fill n (Sys.len pending) pending ?g0] =>
          destruct (fread_fill_reading g0 (before ++ pending) after pending n
                      (Sys.len pending) R0 eq_refl ltac:(lia) ltac:(lia))
            as (g & p' & a' & E & Hsp & Rg & Hend & Herr)
      end.
      rewrite E. rewrite (firstn_app_Z n pending after) by lia.
      rewrite len_app. exists g, p', a'.
      split; [reflexivity|]. split; [rewrite <- app_assoc, Hsp; reflexivity|].
      split; [rewrite app_assoc; exact Rg|]. split; [|exact Herr].
      rewrite Hend. cbn [end_ set_lastAct set_bufEnd set_bufAt set_fd]. f_equal.
      match goal with
      | |- (?a <? ?b) = (?c <? ?d) =>
          destruct (a <? b) eqn:L1; destruct (c <? d) eqn:L2; try reflexivity;
          [apply Z.ltb_lt in L1; apply Z.ltb_ge in L2 | apply Z.ltb_ge in L1; apply Z.ltb_lt in L2];
          lia
      end.
    + (* enough is buffered *)
      apply Z.ltb_ge in G. unfold fread_fill, fread_copy. rewrite A.
      cbn [buf bufAt bufEnd set_lastAct]. rewrite Hb, Hat, He, from_app.
      rewrite (copy_out_enough pending tail (Sys.len used) n 0 []) by lia.
      rewrite Z.sub_0_r. cbn [app].
      rewrite (firstn_app_in n pending after) by lia.
      assert (Hl : Sys.len (firstn (Z.to_nat n) pending) = n) by (apply len_firstn; lia).
      rewrite Hl.
      eexists. exists (skipn (Z.to_nat n) pending), after.
      split; [reflexivity|].
      assert (Hcut : firstn (Z.to_nat n) pending ++ skipn (Z.to_nat n) pending = pending)
        by apply firstn_skipn.
      assert (Hlp : Sys.len pending = n + Sys.len (skipn (Z.to_nat n) pending)).
      { rewrite <- Hl at 1. rewrite <- len_app, Hcut. reflexivity. }
      split; [rewrite app_assoc, Hcut; reflexivity|].
      split.
      * unfold reading. cbn. repeat split; auto.
        -- rewrite Hc, <- (app_assoc before).
           rewrite (app_assoc (firstn (Z.to_nat n) pending)), Hcut. reflexivity.
        -- rewrite Ho, <- (app_assoc before), Hcut. reflexivity.
        -- exists (used ++ firstn (Z.to_nat n) pending), tail.
           split; [rewrite <- (app_assoc used),
                     (app_assoc (firstn (Z.to_nat n) pending)), Hcut; exact Hb|].
           split; [rewrite len_app, Hl; reflexivity|].
           rewrite ?He, len_app, Hl. lia.
      * split; [|reflexivity]. cbn. rewrite Z.ltb_irrefl, orb_false_r. reflexivity.
Qed.

(** ** Characters *)

Lemma char_round_trip (c : byte) : Int.int_to_char (Int.char_to_int c) = c.
Proof. destruct c; reflexivity. Qed.

Lemma char_is_eof (c : byte) : (Int.char_to_int c =? eof) = Byte.eqb c xff.
Proof. destruct c; reflexivity. Qed.

Lemma char_is_newline (c : byte) :
  (Int.char_to_int c =? Int.char_to_int x0a) = Byte.eqb c x0a.
Proof. destruct c; reflexivity. Qed.

(** ** [fgetc] and [fgets] on a stream in step with its file *)

Lemma fgetc_reading (f : File) (before pending after : list byte) :
  reading f before pending after ->
  match pending ++ after with
  | c :: rest =>
      exists g pending' after',
        fgetc f = Done (Int.char_to_int c) g /\
        pending' ++ after' = rest /\
        reading g (before ++ [c]) pending' after' /\
        end_ g = end_ f /\ err g = err f
  | [] =>
      exists g,
        fgetc f = Done 0 g /\ reading g before [] [] /\
        end_ g = true /\ err g = err f
  end.
Proof.
  intros R. pose proof (len_nonneg pending) as Hp.
  destruct (fread_reading f before pending after 1 1 R)
    as (g & p' & a' & E & Hsp & Rg & Hend & Herr);
    [reflexivity | unfold bufsiz; lia |].
  change (Z.to_nat (1 * 1)) with 1%nat in *. change (1 * 1) with 1 in *.
  unfold fgetc. rewrite E. cbn [bind fst snd].
  destruct (pending ++ after) as [|c rest] eqn:T.
  - cbn [firstn] in *. change (Sys.len []) with 0 in *. cbn [Z.ltb Z.compare].
    cbn [app] in Hsp. apply app_eq_nil in Hsp. destruct Hsp as [-> ->].
    rewrite app_nil_r in Rg. exists g.
    split; [reflexivity|]. split; [exact Rg|]. split; [|exact Herr].
    rewrite Hend. apply orb_true_r.
  - cbn [firstn] in *. change (Sys.len [c]) with 1 in *. cbn [Z.ltb Z.compare temp_after].
    cbn [app] in Hsp. injection Hsp as Hsp.
    exists g, p', a'.
    split; [reflexivity|]. split; [exact Hsp|]. split; [exact Rg|]. split; [|exact Herr].
    rewrite Hend. apply orb_false_r.
Qed.

Lemma fgets_loop_reading (k : nat) : forall (f : File) before pending after s fo ov,
  reading f before pending after ->
  Forall (fun c => c <> xff) (scanned k (pending ++ after)) ->
  0 <= ov -> ov + Z.of_nat k <= Int.int_max ->
  exists g before' pending' after',
    fgets_loop k fo ov s f = Done (true, s ++ scanned k (pending ++ after)) g /\
    pending' ++ after' = unscanned k (pending ++ after) /\
    reading g before' pending' after' /\
    Sys.contents (fd g) = Sys.contents (fd f) /\ err g = err f.
Proof.
  induction k as [|k IH]; intros f before pending after s fo ov R Hff Hov Hmax.
  - cbn [fgets_loop scanned unscanned].
    exists f, before, pending, after.
    split; [rewrite app_nil_r; reflexivity|]. split; [reflexivity|].
    split; [exact R|]. split; reflexivity.
  - cbn [fgets_loop]. pose proof (fgetc_reading f before pending after R) as G.
    assert (Hincr : forall x, 0 <= x <= ov -> exists ov',
               (if x =? x then Int.incr ov else Some ov) = Some ov' /\ ov' = ov + 1).
    { intros x _. rewrite Z.eqb_refl. unfold Int.incr.
      destruct (ov <? Int.int_max) eqn:L; [eauto | apply Z.ltb_ge in L; lia]. }
    assert (Hstep : forall (g : File), exists ov',
               (if bufAt g =? bufEnd g then Int.incr ov else Some ov) = Some ov' /\
               0 <= ov' /\ ov' + Z.of_nat k <= Int.int_max).
    { intros g. destruct (bufAt g =? bufEnd g).
      - unfold Int.incr. destruct (ov <? Int.int_max) eqn:L;
          [exists (ov + 1); split; [reflexivity | lia] | apply Z.ltb_ge in L; lia].
      - exists ov. split; [reflexivity | lia]. }
    clear Hincr.
    destruct (pending ++ after) as [|c rest] eqn:T.
    + destruct G as (g & E & Rg & Hend & Herr). rewrite E. cbn [bind].
      destruct (Hstep g) as (ov' & -> & Hov' & Hmax').
      change (0 =? eof) with false. cbv iota.
      change (0 =? Int.char_to_int x0a) with false. cbv iota.
      change (Int.int_to_char 0) with x00.
      destruct (IH g before [] [] (s ++ [x00]) fo ov' Rg) as (h & b' & p' & a' & E' & Hun & Rh & Hc & He);
        [cbn [scanned] in Hff; inversion Hff; assumption | assumption | assumption |].
      cbn [app] in E', Hun. rewrite E'. cbn [scanned unscanned].
      exists h, b', p', a'. rewrite <- app_assoc. cbn [app].
      split; [reflexivity|]. split; [|split; [exact Rh|]].
      * rewrite Hun. destruct k; reflexivity.
      * destruct Rg as (_ & _ & Hcg & _). destruct R as (_ & _ & Hcf & _).
        split; [|congruence]. rewrite Hc, Hcg, Hcf.
        assert (Hpa : pending = [] /\ after = []) by (apply app_eq_nil; exact T).
        destruct Hpa as [-> ->]. reflexivity.
    + destruct G as (g & p1 & a1 & E & Hsp & Rg & Hend & Herr). rewrite E. cbn [bind].
      destruct (Hstep g) as (ov' & -> & Hov' & Hmax').
      assert (Hc : c <> xff).
      { cbn [scanned] in Hff. destruct (Byte.eqb c x0a); inversion Hff; assumption. }
      rewrite char_is_eof.
      destruct (Byte.eqb c xff) eqn:Q; [apply byte_dec_bl in Q; contradiction|].
      rewrite char_round_trip, char_is_newline. cbn [scanned unscanned].
      destruct (Byte.eqb c x0a) eqn:NL.
      * exists g, (before ++ [c]), p1, a1.
        split; [reflexivity|]. split; [exact Hsp|]. split; [exact Rg|].
        split; [|exact Herr].
        destruct Rg as (_ & _ & Hcg & _). destruct R as (_ & _ & Hcf & _).
        rewrite Hcg, Hcf, <- (app_assoc before), Hsp, T. reflexivity.
      * destruct (IH g (before ++ [c]) p1 a1 (s ++ [c]) fo ov' Rg)
          as (h & b' & p' & a' & E' & Hun & Rh & Hch & He);
          [rewrite Hsp; cbn [scanned] in Hff; rewrite NL in Hff; inversion Hff; assumption
          | assumption | assumption |].
        rewrite Hsp in E', Hun. rewrite E'.
        exists h, b', p', a'. rewrite <- app_assoc. cbn [app].
        split; [reflexivity|]. split; [exact Hun|]. split; [exact Rh|].
        split; [|congruence].
        destruct Rg as (_ & _ & Hcg & _). destruct R as (_ & _ & Hcf & _).
        rewrite Hch, Hcg, Hcf, <- (app_assoc before), Hsp, T. reflexivity.
Qed.

(** ** [fflush] and [fseek] on a stream in step with its file *)

Lemma to_off_t_back (x : Z) :
  0 <= x <= bufsiz -> Int.to_off_t (Int.to_size_t (- x)) = - x.
Proof.
  intros H. unfold Int.to_off_t, Int.to_size_t. rewrite Z.mod_mod by discriminate.
  unfold bufsiz in H. rewrite size_max_eq.
  destruct (Z.eq_dec x 0) as [-> | Hx]; [reflexivity|].
  assert (E : (- x) mod 18446744073709551616 = 18446744073709551616 - x).
  { symmetry. apply Z.mod_unique with (q := -1); lia. }
  rewrite E.
  destruct (18446744073709551616 - x <? 2 ^ 63) eqn:L; [apply Z.ltb_lt in L; lia | lia].
Qed.

Lemma fflush_reading (f : File) (before pending after : list byte) :
  reading f before pending after ->
  exists g,
    fflush f = Done 0 g /\ reading g before [] (pending ++ after) /\
    Sys.offset (fd g) = Sys.len before /\
    end_ g = end_ f /\ err g = err f /\ fmode g = fmode f /\
    Sys.on_write (fd g) = Sys.on_write (fd f).
Proof.
  intros (Hm & Hlen & Hc & Ho & Hr & Hs & Hact). unfold fflush.
  pose proof (len_nonneg before) as Hb0.
  destruct (lastAct f) eqn:A; try contradiction.
  - destruct Hact as (-> & Hat & He). eexists. split; [reflexivity|].
    rewrite app_nil_r in Ho. cbn [app] in *.
    split; [unfold reading; cbn; repeat split; auto; rewrite app_nil_r; exact Ho|].
    cbn. auto.
  - destruct Hact as (used & tail & Hb & Hat & He).
    assert (Hp : 0 <= Sys.len pending <= bufsiz).
    { rewrite Hb, !len_app in Hlen. pose proof (len_nonneg used).
      pose proof (len_nonneg tail). pose proof (len_nonneg pending). lia. }
    rewrite Hat, He.
    replace (Sys.len used - (Sys.len used + Sys.len pending)) with (- Sys.len pending) by lia.
    rewrite to_off_t_back by exact Hp.
    rewrite len_app in Ho.
    rewrite (lseek_cur (fd f) (- Sys.len pending) Hs) by lia.
    replace (Sys.offset (fd f) + - Sys.len pending) with (Sys.len before) by lia.
    destruct (Sys.len before =? -1) eqn:Q; [apply Z.eqb_eq in Q; lia|].
    eexists. split; [reflexivity|].
    split; [unfold reading; cbn; repeat split; auto; rewrite app_nil_r; reflexivity|].
    cbn. auto.
Qed.

Lemma fseek_reading (f : File) (before pending after : list byte) offset whence :
  reading f before pending after ->
  exists g,
    (if seek_target offset whence before (before ++ pending ++ after) <? 0
     then fseek offset whence f = Done (-1) g /\
          Sys.offset (fd g) = Sys.len before /\ end_ g = end_ f /\
          reading g before [] (pending ++ after)
     else fseek offset whence f = Done 0 g /\
          Sys.offset (fd g) = seek_target offset whence before (before ++ pending ++ after) /\
          end_ g = false /\
          (Sys.offset (fd g) <= Sys.len (before ++ pending ++ after) ->
           reading g (firstn (Z.to_nat (Sys.offset (fd g))) (before ++ pending ++ after)) []
                     (skipn (Z.to_nat (Sys.offset (fd g))) (before ++ pending ++ after)))) /\
    lastAct g = act_0 /\ bufAt g = 0 /\ err g = err f /\ fmode g = fmode f /\
    Sys.contents (fd g) = Sys.contents (fd f) /\
    Sys.on_write (fd g) = Sys.on_write (fd f).
Proof.
  intros R. pose proof R as (_ & _ & Hcf & _).
  destruct (fflush_reading f before pending after R)
    as (g & E & Rg & Hoff & Hend & Herr & Hfm & Hwr).
  pose proof Rg as (Hm & Hlen & Hc & Ho & Hr & Hs & Hact).
  pose proof (len_nonneg before) as Hb0.
  unfold fseek. rewrite E. cbn [bind].
  assert (A : lastAct g = act_0).
  { pose proof (fflush_done _ _ _ E) as (_ & _ & [(_ & _ & _ & H3) | (H0 & _)]);
      [exact H3 | congruence]. }
  rewrite A in Hact. destruct Hact as (_ & Hat & He).
  cbn [app] in Hc.
  remember (seek_target offset whence before (before ++ pending ++ after)) as target eqn:Et.
  assert (Hbase : (match match whence with
                         | seek_set => Sys.SEEK_SET
                         | seek_cur => Sys.SEEK_CUR
                         | seek_end => Sys.SEEK_END
                         end with
                   | Sys.SEEK_SET => 0
                   | Sys.SEEK_CUR => Sys.offset (fd g)
                   | Sys.SEEK_END => Sys.len (Sys.contents (fd g))
                   end) + offset = target).
  { rewrite Et. unfold seek_target. destruct whence; rewrite ?Hoff, ?Hc; lia. }
  unfold Sys.lseek. rewrite Hs. cbn [Sys.next]. rewrite Hbase.
  destruct (target <? 0) eqn:T.
  - cbn [Z.eqb]. eexists. split.
    + split; [reflexivity|]. cbn [fd set_fd Sys.offset].
      split; [exact Hoff|]. split; [exact Hend|].
      unfold reading. cbn. rewrite A. repeat split; auto.
    + cbn. rewrite Hc, Hcf. auto 10.
  - apply Z.ltb_ge in T.
    destruct (target =? -1) eqn:Q; [apply Z.eqb_eq in Q; lia|].
    eexists. split.
    + split; [reflexivity|]. cbn [fd set_fd set_end Sys.offset end_].
      split; [reflexivity|]. split; [reflexivity|]. intros Hin.
      unfold reading. cbn. rewrite A. repeat split; auto.
      * rewrite Hc. cbn [app]. symmetry. apply firstn_skipn.
      * rewrite app_nil_r. symmetry. apply len_firstn. lia.
    + cbn. rewrite Hc, Hcf. auto 10.
Qed.

(** ** The read past the buffer *)

(** With more than [bufsiz] bytes outstanding [fread] empties the buffer
    and reads into the destination; the [read] asks for all [n] bytes,
    whatever was drained before. *)
Lemma fread_direct_reading (f : File) (before pending after : list byte) (size nmemb : Z) :
  reading f before pending after ->
  bufsiz < size * nmemb - Sys.len pending -> size * nmemb < 2 ^ 62 ->
  exists g,
    fread size nmemb f
    = Done (Sys.len (pending ++ firstn (Z.to_nat (size * nmemb)) after),
            pending ++ firstn (Z.to_nat (size * nmemb)) after) g /\
    reading g (before ++ pending ++ firstn (Z.to_nat (size * nmemb)) after) []
      (skipn (Z.to_nat (size * nmemb)) after) /\
    lastAct g = act_0 /\
    end_ g = (end_ f
              || (Sys.len (firstn (Z.to_nat (size * nmemb)) after)
                  <? size * nmemb - Sys.len pending)) /\
    err g = err f.
Proof.
  intros R Hbig Hmax. remember (size * nmemb) as n eqn:En.
  change (2 ^ 62) with 4611686018427387904 in Hmax.
  pose proof R as (Hm & Hlen & Hc & Ho & Hr & Hs & Hact).
  pose proof (len_nonneg pending) as Hp0. pose proof (len_nonneg before) as Hb0.
  assert (Hw : lastAct f <> act_w) by (destruct (lastAct f); [discriminate.. | contradiction]).
  assert (Hsz : Int.to_size_t n = n).
  { apply to_size_t_small. rewrite size_max_eq. unfold bufsiz in *. lia. }
  assert (Start : fread size nmemb f = fread_drain n f).
  { unfold fread. rewrite <- En, Hsz, (flush_when_idle act_w f Hw).
    cbn [bind Z.eqb negb]. destruct (fmode f); congruence. }
  rewrite Start.
  remember (firstn (Z.to_nat n) after) as got eqn:Eg.
  assert (Hgot : 0 <= Sys.len got <= n).
  { rewrite Eg. pose proof (len_firstn_le n after).
    pose proof (len_nonneg (firstn (Z.to_nat n) after)). unfold bufsiz in *. lia. }
  assert (Hsplit : got ++ skipn (Z.to_nat n) after = after)
    by (rewrite Eg; apply firstn_skipn).
  (* the stage that reads, from an emptied buffer *)
  assert (Fill : forall (g0 : File) (out : list byte),
             reading g0 (before ++ pending) [] after -> lastAct g0 = act_0 ->
             Sys.len out = Sys.len pending ->
             exists g,
               fread_fill n (Sys.len out) out g0
               = Done (Sys.len (out ++ got), out ++ got) g /\
               reading g (before ++ pending ++ got) [] (skipn (Z.to_nat n) after) /\
               lastAct g = act_0 /\
               end_ g = (end_ g0 || (Sys.len got <? n - Sys.len pending)) /\
               err g = err g0).
  { intros g0 out (Hm0 & Hlen0 & Hc0 & Ho0 & Hr0 & Hs0 & Hact0) A0 Hout.
    rewrite A0 in Hact0. destruct Hact0 as (_ & Hat0 & He0).
    cbn [app] in Hc0. rewrite app_nil_r in Ho0.
    unfold fread_fill. rewrite A0, Hout.
    rewrite (to_size_t_small (n - Sys.len pending))
      by (rewrite size_max_eq; unfold bufsiz in *; lia).
    destruct (n - Sys.len pending >? bufsiz) eqn:G;
      [|rewrite Z.gtb_ltb in G; apply Z.ltb_ge in G; lia].
    rewrite (read_in_full (fd g0) (before ++ pending) after n Hc0 Ho0 Hr0)
      by (unfold bufsiz in *; lia).
    rewrite <- Eg. rewrite size_t_never_negative.
    rewrite (to_size_t_small (Sys.len got))
      by (rewrite size_max_eq; unfold bufsiz in *; lia).
    rewrite to_size_t_small by (rewrite size_max_eq; unfold bufsiz in *; lia).
    rewrite len_app, Hout, (Z.add_comm (Sys.len pending)).
    assert (Rg : forall h, fmode h = fmode g0 -> buf h = buf g0 -> bufAt h = 0 ->
               bufEnd h = 0 -> lastAct h = act_0 ->
               fd h = Sys.mkDescriptor (Sys.contents (fd g0))
                        (Sys.offset (fd g0) + Sys.len got) []
                        (Sys.on_write (fd g0)) (Sys.on_lseek (fd g0)) ->
               reading h (before ++ pending ++ got) [] (skipn (Z.to_nat n) after)).
    { intros h H1 H2 H3 H4 H5 H6. unfold reading. rewrite H1, H2, H5, H6. cbn.
      repeat split; auto.
      - rewrite Hc0, <- !app_assoc, Hsplit. reflexivity.
      - rewrite app_nil_r, Ho0, app_assoc, (len_app (before ++ pending)). reflexivity. }
    destruct (Sys.len got <? n - Sys.len pending) eqn:L.
    - eexists. split; [reflexivity|]. split; [apply Rg; reflexivity || assumption|].
      cbn. rewrite orb_true_r. auto.
    - eexists. split; [reflexivity|]. split; [apply Rg; reflexivity || assumption|].
      cbn. rewrite orb_false_r. auto. }
  unfold fread_drain. destruct (lastAct f) eqn:A; try contradiction.
  - destruct Hact as (-> & Hat & He). cbn [app] in *.
    assert (R0 : reading f (before ++ []) [] after) by (rewrite app_nil_r; exact R).
    destruct (Fill f [] R0 A eq_refl) as (g & E & Rg & Ag & Hend & Herr).
    change (Sys.len []) with 0 in E. cbn [app] in E. rewrite E.
    exists g. cbn [app] in Rg.
    change (Sys.len []) with 0 in Hend. auto.
  - destruct Hact as (used & tail & Hb & Hat & He).
    pose proof (len_nonneg used) as Hu0.
    assert (Hused : Sys.len used + Sys.len pending <= bufsiz).
    { rewrite Hb, !len_app in Hlen. pose proof (len_nonneg tail). lia. }
    rewrite Hat, He.
    rewrite to_size_t_small by (rewrite size_max_eq; unfold bufsiz in *; lia).
    destruct (Sys.len used + n >? Sys.len used + Sys.len pending) eqn:G;
      [|rewrite Z.gtb_ltb in G; apply Z.ltb_ge in G; unfold bufsiz in *; lia].
    rewrite Hb, from_app, drain_data. cbn [app].
    unfold fflush. cbn [lastAct bufAt bufEnd fd set_bufAt]. rewrite A, He, Z.sub_diag.
    change (Int.to_off_t (Int.to_size_t 0)) with 0.
    rewrite (lseek_cur (fd f) 0 Hs)
      by (rewrite Ho; pose proof (len_nonneg (before ++ pending)); lia).
    rewrite Z.add_0_r.
    destruct (Sys.offset (fd f) =? -1) eqn:Q;
      [apply Z.eqb_eq in Q; rewrite Ho in Q;
       pose proof (len_nonneg (before ++ pending)); lia|].
    cbn [bind Z.eqb negb].
    match goal with
    | |- context [fread_fill n (Sys.len pending) pending ?g0] =>
        assert (R0 : reading g0 (before ++ pending) [] after)
    end.
    { unfold reading. cbn. repeat split; auto.
      - rewrite Hc, <- app_assoc. reflexivity.
      - rewrite app_nil_r. exact Ho. }
    match goal with
    | |- context [fread_fill n (Sys.len pending) pending ?g0] =>
        destruct (Fill g0 pending R0 eq_refl eq_refl) as (g & E & Rg & Ag & Hend & Herr)
    end.
    rewrite E. exists g. auto.
Qed.

(** ** The write path on a stream whose descriptor behaves *)

Lemma write_in_full (d : Sys.Descriptor) (src : list byte) :
  Sys.on_write d = [] ->
  Sys.write d src =
  (Sys.len src,
   Sys.mkDescriptor (placed (Sys.contents d) (Sys.offset d) src)
     (Sys.offset d + Sys.len src) (Sys.on_read d) [] (Sys.on_lseek d)).
Proof.
  intros Hw. unfold Sys.write. rewrite Hw. cbn [Sys.next Sys.limit].
  rewrite (firstn_short (Sys.len src) src) by lia. reflexivity.
Qed.

Lemma placed_at (before after data : list byte) :
  placed (before ++ after) (Sys.len before) data
  = before ++ data ++ skipn (length data) after.
Proof.
  unfold placed. destruct data as [|c data]; [reflexivity|].
  unfold Sys.overwrite, Sys.len. rewrite Nat2Z.id.
  rewrite firstn_app, Nat.sub_diag, firstn_all. cbn [firstn].
  rewrite app_nil_r, length_app.
  replace (length before - (length before + length after))%nat with 0%nat by lia.
  cbn [repeat app]. rewrite skipn_app.
  rewrite skipn_all2 by lia.
  replace (length before + length (c :: data) - length before)%nat
    with (length (c :: data)) by lia.
  reflexivity.
Qed.

Lemma writing_pending_fits (f : File) (pending : list byte) :
  writing f pending -> Sys.len pending <= bufsiz.
Proof.
  intros (_ & Hlen & _ & _ & Hact). destruct (lastAct f); try contradiction.
  - destruct Hact as (-> & _). unfold bufsiz. cbn. lia.
  - destruct Hact as (tail & Hb & _). rewrite Hb, len_app in Hlen.
    pose proof (len_nonneg tail). lia.
Qed.

Lemma writing_pending_is_buffered (f : File) (pending : list byte) :
  writing f pending ->
  bufAt f = Sys.len pending /\
  exists tail, buf f = pending ++ tail.
Proof.
  intros (_ & _ & _ & _ & Hact). destruct (lastAct f); try contradiction.
  - destruct Hact as (-> & Hat & _). split; [exact Hat|]. exists (buf f). reflexivity.
  - destruct Hact as (tail & Hb & Hat). split; [exact Hat|]. exists tail. exact Hb.
Qed.

(** A payload that fits joins the pending bytes. *)
Lemma fwrite_writing (f : File) (pending ptr : list byte) :
  writing f pending -> Sys.len pending + Sys.len ptr <= bufsiz ->
  exists g,
    fwrite ptr 1 (Sys.len ptr) f = Done (Sys.len ptr) g /\
    writing g (pending ++ ptr) /\ lastAct g = act_w /\
    fd g = fd f /\ end_ g = end_ f /\ err g = err f /\ fmode g = fmode f.
Proof.
  intros W Hfit. pose proof W as (Hm & Hlen & Hw & Ho & Hact).
  destruct (writing_pending_is_buffered f pending W) as (Hat & tail & Hb).
  assert (Hr : lastAct f <> act_r) by (destruct (lastAct f); [discriminate | contradiction | discriminate]).
  assert (Htail : Sys.len ptr <= Sys.len tail).
  { rewrite Hb, len_app in Hlen. lia. }
  pose proof (len_nonneg ptr) as Hp0.
  assert (Hold : length (firstn (Z.to_nat (Sys.len ptr)) tail) = length ptr).
  { rewrite length_firstn. unfold Sys.len in *. lia. }
  assert (Hsplit : buf f = pending ++ firstn (Z.to_nat (Sys.len ptr)) tail
                             ++ skipn (Z.to_nat (Sys.len ptr)) tail).
  { rewrite firstn_skipn. exact Hb. }
  rewrite (fwrite_buffers f ptr pending _ _ Hm Hr Hsplit Hat Hold Hfit).
  eexists. split; [reflexivity|]. split.
  - unfold writing. cbn. repeat split; auto.
    + rewrite !len_app. rewrite Hb, len_app in Hlen.
      assert (Sys.len (skipn (Z.to_nat (Sys.len ptr)) tail) = Sys.len tail - Sys.len ptr).
      { unfold Sys.len in *. rewrite length_skipn. lia. }
      lia.
    + exists (skipn (Z.to_nat (Sys.len ptr)) tail).
      split; [rewrite <- app_assoc; reflexivity | rewrite len_app; reflexivity].
  - cbn. auto 10.
Qed.

(** [fflush] hands the pending bytes to the descriptor. *)
Lemma fflush_writing (f : File) (pending : list byte) :
  writing f pending ->
  exists g,
    fflush f = Done 0 g /\ writing g [] /\ lastAct g = act_0 /\
    Sys.contents (fd g) = placed (Sys.contents (fd f)) (Sys.offset (fd f)) pending /\
    Sys.offset (fd g) = Sys.offset (fd f) + Sys.len pending /\
    Sys.on_read (fd g) = Sys.on_read (fd f) /\
    Sys.on_lseek (fd g) = Sys.on_lseek (fd f) /\
    buf g = buf f /\
    end_ g = end_ f /\ err g = err f /\ fmode g = fmode f.
Proof.
  intros W. pose proof W as (Hm & Hlen & Hw & Ho & Hact).
  destruct (writing_pending_is_buffered f pending W) as (Hat & tail & Hb).
  pose proof (writing_pending_fits f pending W) as Hfit.
  pose proof (len_nonneg pending) as Hp0.
  unfold fflush. destruct (lastAct f) eqn:A; try contradiction.
  - destruct Hact as (-> & _). eexists. split; [reflexivity|].
    split; [unfold writing; cbn; repeat split; auto|].
    cbn. change (Sys.len []) with 0. rewrite Z.add_0_r. auto 12.
  - destruct (Sys.len (buf f) <? bufAt f) eqn:L; [apply Z.ltb_lt in L; lia|].
    assert (Hpend : firstn (Z.to_nat (bufAt f)) (buf f) = pending)
      by (rewrite Hat, Hb; apply firstn_len_app).
    rewrite Hpend.
    rewrite (write_in_full (fd f) pending Hw).
    destruct (Sys.len pending <? 0) eqn:N; [apply Z.ltb_lt in N; lia|].
    eexists. split; [reflexivity|].
    split; [unfold writing; cbn; repeat split; auto; lia|].
    cbn. auto 12.
Qed.

(** A payload larger than the buffer goes out behind the pending bytes,
    past the buffer. *)
Lemma fwrite_direct_writing (f : File) (pending ptr : list byte) :
  writing f pending -> bufsiz < Sys.len ptr -> Sys.len ptr < 2 ^ 62 ->
  exists g,
    fwrite ptr 1 (Sys.len ptr) f = Done (Sys.len ptr) g /\
    writing g [] /\ lastAct g = act_0 /\
    Sys.contents (fd g)
    = placed (placed (Sys.contents (fd f)) (Sys.offset (fd f)) pending)
        (Sys.offset (fd f) + Sys.len pending) ptr /\
    Sys.offset (fd g) = Sys.offset (fd f) + Sys.len pending + Sys.len ptr /\
    Sys.on_read (fd g) = Sys.on_read (fd f) /\
    Sys.on_lseek (fd g) = Sys.on_lseek (fd f) /\
    end_ g = end_ f /\ err g = err f /\ fmode g = fmode f /\ buf g = buf f.
Proof.
  intros W Hbig Hmax. pose proof W as (Hm & Hlen & Hw & Ho & Hact).
  destruct (writing_pending_is_buffered f pending W) as (Hat & tail & Hb).
  pose proof (writing_pending_fits f pending W) as Hfit.
  pose proof (len_nonneg pending) as Hp0.
  assert (Hr : lastAct f <> act_r) by (destruct (lastAct f); [discriminate | contradiction | discriminate]).
  change (2 ^ 62) with 4611686018427387904 in Hmax.
  assert (Hn : Int.to_size_t (1 * Sys.len ptr) = Sys.len ptr).
  { rewrite Z.mul_1_l. apply to_size_t_small. rewrite size_max_eq. unfold bufsiz in *. lia. }
  assert (Hpend : firstn (Z.to_nat (bufAt f)) (buf f) = pending)
    by (rewrite Hat, Hb; apply firstn_len_app).
  assert (Start : fwrite ptr 1 (Sys.len ptr) f = fwrite_put ptr (Sys.len ptr) f).
  { unfold fwrite. rewrite Hn, (flush_when_idle act_r f Hr). cbn [bind Z.eqb negb].
    destruct (fmode f); congruence. }
  rewrite Start. unfold fwrite_put. cbn [bufAt set_lastAct].
  rewrite to_size_t_small by (rewrite size_max_eq; unfold bufsiz in *; lia).
  destruct (bufAt f + Sys.len ptr >? bufsiz) eqn:G;
    [|rewrite Z.gtb_ltb in G; apply Z.ltb_ge in G; lia].
  unfold fflush. cbn [lastAct buf bufAt fd set_lastAct].
  destruct (Sys.len (buf f) <? bufAt f) eqn:L; [apply Z.ltb_lt in L; lia|].
  rewrite Hpend, (write_in_full (fd f) pending Hw).
  destruct (Sys.len pending <? 0) eqn:N; [apply Z.ltb_lt in N; lia|].
  cbn [bind Z.eqb negb].
  destruct (Sys.len ptr >? bufsiz) eqn:G2;
    [|rewrite Z.gtb_ltb in G2; apply Z.ltb_ge in G2; lia].
  rewrite Z.ltb_irrefl.
  rewrite (firstn_short (Sys.len ptr) ptr) by lia.
  cbn [fd set_fd set_lastAct set_bufEnd set_bufAt].
  rewrite write_in_full by reflexivity.
  rewrite to_size_t_small by (rewrite size_max_eq; unfold bufsiz in *; lia).
  destruct (Sys.len ptr <? 0) eqn:N2; [apply Z.ltb_lt in N2; lia|].
  unfold fwrite_copy.
  destruct (Sys.len ptr =? 0) eqn:Z0; [apply Z.eqb_eq in Z0; unfold bufsiz in *; lia|].
  eexists. split; [reflexivity|].
  split; [unfold writing; cbn; repeat split; auto; lia|].
  cbn. auto 12.
Qed.

(** ** [File::~File] *)

Lemma File_delete_writing (f : File) (pending : list byte) (cls : Z) :
  writing f pending -> cls <> -1 ->
  exists d,
    File_delete cls f = Closed d /\
    Sys.contents d = placed (Sys.contents (fd f)) (Sys.offset (fd f)) pending.
Proof.
  intros W Hc. destruct (fflush_writing f pending W) as (g & E & _ & _ & Hcon & _).
  unfold File_delete. rewrite E.
  destruct (cls =? -1) eqn:Q; [apply Z.eqb_eq in Q; contradiction|].
  exists (fd g). split; [reflexivity | exact Hcon].
Qed.

(** ** Characters out: [fputc], the [%s] loop, [fprintf] *)

Lemma fputc_writing (f : File) (pending : list byte) (c : Z) :
  writing f pending -> Sys.len pending + 1 <= bufsiz ->
  exists g,
    fputc c f = Done c g /\ writing g (pending ++ [Int.int_to_char c]) /\
    fd g = fd f /\ end_ g = end_ f /\ err g = err f.
Proof.
  intros W Hfit.
  destruct (fwrite_writing f pending [Int.int_to_char c] W Hfit)
    as (g & E & Wg & _ & Hfd & Hend & Herr & _).
  change (Sys.len [Int.int_to_char c]) with 1 in E.
  unfold fputc. rewrite E. cbn [bind Z.ltb Z.compare].
  exists g. auto.
Qed.

Lemma len_c_str_cons (c : byte) (s : list byte) :
  Byte.eqb c x00 = false -> Sys.len (c_str (c :: s)) = 1 + Sys.len (c_str s).
Proof. intros H. cbn [c_str]. rewrite H. unfold Sys.len. cbn [length]. lia. Qed.

Lemma put_chars_writing (s : list byte) : forall (f : File) pending n,
  writing f pending -> Forall seven_bit (c_str s) ->
  Sys.len pending + Sys.len (c_str s) <= bufsiz ->
  0 <= n -> n + Sys.len (c_str s) <= Int.int_max ->
  exists g,
    put_chars s n f = Done (Some (n + Sys.len (c_str s))) g /\
    writing g (pending ++ c_str s) /\
    fd g = fd f /\ end_ g = end_ f /\ err g = err f.
Proof.
  induction s as [|c s IH]; intros f pending n W H7 Hfit Hn Hmax.
  - cbn [put_chars c_str]. change (Sys.len []) with 0. rewrite Z.add_0_r, app_nil_r.
    exists f. auto.
  - cbn [put_chars]. destruct (Byte.eqb c x00) eqn:Z0.
    + cbn [c_str]. rewrite Z0. change (Sys.len []) with 0. rewrite Z.add_0_r, app_nil_r.
      exists f. auto.
    + rewrite (len_c_str_cons c s Z0) in *. pose proof (len_nonneg (c_str s)) as Hs0.
      cbn [c_str] in H7 |- *. rewrite Z0 in H7 |- *.
      inversion H7 as [|? ? Hc H7']; subst.
      destruct (fputc_writing f pending (Int.char_to_int c) W ltac:(lia))
        as (g & E & Wg & Hfd & Hend & Herr).
      rewrite E. cbn [bind]. rewrite char_round_trip in Wg.
      destruct (Int.char_to_int c <? 0) eqn:N; [apply Z.ltb_lt in N; unfold seven_bit in Hc; lia|].
      unfold Int.incr. destruct (n <? Int.int_max) eqn:L; [|apply Z.ltb_ge in L; lia].
      destruct (IH g (pending ++ [c]) (n + 1) Wg H7') as (h & E' & Wh & Hfd' & Hend' & Herr');
        [rewrite len_app; change (Sys.len [c]) with 1; lia | lia | lia |].
      rewrite E'. exists h. rewrite <- app_assoc in Wh. cbn [app] in Wh.
      replace (n + (1 + Sys.len (c_str s))) with (n + 1 + Sys.len (c_str s)) by lia.
      split; [reflexivity|]. split; [exact Wh|].
      split; [congruence|]. split; congruence.
Qed.

Lemma c_str_id (s : list byte) : Forall (fun c => c <> x00) s -> c_str s = s.
Proof.
  induction 1 as [|c s Hc _ IH]; [reflexivity|]. cbn [c_str].
  destruct (Byte.eqb c x00) eqn:Z0; [apply byte_dec_bl in Z0; contradiction|].
  rewrite IH. reflexivity.
Qed.

Lemma itoa_loop_no_nul (room : nat) : forall i str r s,
  itoa_loop room i str = Some (r, s) ->
  Forall (fun c => c <> x00) str -> Forall (fun c => c <> x00) s.
Proof.
  induction room as [|room IH]; intros i str r s E Hstr; cbn [itoa_loop] in E;
    destruct (0 <? i) eqn:L; try discriminate; try (inversion E; subst; assumption).
  apply Z.ltb_lt in L. apply IH in E; [exact E|]. constructor; [|exact Hstr].
  assert (Hm : 0 <= Z.rem i 10 <= 9).
  { rewrite Z.rem_mod_nonneg by lia. pose proof (Z.mod_pos_bound i 10). lia. }
  destruct (digit_char (Z.rem i 10) Hm) as [Dv _].
  intros Z0. rewrite Z0 in Dv. discriminate Dv.
Qed.

Lemma itoa_no_nul (i : Z) (s : list byte) :
  itoa i = Some s -> Forall (fun c => c <> x00) s.
Proof.
  unfold itoa. destruct (i =? 0).
  - intros E; inversion E; subst. constructor; [discriminate | constructor].
  - destruct (if i <? 0 then Int.neg i else Some i) as [j|]; [|discriminate].
    destruct (itoa_loop _ j []) as [[r str]|] eqn:L; [|discriminate].
    apply itoa_loop_no_nul in L; [|constructor].
    destruct (i <? 0).
    + destruct r; [discriminate|]. intros E; inversion E; subst.
      constructor; [discriminate | exact L].
    + intros E; inversion E; subst. exact L.
Qed.

Lemma option_map_some {A B} (h : A -> B) (o : option A) (b : B) :
  option_map h o = Some b -> exists a, o = Some a /\ b = h a.
Proof. destruct o; [intros E; inversion E; eauto | discriminate]. Qed.

Lemma fprintf_loop_writing (m : nat) : forall p (f : File) pending args n text,
  (length p <= m)%nat ->
  expand p args = Some text -> writing f pending ->
  Forall seven_bit text -> Sys.len pending + Sys.len text <= bufsiz ->
  0 <= n -> n + Sys.len text <= Int.int_max ->
  exists g,
    fprintf_loop p args n f = Done (n + Sys.len text) g /\
    writing g (pending ++ text) /\
    fd g = fd f /\ end_ g = end_ f /\ err g = err f.
Proof.
  assert (Stop : forall (f : File) pending n,
            writing f pending ->
            exists g, Done n f = Done (n + Sys.len (@nil byte)) g /\
                      writing g (pending ++ []) /\
                      fd g = fd f /\ end_ g = end_ f /\ err g = err f).
  { intros f pending n W. exists f. change (Sys.len []) with 0.
    rewrite Z.add_0_r, app_nil_r. auto. }
  assert (One : forall (f : File) pending n c (t : list byte),
            writing f pending -> seven_bit c ->
            Sys.len pending + (1 + Sys.len t) <= bufsiz ->
            0 <= n -> n + (1 + Sys.len t) <= Int.int_max ->
            exists g n',
              fputc (Int.char_to_int c) f = Done (Int.char_to_int c) g /\
              (Int.char_to_int c <? 0) = false /\
              Int.incr n = Some n' /\ n' = n + 1 /\
              writing g (pending ++ [c]) /\
              fd g = fd f /\ end_ g = end_ f /\ err g = err f).
  { intros f pending n c t W Hc Hfit Hn Hmax. pose proof (len_nonneg t).
    destruct (fputc_writing f pending (Int.char_to_int c) W ltac:(lia))
      as (g & E & Wg & Hfd & Hend & Herr).
    rewrite char_round_trip in Wg. exists g, (n + 1).
    split; [exact E|]. split; [apply Z.ltb_ge; exact Hc|].
    split; [unfold Int.incr; destruct (n <? Int.int_max) eqn:L;
            [reflexivity | apply Z.ltb_ge in L; lia]|].
    auto. }
  induction m as [|m IH]; intros p f pending args n text Hlen E W H7 Hfit Hn Hmax.
  - destruct p; [|cbn in Hlen; lia]. cbn [expand] in E. inversion E; subst.
    cbn [fprintf_loop]. apply Stop; exact W.
  - destruct p as [|c p1].
    { cbn [expand] in E. inversion E; subst. cbn [fprintf_loop]. apply Stop; exact W. }
    cbn [length] in Hlen. cbn [expand] in E. cbn [fprintf_loop].
    destruct (Byte.eqb c x00).
    { inversion E; subst. apply Stop; exact W. }
    destruct (negb (Byte.eqb c "%"%byte)).
    + apply option_map_some in E. destruct E as (t & Et & ->).
      assert (Hc : Sys.len (c :: t) = 1 + Sys.len t) by (unfold Sys.len; cbn [length]; lia).
      rewrite Hc in *. inversion H7 as [|? ? H7c H7t]; subst.
      destruct (One f pending n c t W H7c Hfit Hn Hmax)
        as (g & n' & Ef & Eneg & Einc & -> & Wg & Hfd & Hend & Herr).
      rewrite Ef. cbn [bind]. rewrite Eneg, Einc.
      destruct (IH p1 g (pending ++ [c]) args (n + 1) t ltac:(lia) Et Wg H7t)
        as (h & Eh & Wh & Hfd' & Hend' & Herr');
        [rewrite len_app; change (Sys.len [c]) with 1; lia | lia | lia |].
      rewrite Eh. exists h. rewrite <- app_assoc in Wh. cbn [app] in Wh.
      replace (n + (1 + Sys.len t)) with (n + 1 + Sys.len t) by lia.
      split; [reflexivity|]. split; [exact Wh|]. split; [congruence|]. split; congruence.
    + destruct p1 as [|c2 p2]; [discriminate|]. cbn [length] in Hlen.
      destruct (Byte.eqb c2 "s"%byte).
      * destruct args as [|[i|s] args']; try discriminate.
        apply option_map_some in E. destruct E as (t & Et & ->).
        rewrite len_app in *. apply Forall_app in H7. destruct H7 as [H7s H7t].
        pose proof (len_nonneg (c_str s)). pose proof (len_nonneg t).
        destruct (put_chars_writing s f pending n W H7s) as (g & Eg & Wg & Hfd & Hend & Herr);
          [lia | lia | lia |].
        rewrite Eg. cbn [bind].
        destruct (IH p2 g (pending ++ c_str s) args' (n + Sys.len (c_str s)) t
                    ltac:(lia) Et Wg H7t)
          as (h & Eh & Wh & Hfd' & Hend' & Herr');
          [rewrite len_app; lia | lia | lia |].
        rewrite Eh. exists h. rewrite <- app_assoc in Wh.
        replace (n + (Sys.len (c_str s) + Sys.len t))
          with (n + Sys.len (c_str s) + Sys.len t) by lia.
        split; [reflexivity|]. split; [exact Wh|]. split; [congruence|]. split; congruence.
      * destruct (Byte.eqb c2 "d"%byte).
        -- destruct args as [|[i|s] args']; try discriminate.
           destruct (itoa i) as [s|] eqn:Ei; [|discriminate].
           apply option_map_some in E. destruct E as (t & Et & ->).
           rewrite len_app in *. apply Forall_app in H7. destruct H7 as [H7s H7t].
           pose proof (c_str_id s (itoa_no_nul i s Ei)) as Hcs.
           pose proof (len_nonneg s). pose proof (len_nonneg t).
           destruct (put_chars_writing s f pending n W) as (g & Eg & Wg & Hfd & Hend & Herr);
             [rewrite Hcs; exact H7s | rewrite Hcs; lia | lia | rewrite Hcs; lia |].
           rewrite Hcs in Eg, Wg. rewrite Eg. cbn [bind].
           destruct (IH p2 g (pending ++ s) args' (n + Sys.len s) t ltac:(lia) Et Wg H7t)
             as (h & Eh & Wh & Hfd' & Hend' & Herr');
             [rewrite len_app; lia | lia | lia |].
           rewrite Eh. exists h. rewrite <- app_assoc in Wh.
           replace (n + (Sys.len s + Sys.len t)) with (n + Sys.len s + Sys.len t) by lia.
           split; [reflexivity|]. split; [exact Wh|]. split; [congruence|]. split; congruence.
        -- apply option_map_some in E. destruct E as (t & Et & ->).
           assert (Hc : Sys.len (c2 :: t) = 1 + Sys.len t)
             by (unfold Sys.len; cbn [length]; lia).
           rewrite Hc in *. inversion H7 as [|? ? H7c H7t]; subst.
           destruct (One f pending n c2 t W H7c Hfit Hn Hmax)
             as (g & n' & Ef & Eneg & Einc & -> & Wg & Hfd & Hend & Herr).
           rewrite Ef. cbn [bind]. rewrite Eneg, Einc.
           destruct (IH p2 g (pending ++ [c2]) args (n + 1) t ltac:(lia) Et Wg H7t)
             as (h & Eh & Wh & Hfd' & Hend' & Herr');
             [rewrite len_app; change (Sys.len [c2]) with 1; lia | lia | lia |].
           rewrite Eh. exists h. rewrite <- app_assoc in Wh. cbn [app] in Wh.
           replace (n + (1 + Sys.len t)) with (n + 1 + Sys.len t) by lia.
           split; [reflexivity|]. split; [exact Wh|]. split; [congruence|]. split; congruence.
Qed.

(** ** Changing direction *)


Lemma fwrite_after_flush (f g : File) (ptr : list byte) (size nmemb : Z) :
  lastAct f = act_r -> fflush f = Done 0 g ->
  fmode g = fmode f -> fmode f <> mode_r -> lastAct g = act_0 ->
  fwrite ptr size nmemb f = fwrite ptr size nmemb g.
Proof.
  intros A E Hm Hr Ag. unfold fwrite. rewrite Hm.
  rewrite (flush_when_idle act_r g) by congruence.
  assert (F : flush_when act_r f = Done 0 g) by (unfold flush_when; rewrite A; exact E).
  rewrite F. destruct (fmode f); congruence.
Qed.

Lemma fwrite_by_product (f : File) (ptr : list byte) (size nmemb n : Z) :
  size * nmemb = n -> fwrite ptr size nmemb f = fwrite ptr 1 n f.
Proof. intros <-. unfold fwrite. rewrite Z.mul_1_l. reflexivity. Qed.

(** A stream that has only read can take writes once its read-ahead is
    given back. *)
Lemma reading_then_writing (f : File) (before pending after : list byte) :
  reading f before pending after ->
  fmode f <> mode_r -> Sys.on_write (fd f) = [] ->
  exists g,
    (forall ptr size nmemb, fwrite ptr size nmemb f = fwrite ptr size nmemb g) /\
    writing g [] /\
    Sys.contents (fd g) = before ++ pending ++ after /\
    Sys.offset (fd g) = Sys.len before /\
    Sys.on_read (fd g) = [] /\ Sys.on_lseek (fd g) = [] /\
    fmode g = fmode f /\ end_ g = end_ f /\ err g = err f.
Proof.
  intros R Hm Hw. pose proof R as (_ & Hlen & Hc & Ho & Hr & Hs & Hact).
  pose proof (len_nonneg before) as Hb0.
  destruct (lastAct f) eqn:A; try contradiction.
  - destruct Hact as (-> & Hat & He). rewrite app_nil_r in Ho.
    exists f. split; [reflexivity|].
    split; [unfold writing; rewrite A; repeat split; auto; rewrite Ho; exact Hb0|].
    auto 10.
  - destruct (fflush_reading f before pending after R)
      as (g & E & Rg & Hoff & Hend & Herr & Hfm & Hwr).
    pose proof Rg as (_ & Hlg & Hcg & _ & Hrg & Hsg & Hag).
    assert (Ag : lastAct g = act_0).
    { pose proof (fflush_done _ _ _ E) as (_ & _ & [(_ & _ & _ & H3) | (H0 & _)]);
        [exact H3 | congruence]. }
    rewrite Ag in Hag. destruct Hag as (_ & Hatg & _). cbn [app] in Hcg.
    exists g. split; [intros; apply fwrite_after_flush; auto|].
    assert (Heg : bufEnd g = 0).
    { pose proof (fflush_done _ _ _ E) as (_ & _ & [(_ & _ & H2 & _) | (H0 & _)]);
        [exact H2 | congruence]. }
    split; [unfold writing; rewrite Ag; repeat split; auto; try congruence;
            rewrite Hoff; exact Hb0|].
    auto 10.
Qed.


(** ** Consecutive writes land side by side *)

Lemma placed_app (file p q : list byte) (o : Z) :
  0 <= o -> placed (placed file o p) (o + Sys.len p) q = placed file o (p ++ q).
Proof.
  intros Ho. destruct p as [|b p].
  { change (Sys.len []) with 0. rewrite Z.add_0_r. reflexivity. }
  destruct q as [|b0 q]; [rewrite app_nil_r; reflexivity|].
  remember (b :: p) as P eqn:EP. remember (b0 :: q) as Q eqn:EQ.
  assert (E1 : placed file o P = Sys.overwrite file o P) by (subst P; reflexivity).
  assert (E2 : forall F a, placed F a Q = Sys.overwrite F a Q) by (subst Q; reflexivity).
  assert (E3 : placed file o (P ++ Q) = Sys.overwrite file o (P ++ Q))
    by (subst P; reflexivity).
  rewrite E1, E2, E3. clear E1 E2 E3 EP EQ b p b0 q.
  unfold Sys.overwrite, Sys.len.
  replace (Z.to_nat (o + Z.of_nat (length P))) with (Z.to_nat o + length P)%nat by lia.
  set (n := Z.to_nat o).
  set (H := firstn n file ++ repeat x00 (n - length file)).
  assert (HL : length H = n).
  { unfold H. rewrite length_app, length_firstn, repeat_length. lia. }
  set (S := skipn (n + length P) file).
  replace (firstn n file ++ repeat x00 (n - length file) ++ P ++ S)
    with ((H ++ P) ++ S) by (unfold H; rewrite <- !app_assoc; reflexivity).
  assert (HP : length (H ++ P) = (n + length P)%nat) by (rewrite length_app; lia).
  rewrite <- HP at 1. rewrite firstn_app, Nat.sub_diag, firstn_all. cbn [firstn].
  rewrite app_nil_r.
  replace (n + length P - length ((H ++ P) ++ S))%nat with 0%nat
    by (rewrite length_app; lia).
  cbn [repeat app].
  rewrite skipn_app, HP.
  rewrite (skipn_all2 (H ++ P)) by lia.
  replace (n + length P + length Q - (n + length P))%nat with (length Q) by lia.
  unfold S. rewrite skipn_skipn, length_app.
  replace (length Q + (n + length P))%nat with (n + (length P + length Q))%nat by lia.
  unfold H. rewrite <- !app_assoc. reflexivity.
Qed.

(** ** A payload followed by other bytes *)

Lemma copy_in_more (src extra : list byte) : forall b at_ bw n,
  n - bw = Sys.len src ->
  copy_in (src ++ extra) b at_ bw n = copy_in src b at_ bw n.
Proof.
  induction src as [|c src IH]; intros b at_ bw n Hn.
  - change (Sys.len []) with 0 in Hn. cbn [app].
    destruct extra; cbn [copy_in];
      (destruct (bw <? n) eqn:L; [apply Z.ltb_lt in L; lia | reflexivity]).
  - assert (Hc : Sys.len (c :: src) = 1 + Sys.len src)
      by (unfold Sys.len; cbn [length]; lia).
    cbn [app copy_in]. destruct (bw <? n); [|reflexivity].
    destruct (store b at_ c); [|reflexivity]. apply IH. lia.
Qed.

Lemma fwrite_more (f : File) (src extra : list byte) :
  Sys.len src <= bufsiz ->
  fwrite (src ++ extra) 1 (Sys.len src) f = fwrite src 1 (Sys.len src) f.
Proof.
  intros Hfit. pose proof (len_nonneg src) as H0.
  assert (C : forall g, fwrite_copy (src ++ extra) (Sys.len src) 0 g
                        = fwrite_copy src (Sys.len src) 0 g).
  { intros g. unfold fwrite_copy. cbn [Z.eqb]. rewrite copy_in_more by lia. reflexivity. }
  assert (P : forall g, fwrite_put (src ++ extra) (Sys.len src) g
                        = fwrite_put src (Sys.len src) g).
  { intros g. unfold fwrite_put.
    destruct (Sys.len src >? bufsiz) eqn:G;
      [rewrite Z.gtb_ltb in G; apply Z.ltb_lt in G; lia|].
    destruct (Int.to_size_t _ >? bufsiz); [|apply C].
    destruct (fflush _) as [r h| |]; cbn [bind]; try reflexivity.
    destruct (negb (r =? 0)); [reflexivity | apply C]. }
  unfold fwrite.
  rewrite Z.mul_1_l.
  rewrite (to_size_t_small (Sys.len src))
    by (rewrite size_max_eq; unfold bufsiz in Hfit; lia).
  destruct (fmode f); try reflexivity;
    (destruct (flush_when act_r f) as [r h| |]; cbn [bind]; try reflexivity;
     destruct (negb (r =? 0)); [reflexivity | apply P]).
Qed.

Lemma strlen_c_str (s : list byte) : strlen s = Sys.len (c_str s).
Proof.
  induction s as [|c s IH]; [reflexivity|].
  cbn [strlen c_str]. destruct (Byte.eqb c x00); [reflexivity|].
  rewrite IH. unfold Sys.len. cbn [length]. lia.
Qed.

Lemma c_str_prefix (s : list byte) : exists extra, s = c_str s ++ extra.
Proof.
  induction s as [|c s (extra & IH)]; [exists []; reflexivity|].
  cbn [c_str]. destruct (Byte.eqb c x00).
  - exists (c :: s). reflexivity.
  - exists extra. cbn [app]. rewrite <- IH. reflexivity.
Qed.

(** [fputs] buffers the string in front of the terminator. *)
Lemma fputs_writing (f : File) (pending str : list byte) :
  writing f pending -> Sys.len pending + Sys.len (c_str str) <= bufsiz ->
  exists g,
    fputs str f = Done (Sys.len (c_str str)) g /\
    writing g (pending ++ c_str str) /\ lastAct g = act_w /\
    fd g = fd f /\ end_ g = end_ f /\ err g = err f /\ fmode g = fmode f.
Proof.
  intros W Hfit. pose proof W as (Hm & _).
  pose proof (len_nonneg pending) as Hp. pose proof (len_nonneg (c_str str)) as Hs.
  destruct (fwrite_writing f pending (c_str str) W Hfit) as (g & E & Wg & Rest).
  destruct (c_str_prefix str) as (extra & Hx).
  assert (E' : fwrite str 1 (strlen str) f = Done (Sys.len (c_str str)) g).
  { rewrite strlen_c_str. rewrite Hx at 1. rewrite fwrite_more by lia. exact E. }
  exists g. split; [|split; [exact Wg | exact Rest]].
  unfold fputs. rewrite E'. cbn [bind].
  assert (T : Int.to_int (Sys.len (c_str str)) = Sys.len (c_str str)).
  { unfold Int.to_int. unfold bufsiz in Hfit.
    rewrite Z.mod_small by lia.
    destruct (_ <? 2 ^ 31) eqn:L; [reflexivity | apply Z.ltb_ge in L; lia]. }
  rewrite T. destruct (fmode f); [congruence | reflexivity | reflexivity].
Qed.

(** ** The count [fwrite] returns *)

Lemma copy_in_count (src : list byte) : forall b at_ bw n b' at' bw',
  copy_in src b at_ bw n = Some (b', at', bw') -> bw <= bw'.
Proof.
  induction src as [|c src IH]; intros b at_ bw n b' at' bw'; cbn [copy_in];
    destruct (bw <? n); try discriminate; try (intros E; inversion E; lia).
  destruct (store b at_ c); [|discriminate]. intros E. apply IH in E. lia.
Qed.

Lemma fwrite_copy_count ptr n bw (f : File) r g :
  0 <= bw -> fwrite_copy ptr n bw f = Done r g -> 0 <= r.
Proof.
  intros H. unfold fwrite_copy. destruct (bw =? 0) eqn:Z0.
  - destruct (copy_in ptr (buf f) (bufAt f) bw n) as [[[b at'] w]|] eqn:C; [|discriminate].
    intros E. inversion E; subst. apply copy_in_count in C. lia.
  - intros E. inversion E; subst. exact H.
Qed.

Lemma fwrite_put_count ptr n (f : File) r g :
  fwrite_put ptr n f = Done r g -> 0 <= r.
Proof.
  pose proof (to_size_t_range eof) as He.
  unfold fwrite_put. destruct (Int.to_size_t _ >? bufsiz).
  - destruct (fflush _) as [r0 h| |]; cbn [bind]; try discriminate.
    destruct (negb (r0 =? 0)); [intros E; inversion E; lia|].
    destruct (n >? bufsiz); [|apply fwrite_copy_count; lia].
    destruct (Sys.len ptr <? n); [discriminate|].
    destruct (Sys.write _ _) as [r1 d].
    rewrite size_t_never_negative.
    apply fwrite_copy_count. apply to_size_t_range.
  - apply fwrite_copy_count. lia.
Qed.

Lemma fwrite_count ptr size nmemb (f : File) r g :
  fwrite ptr size nmemb f = Done r g -> 0 <= r.
Proof.
  pose proof (to_size_t_range eof) as He.
  unfold fwrite. destruct (fmode f); try (intros E; inversion E; lia);
    (destruct (flush_when act_r f) as [r0 h| |]; cbn [bind]; try discriminate;
     destruct (negb (r0 =? 0)); [intros E; inversion E; lia | apply fwrite_put_count]).
Qed.

(** ** Streams just opened *)

Lemma stream_reading (m : Mode) (file : list byte) :
  m <> mode_w -> reading (stream m (Sys.fresh file)) [] [] file.
Proof.
  intros Hm. unfold reading, stream.
  cbn [fmode buf fd lastAct bufAt bufEnd Sys.fresh Sys.contents Sys.offset
       Sys.on_read Sys.on_lseek app].
  split; [exact Hm|]. split; [exact heap_len|]. repeat split.
Qed.

Lemma stream_writing (m : Mode) (file : list byte) :
  m <> mode_r -> writing (stream m (Sys.fresh file)) [].
Proof.
  intros Hm. unfold writing, stream.
  cbn [fmode buf fd lastAct bufAt bufEnd Sys.fresh Sys.offset Sys.on_write].
  split; [exact Hm|]. split; [exact heap_len|]. repeat split. lia.
Qed.

(** ** [fseek] with writes pending *)

Lemma fflush_idle (g : File) :
  lastAct g = act_0 -> bufAt g = 0 -> bufEnd g = 0 -> fflush g = Done 0 g.
Proof.
  intros A Hat He. unfold fflush. rewrite A.
  destruct g; cbn in *. subst. reflexivity.
Qed.

Lemma fseek_after_flush (f g : File) r offset whence :
  fflush f = Done r g -> lastAct g = act_0 -> bufAt g = 0 -> bufEnd g = 0 ->
  fseek offset whence f = fseek offset whence g.
Proof.
  intros E A Hat He. unfold fseek. rewrite E, (fflush_idle g A Hat He). reflexivity.
Qed.

(** [fseek] first hands the pending bytes to the descriptor; positions
    are counted in the file as it is then. *)
Lemma fseek_writing (f : File) (pending before after : list byte) offset whence :
  writing f pending ->
  Sys.contents (fd f) = before ++ after -> Sys.offset (fd f) = Sys.len before ->
  Sys.on_lseek (fd f) = [] ->
  0 <= seek_target offset whence (before ++ pending)
         (before ++ pending ++ skipn (length pending) after) ->
  exists g,
    fseek offset whence f = Done 0 g /\
    writing g [] /\ lastAct g = act_0 /\
    Sys.contents (fd g) = before ++ pending ++ skipn (length pending) after /\
    Sys.offset (fd g)
    = seek_target offset whence (before ++ pending)
        (before ++ pending ++ skipn (length pending) after) /\
    Sys.on_read (fd g) = Sys.on_read (fd f) /\ Sys.on_lseek (fd g) = [] /\
    end_ g = false /\ err g = err f /\ fmode g = fmode f.
Proof.
  intros W Hc Ho Hs Ht.
  destruct (fflush_writing f pending W)
    as (g & E & Wg & Ag & Hcg & Hog & Hrg & Hsg & Hbg & Hend & Herr & Hfm).
  pose proof Wg as (Hmg & Hlg & Hwg & _ & Hag). rewrite Ag in Hag.
  destruct Hag as (_ & Hatg & Heg).
  rewrite (fseek_after_flush f g 0 offset whence E Ag Hatg Heg).
  rewrite Hc, Ho, placed_at in Hcg. rewrite Ho, <- len_app in Hog.
  remember (seek_target offset whence (before ++ pending)
              (before ++ pending ++ skipn (length pending) after)) as target eqn:Et.
  unfold fseek. rewrite (fflush_idle g Ag Hatg Heg). cbn [bind].
  assert (Hbase : (match match whence with
                         | seek_set => Sys.SEEK_SET
                         | seek_cur => Sys.SEEK_CUR
                         | seek_end => Sys.SEEK_END
                         end with
                   | Sys.SEEK_SET => 0
                   | Sys.SEEK_CUR => Sys.offset (fd g)
                   | Sys.SEEK_END => Sys.len (Sys.contents (fd g))
                   end) + offset = target).
  { rewrite Et. unfold seek_target. destruct whence; rewrite ?Hog, ?Hcg; lia. }
  unfold Sys.lseek. rewrite Hsg, Hs. cbn [Sys.next]. rewrite Hbase.
  destruct (target <? 0) eqn:T; [apply Z.ltb_lt in T; lia|].
  destruct (target =? -1) eqn:Q; [apply Z.eqb_eq in Q; lia|].
  eexists. split; [reflexivity|].
  split; [unfold writing; cbn; rewrite Ag; repeat split; auto|].
  cbn. rewrite Hcg. split; [exact Ag|]. split; [reflexivity|]. split; [reflexivity|].
  auto 10.
Qed.

(** After such a seek into the file the stream is in step for reading. *)
Lemma fseek_writing_reading (g : File) (whole : list byte) :
  writing g [] -> lastAct g = act_0 -> fmode g <> mode_w ->
  Sys.contents (fd g) = whole -> 0 <= Sys.offset (fd g) <= Sys.len whole ->
  Sys.on_read (fd g) = [] -> Sys.on_lseek (fd g) = [] ->
  reading g (firstn (Z.to_nat (Sys.offset (fd g))) whole) []
            (skipn (Z.to_nat (Sys.offset (fd g))) whole).
Proof.
  intros (_ & Hlen & _ & _ & Hact) A Hm Hc Ho Hr Hs. rewrite A in Hact.
  destruct Hact as (_ & Hat & He).
  unfold reading. rewrite A. cbn [app]. repeat split; auto.
  - rewrite Hc. symmetry. apply firstn_skipn.
  - rewrite app_nil_r. symmetry. apply len_firstn. exact Ho.
Qed.

(** ** What [fputc] returns *)

Lemma fputc_result (c : Z) (f : File) r g :
  fputc c f = Done r g ->
  r = c /\ exists n, fwrite [Int.int_to_char c] 1 1 f = Done n g.
Proof.
  unfold fputc.
  destruct (fwrite [Int.int_to_char c] 1 1 f) as [n h| |] eqn:E; cbn [bind];
    try discriminate.
  apply fwrite_count in E as N.
  destruct (n <? 0) eqn:L; [apply Z.ltb_lt in L; lia|].
  intros D. inversion D; subst. split; [reflexivity | eauto].
Qed.

(** ** Output leaves [end] alone *)

Lemma fflush_keeps_end (f : File) : leaves (fun g => end_ g = end_ f) (fflush f).
Proof.
  unfold fflush. destruct (lastAct f); cbn; try reflexivity.
  - destruct (Sys.lseek _ _ _) as [r d]. destruct (r =? -1); reflexivity.
  - destruct (_ <? bufAt f); [exact I|].
    destruct (Sys.write _ _) as [r d]. destruct (r <? 0); reflexivity.
Qed.

Lemma fwrite_copy_keeps_end ptr n bw (f : File) :
  leaves (fun g => end_ g = end_ f) (fwrite_copy ptr n bw f).
Proof.
  unfold fwrite_copy. destruct (bw =? 0); [|reflexivity].
  destruct (copy_in _ _ _ _ _) as [[[b at'] w]|]; [reflexivity | exact I].
Qed.

Lemma fwrite_put_keeps_end ptr n (f : File) :
  leaves (fun g => end_ g = end_ f) (fwrite_put ptr n f).
Proof.
  unfold fwrite_put.
  assert (C : forall bw h, end_ h = end_ f ->
            leaves (fun g => end_ g = end_ f) (fwrite_copy ptr n bw h)).
  { intros bw h <-. apply fwrite_copy_keeps_end. }
  destruct (Int.to_size_t _ >? bufsiz); [|apply C; reflexivity].
  apply leaves_bind; [apply (fflush_keeps_end (set_lastAct act_w f))|].
  intros r h _ Hh. cbn [end_ set_lastAct] in Hh.
  destruct (negb (r =? 0)); [exact Hh|].
  destruct (n >? bufsiz); [|apply C; exact Hh].
  destruct (Sys.len ptr <? n); [exact I|].
  destruct (Sys.write _ _) as [r1 d].
  destruct (Int.to_size_t r1 <? 0); [exact Hh | apply C; exact Hh].
Qed.

(** * What the stream does for its user

    The statements below are about streams in step with their file
    ([reading], [writing]): the descriptor behaves, and the buffer holds
    what the operations so far have left in it. *)

Lemma len_firstn_min {A} (n : Z) (l : list A) :
  0 <= n -> Sys.len (firstn (Z.to_nat n) l) = Z.min n (Sys.len l).
Proof. intros H. unfold Sys.len. rewrite length_firstn. lia. Qed.

Lemma rest_is_skipn {A} (n : nat) (l rest : list A) :
  firstn n l ++ rest = l -> rest = skipn n l.
Proof.
  intros E. rewrite <- (firstn_skipn n l) in E at 2.
  now apply app_inv_head in E.
Qed.

Lemma min_short (n l : Z) : (Z.min n l <? n) = (l <? n).
Proof.
  destruct (l <? n) eqn:L.
  - apply Z.ltb_lt in L. apply Z.ltb_lt. lia.
  - apply Z.ltb_ge in L. apply Z.ltb_ge. lia.
Qed.

(** ** Reading *)

(** X1.  [fread] with at most [bufsiz] bytes outstanding beyond the
    buffered ones: it stores the next [size * nmemb] bytes of the file,
    or all that is left of it, returns their number, and leaves the
    stream in step behind them.  [end] is set exactly when the file ran
    out before the request was met; [err] is untouched. *)
Theorem fread_delivers_next_bytes (f : File) (before pending after : list byte)
    (size nmemb : Z) :
  reading f before pending after ->
  0 < size * nmemb -> size * nmemb - Sys.len pending <= bufsiz ->
  exists g pending' after',
    fread size nmemb f
    = Done (Z.min (size * nmemb) (Sys.len (pending ++ after)),
            firstn (Z.to_nat (size * nmemb)) (pending ++ after)) g /\
    pending' ++ after' = skipn (Z.to_nat (size * nmemb)) (pending ++ after) /\
    reading g (before ++ firstn (Z.to_nat (size * nmemb)) (pending ++ after))
      pending' after' /\
    end_ g = (end_ f || (Sys.len (pending ++ after) <? size * nmemb)) /\
    err g = err f.
Proof.
  intros R Hn Hfit.
  destruct (fread_reading f before pending after size nmemb R Hn Hfit)
    as (g & pending' & after' & E & Hsplit & Rg & Hend & Herr).
  exists g, pending', after'.
  rewrite len_firstn_min in E, Hend by lia.
  split; [exact E|]. split; [apply rest_is_skipn; exact Hsplit|].
  rewrite min_short in Hend. auto.
Qed.

Lemma fread_delivers_next_bytes_witness :
  reading (stream mode_r (Sys.fresh (bytes "abcdef"))) [] [] (bytes "abcdef") /\
  0 < 1 * 4 /\ 1 * 4 - Sys.len (@nil byte) <= bufsiz /\
  exists g, fread 1 4 (stream mode_r (Sys.fresh (bytes "abcdef")))
            = Done (4, bytes "abcd") g /\ end_ g = false.
Proof.
  assert (R : reading (stream mode_r (Sys.fresh (bytes "abcdef"))) [] []
                (bytes "abcdef")) by (apply stream_reading; discriminate).
  assert (Hn : 0 < 1 * 4) by lia.
  assert (Hfit : 1 * 4 - Sys.len (@nil byte) <= bufsiz) by (vm_compute; discriminate).
  split; [exact R | split; [exact Hn | split; [exact Hfit|]]].
  destruct (fread_delivers_next_bytes _ _ _ _ 1 4 R Hn Hfit)
    as (g & _ & _ & E & _ & _ & Hend & _).
  exists g. split; [exact E | exact Hend].
Defined.



(** X3.  [fgetc] returns the next byte of the file as a (signed) [char]
    and moves behind it; once the file is used up it returns 0, the
    content [temp] was initialised with, and sets [end]. *)
Theorem fgetc_next_byte (f : File) (before pending after : list byte) :
  reading f before pending after ->
  exists g pending' after',
    fgetc f = Done (match pending ++ after with
                    | c :: _ => Int.char_to_int c
                    | [] => 0
                    end) g /\
    pending' ++ after' = skipn 1 (pending ++ after) /\
    reading g (before ++ firstn 1 (pending ++ after)) pending' after' /\
    end_ g = (end_ f || match pending ++ after with [] => true | _ => false end) /\
    err g = err f.
Proof.
  intros R. pose proof (fgetc_reading f before pending after R) as H.
  destruct (pending ++ after) as [|c rest].
  - destruct H as (g & E & Rg & Hend & Herr). exists g, [], [].
    cbn [firstn skipn app]. rewrite app_nil_r, orb_true_r. auto.
  - destruct H as (g & pending' & after' & E & Hsplit & Rg & Hend & Herr).
    exists g, pending', after'. cbn [firstn skipn]. rewrite orb_false_r. auto.
Qed.

Lemma fgetc_next_byte_witness :
  reading (stream mode_r (Sys.fresh (bytes "abcdef"))) [] [] (bytes "abcdef") /\
  exists g, fgetc (stream mode_r (Sys.fresh (bytes "abcdef"))) = Done 97 g /\
            end_ g = false.
Proof.
  assert (R : reading (stream mode_r (Sys.fresh (bytes "abcdef"))) [] []
                (bytes "abcdef")) by (apply stream_reading; discriminate).
  split; [exact R|].
  destruct (fgetc_next_byte _ _ _ _ R) as (g & _ & _ & E & _ & _ & Hend & _).
  exists g. split; [exact E | exact Hend].
Defined.

(** X4.  [fgets(s, size)] on a file without the byte 0xFF in the part
    scanned: it returns [s] and stores the characters up to and including
    the first newline, [size] of them at most (not [size - 1], and no
    terminator is added); when the file runs out first it goes on storing
    NUL up to [size] characters.  The stream is left in step behind the
    characters taken from the file, and the file is unchanged. *)
Theorem fgets_scans_a_line (f : File) (before pending after : list byte) (size : Z) :
  reading f before pending after ->
  0 <= size < Int.int_max ->
  Forall (fun c => c <> xff) (scanned (Z.to_nat size) (pending ++ after)) ->
  exists g before' pending' after',
    fgets size f = Done (true, scanned (Z.to_nat size) (pending ++ after)) g /\
    pending' ++ after' = unscanned (Z.to_nat size) (pending ++ after) /\
    reading g before' pending' after' /\
    Sys.contents (fd g) = Sys.contents (fd f) /\ err g = err f.
Proof.
  intros R Hs Hff. pose proof R as (Hm & _ & _ & _ & _ & _ & Hact).
  assert (Hw : lastAct f <> act_w) by (destruct (lastAct f); [discriminate.. | contradiction]).
  assert (E : fgets size f
              = fgets_loop (Z.to_nat size) (Int.to_int (bufAt f))
                  (if bufAt f =? bufEnd f then 1 else 0) [] f).
  { unfold fgets. rewrite (flush_when_idle act_w f Hw). cbn [bind Z.eqb negb].
    destruct (fmode f); congruence. }
  rewrite E.
  destruct (fgets_loop_reading (Z.to_nat size) f before pending after []
              (Int.to_int (bufAt f)) (if bufAt f =? bufEnd f then 1 else 0) R Hff)
    as (g & b' & p' & a' & E' & Hun & Rg & Hc & He).
  - destruct (bufAt f =? bufEnd f); lia.
  - destruct (bufAt f =? bufEnd f); lia.
  - exists g, b', p', a'. cbn [app] in E'. auto.
Qed.

Lemma fgets_scans_a_line_witness :
  reading (stream mode_r (Sys.fresh (bytes "ab" ++ [x0a] ++ bytes "cd"))) [] []
    (bytes "ab" ++ [x0a] ++ bytes "cd") /\
  0 <= 10 < Int.int_max /\
  Forall (fun c => c <> xff)
    (scanned (Z.to_nat 10) ([] ++ bytes "ab" ++ [x0a] ++ bytes "cd")) /\
  exists g, fgets 10 (stream mode_r (Sys.fresh (bytes "ab" ++ [x0a] ++ bytes "cd")))
            = Done (true, bytes "ab" ++ [x0a]) g.
Proof.
  assert (R : reading (stream mode_r (Sys.fresh (bytes "ab" ++ [x0a] ++ bytes "cd")))
                [] [] (bytes "ab" ++ [x0a] ++ bytes "cd"))
    by (apply stream_reading; discriminate).
  assert (Hs : 0 <= 10 < Int.int_max) by (unfold Int.int_max; lia).
  assert (Hff : Forall (fun c => c <> xff)
                  (scanned (Z.to_nat 10) ([] ++ bytes "ab" ++ [x0a] ++ bytes "cd")))
    by (vm_compute; repeat constructor; discriminate).
  split; [exact R | split; [exact Hs | split; [exact Hff|]]].
  destruct (fgets_scans_a_line _ _ _ _ 10 R Hs Hff) as (g & _ & _ & _ & E & _).
  exists g. exact E.
Defined.

(** ** Giving back the read-ahead, and seeking *)

Lemma read_ab_reading : reading read_ab (bytes "ab") (bytes "cdef") [].
Proof.
  unfold reading, read_ab.
  cbn [fmode buf fd lastAct bufAt bufEnd Sys.contents Sys.offset Sys.on_read
       Sys.on_lseek].
  split; [discriminate|]. split; [vm_compute; reflexivity|].
  split; [reflexivity|]. split; [reflexivity|]. split; [reflexivity|].
  split; [reflexivity|].
  exists (bytes "ab"), (skipn 6 heap). split; [reflexivity | split; reflexivity].
Qed.

(** X5.  [fflush] on a stream that has read ahead returns 0 and moves the
    descriptor back to the first byte the caller has not consumed: the
    next [read] on the descriptor yields what the stream had buffered and
    the rest of the file.  The buffer is emptied; the file, [end] and
    [err] are untouched. *)
Theorem fflush_gives_back_read_ahead (f : File) (before pending after : list byte) :
  reading f before pending after ->
  exists g,
    fflush f = Done 0 g /\
    Sys.offset (fd g) = Sys.len before /\
    Sys.ahead (fd g) = pending ++ after /\
    Sys.contents (fd g) = Sys.contents (fd f) /\
    lastAct g = act_0 /\ bufAt g = 0 /\ bufEnd g = 0 /\
    end_ g = end_ f /\ err g = err f.
Proof.
  intros R. pose proof R as (_ & _ & Hcf & _).
  destruct (fflush_reading f before pending after R)
    as (g & E & Rg & Hoff & Hend & Herr & _).
  pose proof Rg as (_ & _ & Hc & _). cbn [app] in Hc.
  exists g. split; [exact E|]. split; [exact Hoff|].
  split; [exact (ahead_app (fd g) before (pending ++ after) Hc Hoff)|].
  split; [congruence|].
  destruct (fflush_done _ _ _ E) as (_ & _ & [(_ & H1 & H2 & H3) | (H0 & _)]);
    [auto 10 | congruence].
Qed.

Lemma fflush_gives_back_read_ahead_witness :
  fread 1 2 (stream mode_plus (Sys.fresh (bytes "abcdef"))) = Done (2, bytes "ab") read_ab /\
  reading read_ab (bytes "ab") (bytes "cdef") [] /\
  Sys.offset (fd read_ab) = 6 /\
  exists g, fflush read_ab = Done 0 g /\
            Sys.offset (fd g) = 2 /\ Sys.ahead (fd g) = bytes "cdef" /\
            lastAct g = act_0 /\ bufAt g = 0 /\ bufEnd g = 0.
Proof.
  split; [vm_compute; reflexivity|].
  split; [exact read_ab_reading|]. split; [reflexivity|].
  destruct (fflush_gives_back_read_ahead _ _ _ _ read_ab_reading)
    as (g & E & Ho & Ha & _ & A & Hat & He & _).
  exists g. auto 10.
Defined.

(** X6.  [fseek] on a stream that has read ahead counts [seek_cur] from
    the bytes the caller has consumed, not from where the descriptor
    stands.  A target inside or beyond the file is taken: [fseek] returns
    0, the descriptor stands at the target and [end] is cleared.  A
    negative target is refused: [fseek] returns -1, the stream stays at
    the consumed position and [end] stays as it was.  Either way the
    buffer is emptied and the file and [err] are untouched. *)
Theorem fseek_from_consumed_position (f : File) (before pending after : list byte)
    (offset : Z) (whence : Whence) :
  reading f before pending after ->
  exists g,
    (0 <= seek_target offset whence before (before ++ pending ++ after) ->
     fseek offset whence f = Done 0 g /\
     Sys.offset (fd g) = seek_target offset whence before (before ++ pending ++ after) /\
     end_ g = false) /\
    (seek_target offset whence before (before ++ pending ++ after) < 0 ->
     fseek offset whence f = Done (-1) g /\
     Sys.offset (fd g) = Sys.len before /\ end_ g = end_ f) /\
    lastAct g = act_0 /\ bufAt g = 0 /\ err g = err f /\
    Sys.contents (fd g) = Sys.contents (fd f).
Proof.
  intros R.
  destruct (fseek_reading f before pending after offset whence R)
    as (g & H & A & Hat & Herr & _ & Hc & _).
  exists g.
  destruct (seek_target offset whence before (before ++ pending ++ after) <? 0) eqn:T.
  - apply Z.ltb_lt in T. destruct H as (E & Ho & He & _).
    split; [intros; lia|]. split; [intros _; auto|]. auto.
  - apply Z.ltb_ge in T. destruct H as (E & Ho & He & _).
    split; [intros _; auto|]. split; [intros; lia|]. auto.
Qed.

Lemma fseek_from_consumed_position_witness :
  fread 1 2 (stream mode_plus (Sys.fresh (bytes "abcdef"))) = Done (2, bytes "ab") read_ab /\
  reading read_ab (bytes "ab") (bytes "cdef") [] /\
  Sys.offset (fd read_ab) = 6 /\
  (exists g, fseek 1 seek_cur read_ab = Done 0 g /\
             Sys.offset (fd g) = 3 /\ end_ g = false) /\
  (exists g, fseek (-3) seek_cur read_ab = Done (-1) g /\
             Sys.offset (fd g) = 2).
Proof.
  split; [vm_compute; reflexivity|].
  split; [exact read_ab_reading|]. split; [reflexivity|]. split.
  - destruct (fseek_from_consumed_position _ _ _ _ 1 seek_cur read_ab_reading)
      as (g & H & _).
    destruct (H ltac:(vm_compute; discriminate)) as (E & Ho & He).
    exists g. split; [exact E | split; [exact Ho | exact He]].
  - destruct (fseek_from_consumed_position _ _ _ _ (-3) seek_cur read_ab_reading)
      as (g & _ & H & _).
    destruct (H ltac:(vm_compute; reflexivity)) as (E & Ho & _).
    exists g. split; [exact E | exact Ho].
Defined.

(** X7.  Random access: after [fseek] to a position inside the file, the
    next [fread] of up to [bufsiz] bytes delivers the bytes of the file
    from that position on, and sets [end] exactly when fewer than asked
    for were left. *)
Theorem fseek_then_fread (f : File) (before pending after : list byte)
    (offset : Z) (whence : Whence) (n : Z) :
  reading f before pending after ->
  0 <= seek_target offset whence before (before ++ pending ++ after)
    <= Sys.len (before ++ pending ++ after) ->
  0 < n <= bufsiz ->
  exists g h,
    fseek offset whence f = Done 0 g /\
    fread 1 n g
    = Done (Z.min n (Sys.len (before ++ pending ++ after)
                     - seek_target offset whence before (before ++ pending ++ after)),
            firstn (Z.to_nat n)
              (skipn (Z.to_nat (seek_target offset whence before
                                  (before ++ pending ++ after)))
                 (before ++ pending ++ after))) h /\
    end_ h = (Sys.len (before ++ pending ++ after)
              - seek_target offset whence before (before ++ pending ++ after) <? n) /\
    err h = err f.
Proof.
  intros R Ht Hn.
  destruct (fseek_reading f before pending after offset whence R)
    as (g & H & A & Hat & Herr & _).
  remember (seek_target offset whence before (before ++ pending ++ after)) as target eqn:Et.
  remember (before ++ pending ++ after) as whole eqn:Ew.
  destruct (target <? 0) eqn:T; [apply Z.ltb_lt in T; lia|].
  destruct H as (E & Ho & He & Rg). rewrite Ho in Rg. specialize (Rg (proj2 Ht)).
  destruct (fread_reading g _ [] _ 1 n Rg)
    as (h & pending' & after' & E2 & _ & _ & Hend & Herr2).
  { lia. }
  { change (Sys.len []) with 0. lia. }
  cbn [app] in E2, Hend. rewrite Z.mul_1_l in E2, Hend.
  rewrite len_firstn_min in E2, Hend by lia. rewrite min_short in Hend.
  assert (L : Sys.len (skipn (Z.to_nat target) whole) = Sys.len whole - target).
  { unfold Sys.len in *. rewrite length_skipn. lia. }
  rewrite L in E2, Hend. rewrite He in Hend. cbn [orb] in Hend.
  exists g, h. split; [exact E|]. split; [exact E2|]. split; [exact Hend | congruence].
Qed.

Lemma fseek_then_fread_witness :
  reading (stream mode_r (Sys.fresh (bytes "abcdef"))) [] [] (bytes "abcdef") /\
  0 <= seek_target 2 seek_set [] ([] ++ [] ++ bytes "abcdef")
    <= Sys.len ([] ++ [] ++ bytes "abcdef") /\
  0 < 3 <= bufsiz /\
  exists g h, fseek 2 seek_set (stream mode_r (Sys.fresh (bytes "abcdef"))) = Done 0 g /\
              fread 1 3 g = Done (3, bytes "cde") h.
Proof.
  assert (R : reading (stream mode_r (Sys.fresh (bytes "abcdef"))) [] []
                (bytes "abcdef")) by (apply stream_reading; discriminate).
  assert (Ht : 0 <= seek_target 2 seek_set [] ([] ++ [] ++ bytes "abcdef")
               <= Sys.len ([] ++ [] ++ bytes "abcdef"))
    by (vm_compute; split; discriminate).
  assert (Hn : 0 < 3 <= bufsiz) by (unfold bufsiz; lia).
  split; [exact R | split; [exact Ht | split; [exact Hn|]]].
  destruct (fseek_then_fread _ _ _ _ 2 seek_set 3 R Ht Hn) as (g & h & E1 & E2 & _).
  exists g, h. split; [exact E1 | exact E2].
Defined.

(** ** Writing *)

(** X8.  [fwrite] of a payload that fits behind the pending bytes returns
    its length and writes nothing yet: the descriptor and the file are as
    before.  The following [fflush] returns 0 and puts the pending bytes
    and the payload into the file, in order, at the position the
    descriptor had; the descriptor ends up behind them. *)
Theorem fwrite_then_fflush (f : File) (pending before after ptr : list byte) :
  writing f pending ->
  Sys.contents (fd f) = before ++ after -> Sys.offset (fd f) = Sys.len before ->
  Sys.len pending + Sys.len ptr <= bufsiz ->
  exists g h,
    fwrite ptr 1 (Sys.len ptr) f = Done (Sys.len ptr) g /\
    fd g = fd f /\
    fflush g = Done 0 h /\
    Sys.contents (fd h)
    = before ++ (pending ++ ptr) ++ skipn (length (pending ++ ptr)) after /\
    Sys.offset (fd h) = Sys.len (before ++ pending ++ ptr) /\
    writing h [].
Proof.
  intros W Hc Ho Hfit.
  destruct (fwrite_writing f pending ptr W Hfit) as (g & E & Wg & _ & Hfd & _).
  destruct (fflush_writing g (pending ++ ptr) Wg)
    as (h & E2 & Wh & _ & Hch & Hoh & _).
  exists g, h. rewrite Hfd, Hc, Ho, placed_at in Hch. rewrite Hfd, Ho in Hoh.
  split; [exact E|]. split; [exact Hfd|]. split; [exact E2|]. split; [exact Hch|].
  split; [rewrite !len_app in *; lia | exact Wh].
Qed.

Lemma fwrite_then_fflush_witness :
  writing (stream mode_w (Sys.fresh (bytes "abcdef"))) [] /\
  Sys.contents (fd (stream mode_w (Sys.fresh (bytes "abcdef")))) = [] ++ bytes "abcdef" /\
  Sys.offset (fd (stream mode_w (Sys.fresh (bytes "abcdef")))) = Sys.len (@nil byte) /\
  Sys.len (@nil byte) + Sys.len (bytes "xy") <= bufsiz /\
  exists g h,
    fwrite (bytes "xy") 1 2 (stream mode_w (Sys.fresh (bytes "abcdef"))) = Done 2 g /\
    fflush g = Done 0 h /\ Sys.contents (fd h) = bytes "xycdef".
Proof.
  assert (W : writing (stream mode_w (Sys.fresh (bytes "abcdef"))) [])
    by (apply stream_writing; discriminate).
  assert (Hfit : Sys.len (@nil byte) + Sys.len (bytes "xy") <= bufsiz)
    by (vm_compute; discriminate).
  split; [exact W | split; [reflexivity | split; [reflexivity | split; [exact Hfit|]]]].
  destruct (fwrite_then_fflush _ [] [] (bytes "abcdef") (bytes "xy") W eq_refl eq_refl Hfit)
    as (g & h & E & _ & E2 & Hc & _).
  exists g, h. split; [exact E | split; [exact E2 | exact Hc]].
Defined.

(** X9.  [fwrite] of a payload larger than the buffer (and below 2^62
    bytes) writes the pending bytes and then the payload itself to the
    descriptor, without copying it through the buffer: on return the file
    holds both, in order, the descriptor stands behind them, and nothing
    is left pending. *)
Theorem fwrite_large_payload (f : File) (pending before after ptr : list byte) :
  writing f pending ->
  Sys.contents (fd f) = before ++ after -> Sys.offset (fd f) = Sys.len before ->
  bufsiz < Sys.len ptr -> Sys.len ptr < 2 ^ 62 ->
  exists g,
    fwrite ptr 1 (Sys.len ptr) f = Done (Sys.len ptr) g /\
    Sys.contents (fd g)
    = before ++ (pending ++ ptr) ++ skipn (length (pending ++ ptr)) after /\
    Sys.offset (fd g) = Sys.len (before ++ pending ++ ptr) /\
    writing g [] /\ lastAct g = act_0 /\ buf g = buf f /\ err g = err f.
Proof.
  intros W Hc Ho Hbig Hmax. pose proof (len_nonneg before) as Hb.
  destruct (fwrite_direct_writing f pending ptr W Hbig Hmax)
    as (g & E & Wg & Ag & Hcg & Hog & _ & _ & _ & Herr & _ & Hbuf).
  rewrite placed_app, Hc, Ho, placed_at in Hcg by lia. rewrite Ho in Hog.
  exists g. split; [exact E|]. split; [exact Hcg|].
  split; [rewrite !len_app; lia|]. auto.
Qed.

Lemma large_payload_len : Sys.len large_payload = 9000.
Proof. unfold Sys.len, large_payload. rewrite repeat_length. reflexivity. Qed.

Lemma fwrite_large_payload_witness :
  writing (stream mode_w (Sys.fresh (bytes "abc"))) [] /\
  Sys.contents (fd (stream mode_w (Sys.fresh (bytes "abc")))) = [] ++ bytes "abc" /\
  Sys.offset (fd (stream mode_w (Sys.fresh (bytes "abc")))) = Sys.len (@nil byte) /\
  bufsiz < Sys.len large_payload /\ Sys.len large_payload < 2 ^ 62 /\
  exists g,
    fwrite large_payload 1 (Sys.len large_payload) (stream mode_w (Sys.fresh (bytes "abc")))
    = Done (Sys.len large_payload) g /\
    Sys.contents (fd g) = large_payload /\ lastAct g = act_0.
Proof.
  assert (W : writing (stream mode_w (Sys.fresh (bytes "abc"))) [])
    by (apply stream_writing; discriminate).
  assert (Hbig : bufsiz < Sys.len large_payload)
    by (rewrite large_payload_len; reflexivity).
  assert (Hmax : Sys.len large_payload < 2 ^ 62)
    by (rewrite large_payload_len; reflexivity).
  split; [exact W | split; [reflexivity | split; [reflexivity|]]].
  split; [exact Hbig | split; [exact Hmax|]].
  destruct (fwrite_large_payload _ [] [] (bytes "abc") large_payload W eq_refl eq_refl
              Hbig Hmax) as (g & E & Hc & _ & _ & Ag & _).
  exists g. split; [exact E | split; [exact Hc | exact Ag]].
Defined.



(** ** [File::~File] *)



(** ** Round trips *)

(** X12.  What is written can be read back in place: on a stream open
    for both directions, [fwrite] of a payload that fits behind the
    pending bytes, [fseek] back to where the payload starts and [fread]
    of as many bytes return the payload, and the file holds it at that
    place. *)
Theorem write_seek_read_round_trip (f : File) (pending before after payload : list byte) :
  writing f pending -> fmode f <> mode_w ->
  Sys.contents (fd f) = before ++ after -> Sys.offset (fd f) = Sys.len before ->
  Sys.on_read (fd f) = [] -> Sys.on_lseek (fd f) = [] ->
  0 < Sys.len payload -> Sys.len pending + Sys.len payload <= bufsiz ->
  exists g h k,
    fwrite payload 1 (Sys.len payload) f = Done (Sys.len payload) g /\
    fseek (Sys.len (before ++ pending)) seek_set g = Done 0 h /\
    fread 1 (Sys.len payload) h = Done (Sys.len payload, payload) k /\
    Sys.contents (fd k)
    = before ++ pending ++ payload ++ skipn (length (pending ++ payload)) after /\
    end_ k = false.
Proof.
  intros W Hm Hc Ho Hr Hs Hpos Hfit.
  pose proof (len_nonneg pending) as Hp0. pose proof (len_nonneg before) as Hb0.
  destruct (fwrite_writing f pending payload W Hfit)
    as (g & E & Wg & _ & Hfd & _ & _ & Hfm).
  destruct (fseek_writing g (pending ++ payload) before after
              (Sys.len (before ++ pending)) seek_set Wg)
    as (h & E2 & Wh & Ah & Hch & Hoh & Hrh & Hsh & Hendh & _ & Hfmh);
    try (rewrite Hfd; assumption).
  { cbn [seek_target]. apply len_nonneg. }
  cbn [seek_target] in Hoh.
  set (rest := skipn (length (pending ++ payload)) after) in *.
  assert (Hwhole : before ++ (pending ++ payload) ++ rest
                   = (before ++ pending) ++ payload ++ rest)
    by (rewrite <- !app_assoc; reflexivity).
  assert (Rh : reading h (before ++ pending) [] (payload ++ rest)).
  { pose proof (fseek_writing_reading h _ Wh Ah ltac:(congruence) Hch) as R.
    rewrite Hoh, Hwhole, firstn_len_app, skipn_len_app in R.
    apply R; [|congruence|exact Hsh].
    rewrite <- Hwhole, !len_app. pose proof (len_nonneg rest).
    pose proof (len_nonneg payload). lia. }
  destruct (fread_reading h _ [] _ 1 (Sys.len payload) Rh)
    as (k & pending' & after' & E3 & Hsplit & Rk & Hendk & _).
  { lia. }
  { change (Sys.len []) with 0. lia. }
  cbn [app] in E3, Hsplit, Rk, Hendk. rewrite Z.mul_1_l in E3, Hsplit, Rk, Hendk.
  rewrite firstn_len_app in E3, Hsplit, Rk, Hendk.
  apply app_inv_head in Hsplit.
  exists g, h, k. split; [exact E|]. split; [exact E2|]. split; [exact E3|]. split.
  - destruct Rk as (_ & _ & Hck & _). rewrite Hck, Hsplit, <- !app_assoc. reflexivity.
  - rewrite Hendk, Hendh, Z.ltb_irrefl. reflexivity.
Qed.

Lemma write_seek_read_round_trip_witness :
  writing (stream mode_plus (Sys.fresh (bytes "abcdef"))) [] /\
  fmode (stream mode_plus (Sys.fresh (bytes "abcdef"))) <> mode_w /\
  0 < Sys.len (bytes "xy") /\ Sys.len (@nil byte) + Sys.len (bytes "xy") <= bufsiz /\
  exists g h k,
    fwrite (bytes "xy") 1 2 (stream mode_plus (Sys.fresh (bytes "abcdef"))) = Done 2 g /\
    fseek 0 seek_set g = Done 0 h /\
    fread 1 2 h = Done (2, bytes "xy") k /\
    Sys.contents (fd k) = bytes "xycdef".
Proof.
  assert (W : writing (stream mode_plus (Sys.fresh (bytes "abcdef"))) [])
    by (apply stream_writing; discriminate).
  assert (Hm : fmode (stream mode_plus (Sys.fresh (bytes "abcdef"))) <> mode_w)
    by discriminate.
  assert (Hpos : 0 < Sys.len (bytes "xy")) by reflexivity.
  assert (Hfit : Sys.len (@nil byte) + Sys.len (bytes "xy") <= bufsiz)
    by (vm_compute; discriminate).
  split; [exact W | split; [exact Hm | split; [exact Hpos | split; [exact Hfit|]]]].
  destruct (write_seek_read_round_trip _ [] [] (bytes "abcdef") (bytes "xy")
              W Hm eq_refl eq_refl eq_refl eq_refl Hpos Hfit)
    as (g & h & k & E1 & E2 & E3 & Hc & _).
  exists g, h, k. split; [exact E1 | split; [exact E2 | split; [exact E3 | exact Hc]]].
Defined.

(** X13.  What is written reaches the file and can be read from it: a
    payload of any size below 2^62 bytes written to a stream just opened
    for writing, whether it is buffered or goes out directly, is in the
    file once the destructor has run, at its start and followed by what
    the file held beyond it; a stream opened for reading on that file
    reads the payload back. *)
Theorem write_close_reopen_read (old payload : list byte) :
  0 < Sys.len payload < 2 ^ 62 ->
  exists g d h,
    fwrite payload 1 (Sys.len payload) (stream mode_w (Sys.fresh old))
    = Done (Sys.len payload) g /\
    File_delete 0 g = Closed d /\
    Sys.contents d = payload ++ skipn (length payload) old /\
    fread 1 (Sys.len payload) (stream mode_r (Sys.fresh (Sys.contents d)))
    = Done (Sys.len payload, payload) h.
Proof.
  intros [Hpos Hmax].
  assert (W : writing (stream mode_w (Sys.fresh old)) [])
    by (apply stream_writing; discriminate).
  assert (Wrote : exists g d,
            fwrite payload 1 (Sys.len payload) (stream mode_w (Sys.fresh old))
            = Done (Sys.len payload) g /\
            File_delete 0 g = Closed d /\
            Sys.contents d = payload ++ skipn (length payload) old).
  { destruct (Z_le_gt_dec (Sys.len payload) bufsiz) as [Hfit | Hbig].
    - destruct (fwrite_writing _ [] payload W) as (g & E & Wg & _ & Hfd & _).
      { change (Sys.len []) with 0. lia. }
      destruct (File_delete_writing g _ 0 Wg) as (d & E2 & Hd); [discriminate|].
      exists g, d. split; [exact E|]. split; [exact E2|].
      rewrite Hd, Hfd. exact (placed_at [] old payload).
    - destruct (fwrite_direct_writing _ [] payload W) as (g & E & Wg & _ & Hcg & _);
        [lia | exact Hmax |].
      destruct (File_delete_writing g _ 0 Wg) as (d & E2 & Hd); [discriminate|].
      exists g, d. split; [exact E|]. split; [exact E2|].
      rewrite Hd. cbn [placed]. rewrite Hcg. exact (placed_at [] old payload). }
  destruct Wrote as (g & d & E & E2 & Hd). exists g, d.
  assert (R : reading (stream mode_r (Sys.fresh (Sys.contents d))) [] []
                (payload ++ skipn (length payload) old))
    by (rewrite Hd; apply stream_reading; discriminate).
  assert (Read : exists h,
            fread 1 (Sys.len payload) (stream mode_r (Sys.fresh (Sys.contents d)))
            = Done (Sys.len payload, payload) h).
  { pose proof (len_nonneg (skipn (length payload) old)) as Hrest.
    destruct (Z_le_gt_dec (Sys.len payload) bufsiz) as [Hfit | Hbig].
    - destruct (fread_reading _ _ _ _ 1 (Sys.len payload) R)
        as (h & _ & _ & E3 & _); [lia | change (Sys.len []) with 0; lia |].
      cbn [app] in E3. rewrite Z.mul_1_l, firstn_len_app in E3. exists h. exact E3.
    - destruct (fread_direct_reading _ _ _ _ 1 (Sys.len payload) R)
        as (h & E3 & _); [change (Sys.len []) with 0; lia | lia |].
      cbn [app] in E3. rewrite Z.mul_1_l, firstn_len_app in E3. exists h. exact E3. }
  destruct Read as (h & E3). exists h. auto.
Qed.

Lemma write_close_reopen_read_witness :
  0 < Sys.len (bytes "xy") < 2 ^ 62 /\
  exists g d h,
    fwrite (bytes "xy") 1 2 (stream mode_w (Sys.fresh (bytes "abcdef"))) = Done 2 g /\
    File_delete 0 g = Closed d /\
    Sys.contents d = bytes "xycdef" /\
    fread 1 2 (stream mode_r (Sys.fresh (Sys.contents d))) = Done (2, bytes "xy") h.
Proof.
  assert (H : 0 < Sys.len (bytes "xy") < 2 ^ 62) by (split; reflexivity).
  split; [exact H|].
  destruct (write_close_reopen_read (bytes "abcdef") (bytes "xy") H)
    as (g & d & h & E1 & E2 & Hd & E3).
  exists g, d, h. auto.
Defined.

(** ** Changing direction *)

(** X14.  [fwrite] after reads puts the payload where the caller stands,
    not where the read-ahead has taken the descriptor: on a stream open
    for both directions that has consumed [before], a payload that fits
    the buffer, once flushed, replaces the bytes of the file that follow
    [before]. *)
Theorem fwrite_after_reads (f : File) (before pending after ptr : list byte) :
  reading f before pending after ->
  fmode f <> mode_r -> Sys.on_write (fd f) = [] ->
  Sys.len ptr <= bufsiz ->
  exists g h,
    fwrite ptr 1 (Sys.len ptr) f = Done (Sys.len ptr) g /\
    fflush g = Done 0 h /\
    Sys.contents (fd h) = before ++ ptr ++ skipn (length ptr) (pending ++ after) /\
    Sys.offset (fd h) = Sys.len (before ++ ptr).
Proof.
  intros R Hm Hw Hfit.
  destruct (reading_then_writing f before pending after R Hm Hw)
    as (f0 & Same & W0 & Hc0 & Ho0 & _).
  destruct (fwrite_writing f0 [] ptr W0) as (g & E & Wg & _ & Hfd & _).
  { change (Sys.len []) with 0. lia. }
  cbn [app] in Wg.
  destruct (fflush_writing g ptr Wg) as (h & E2 & _ & _ & Hch & Hoh & _).
  exists g, h. rewrite Same. split; [exact E|]. split; [exact E2|].
  rewrite Hfd, Hc0, Ho0 in Hch. rewrite Hfd, Ho0 in Hoh.
  rewrite placed_at in Hch. split; [exact Hch|]. rewrite len_app. exact Hoh.
Qed.

Lemma fwrite_after_reads_witness :
  fread 1 2 (stream mode_plus (Sys.fresh (bytes "abcdef"))) = Done (2, bytes "ab") read_ab /\
  reading read_ab (bytes "ab") (bytes "cdef") [] /\
  fmode read_ab <> mode_r /\ Sys.on_write (fd read_ab) = [] /\
  Sys.len (bytes "xy") <= bufsiz /\
  exists g h,
    fwrite (bytes "xy") 1 2 read_ab = Done 2 g /\ fflush g = Done 0 h /\
    Sys.contents (fd h) = bytes "abxyef".
Proof.
  split; [vm_compute; reflexivity|].
  assert (R : reading read_ab (bytes "ab") (bytes "cdef") []).
  { unfold reading, read_ab.
    cbn [fmode buf fd lastAct bufAt bufEnd Sys.contents Sys.offset Sys.on_read
         Sys.on_lseek].
    split; [discriminate|]. split; [vm_compute; reflexivity|].
    split; [reflexivity|]. split; [reflexivity|]. split; [reflexivity|].
    split; [reflexivity|].
    exists (bytes "ab"), (skipn 6 heap). split; [reflexivity | split; reflexivity]. }
  assert (Hm : fmode read_ab <> mode_r) by discriminate.
  assert (Hw : Sys.on_write (fd read_ab) = []) by reflexivity.
  assert (Hfit : Sys.len (bytes "xy") <= bufsiz) by (vm_compute; discriminate).
  split; [exact R | split; [exact Hm | split; [exact Hw | split; [exact Hfit|]]]].
  destruct (fwrite_after_reads _ _ _ _ (bytes "xy") R Hm Hw Hfit)
    as (g & h & E & E2 & Hc & _).
  exists g, h. split; [exact E | split; [exact E2 | exact Hc]].
Defined.



(** ** Characters and strings out *)

(** X16.  [fputs] buffers the characters of the string in front of its
    terminator and returns their number, when they fit behind the pending
    bytes; nothing is written to the descriptor yet. *)
Theorem fputs_buffers_the_string (f : File) (pending str : list byte) :
  writing f pending -> Sys.len pending + Sys.len (c_str str) <= bufsiz ->
  exists g,
    fputs str f = Done (Sys.len (c_str str)) g /\
    writing g (pending ++ c_str str) /\
    fd g = fd f /\ end_ g = end_ f /\ err g = err f.
Proof.
  intros W Hfit.
  destruct (fputs_writing f pending str W Hfit) as (g & E & Wg & _ & Hfd & Hend & Herr & _).
  exists g. auto.
Qed.

Lemma fputs_buffers_the_string_witness :
  writing (stream mode_w (Sys.fresh (bytes "abcdef"))) [] /\
  Sys.len (@nil byte) + Sys.len (c_str (bytes "xy" ++ [x00; "z"%byte])) <= bufsiz /\
  exists g,
    fputs (bytes "xy" ++ [x00; "z"%byte]) (stream mode_w (Sys.fresh (bytes "abcdef")))
    = Done 2 g /\
    writing g (bytes "xy").
Proof.
  assert (W : writing (stream mode_w (Sys.fresh (bytes "abcdef"))) [])
    by (apply stream_writing; discriminate).
  assert (Hfit : Sys.len (@nil byte) + Sys.len (c_str (bytes "xy" ++ [x00; "z"%byte]))
                 <= bufsiz) by (vm_compute; discriminate).
  split; [exact W | split; [exact Hfit|]].
  destruct (fputs_buffers_the_string _ [] (bytes "xy" ++ [x00; "z"%byte]) W Hfit)
    as (g & E & Wg & _).
  exists g. split; [exact E | exact Wg].
Defined.

(** X17.  [fprintf] appends to the pending bytes the text its format
    stands for, [%d] giving the decimal numeral of [itoa], [%s] the
    string argument and [%] before any other character that character,
    and returns the length of the text; this for a text of 7-bit
    characters that fits behind the pending bytes. *)
Theorem fprintf_appends_expansion (f : File) (pending format text : list byte)
    (args : list Arg) :
  writing f pending -> expand format args = Some text ->
  Forall seven_bit text -> Sys.len pending + Sys.len text <= bufsiz ->
  exists g,
    fprintf format args f = Done (Sys.len text) g /\
    writing g (pending ++ text) /\
    fd g = fd f /\ end_ g = end_ f /\ err g = err f.
Proof.
  intros W Hx H7 Hfit. pose proof (len_nonneg pending) as Hp.
  pose proof (len_nonneg text) as Ht.
  destruct (fprintf_loop_writing (length format) format f pending args 0 text)
    as (g & E & Rest); auto; try lia.
  { unfold Int.int_max. unfold bufsiz in Hfit. lia. }
  exists g. unfold fprintf. rewrite E, Z.add_0_l. auto.
Qed.

Lemma fprintf_appends_expansion_witness :
  writing (stream mode_w (Sys.fresh [])) [] /\
  expand (bytes "%d-%s-%%") [arg_int (-7); arg_str (bytes "ab")]
  = Some (bytes "-7-ab-%") /\
  Forall seven_bit (bytes "-7-ab-%") /\
  Sys.len (@nil byte) + Sys.len (bytes "-7-ab-%") <= bufsiz /\
  exists g,
    fprintf (bytes "%d-%s-%%") [arg_int (-7); arg_str (bytes "ab")]
      (stream mode_w (Sys.fresh []))
    = Done 7 g /\
    writing g (bytes "-7-ab-%").
Proof.
  assert (W : writing (stream mode_w (Sys.fresh [])) [])
    by (apply stream_writing; discriminate).
  assert (Hx : expand (bytes "%d-%s-%%") [arg_int (-7); arg_str (bytes "ab")]
               = Some (bytes "-7-ab-%")) by (vm_compute; reflexivity).
  assert (H7 : Forall seven_bit (bytes "-7-ab-%"))
    by (repeat constructor; vm_compute; discriminate).
  assert (Hfit : Sys.len (@nil byte) + Sys.len (bytes "-7-ab-%") <= bufsiz)
    by (vm_compute; discriminate).
  split; [exact W | split; [exact Hx | split; [exact H7 | split; [exact Hfit|]]]].
  destruct (fprintf_appends_expansion _ [] _ _ _ W Hx H7 Hfit) as (g & E & Wg & _).
  exists g. split; [exact E | exact Wg].
Defined.

(** X18.  A format character of 0x80 or above stops [fprintf]: [fputc]
    returns the character it was given, which as a signed [char] is
    negative, and [fprintf] takes that for a failure.  It returns -1
    although the character has been buffered like any other. *)
Theorem fprintf_stops_at_high_byte (f : File) (pending rest : list byte) (c : byte)
    (args : list Arg) :
  writing f pending -> Sys.len pending + 1 <= bufsiz -> Int.char_to_int c < 0 ->
  exists g,
    fprintf (c :: rest) args f = Done (-1) g /\
    writing g (pending ++ [c]) /\ fd g = fd f.
Proof.
  intros W Hfit Hc.
  destruct (fputc_writing f pending (Int.char_to_int c) W Hfit) as (g & E & Wg & Hfd & _).
  rewrite char_round_trip in Wg.
  assert (N0 : Byte.eqb c x00 = false).
  { destruct (Byte.eqb c x00) eqn:B; [|reflexivity].
    apply byte_dec_bl in B. subst c. vm_compute in Hc. discriminate. }
  assert (N1 : Byte.eqb c "%"%byte = false).
  { destruct (Byte.eqb c "%"%byte) eqn:B; [|reflexivity].
    apply byte_dec_bl in B. subst c. vm_compute in Hc. discriminate. }
  exists g. unfold fprintf. cbn [fprintf_loop]. rewrite N0, N1. cbn [negb].
  rewrite E. cbn [bind].
  destruct (Int.char_to_int c <? 0) eqn:L; [|apply Z.ltb_ge in L; lia].
  auto.
Qed.

Lemma fprintf_stops_at_high_byte_witness :
  writing (stream mode_w (Sys.fresh [])) [] /\
  Sys.len (@nil byte) + 1 <= bufsiz /\ Int.char_to_int xe9 < 0 /\
  exists g,
    fprintf (xe9 :: bytes "t") [] (stream mode_w (Sys.fresh [])) = Done (-1) g /\
    writing g [xe9].
Proof.
  assert (W : writing (stream mode_w (Sys.fresh [])) [])
    by (apply stream_writing; discriminate).
  assert (Hfit : Sys.len (@nil byte) + 1 <= bufsiz) by (vm_compute; discriminate).
  assert (Hc : Int.char_to_int xe9 < 0) by reflexivity.
  split; [exact W | split; [exact Hfit | split; [exact Hc|]]].
  destruct (fprintf_stops_at_high_byte _ [] (bytes "t") xe9 [] W Hfit Hc) as (g & E & Wg & _).
  exists g. split; [exact E | exact Wg].
Defined.

(** X19.  [fputc] never reports a failure: [fwrite] returns a [size_t],
    which the test [< 0] never catches, so whenever [fputc] returns it
    returns its argument; on a stream opened for reading only it does so
    having stored nothing. *)
Theorem fputc_returns_its_argument (c : Z) (f : File) :
  (forall r g, fputc c f = Done r g -> r = c) /\
  (fmode f = mode_r -> fputc c f = Done c f).
Proof.
  split.
  - intros r g E. apply fputc_result in E. tauto.
  - intros Hm. unfold fputc, fwrite. rewrite Hm. cbn [bind].
    rewrite size_t_never_negative. reflexivity.
Qed.

Lemma fputc_returns_its_argument_witness :
  fmode (stream mode_r (Sys.fresh (bytes "abc"))) = mode_r /\
  fputc 120 (stream mode_r (Sys.fresh (bytes "abc")))
  = Done 120 (stream mode_r (Sys.fresh (bytes "abc"))).
Proof.
  split; [reflexivity|].
  apply (proj2 (fputc_returns_its_argument 120 (stream mode_r (Sys.fresh (bytes "abc"))))).
  reflexivity.
Defined.

(** X20.  No [fwrite] touches [end]: however the call leaves, by
    returning or in a failed flush, the flag [feof] reports is the one
    from before. *)
Theorem fwrite_leaves_end_alone (ptr : list byte) (size nmemb : Z) (f : File) :
  leaves (fun g => end_ g = end_ f) (fwrite ptr size nmemb f).
Proof.
  unfold fwrite. destruct (fmode f); try reflexivity;
    (apply leaves_bind;
     [unfold flush_when; destruct (lastAct f); try reflexivity; apply fflush_keeps_end|];
     intros r h _ Hh; destruct (negb (r =? 0)); [exact Hh|];
     pose proof (fwrite_put_keeps_end ptr (Int.to_size_t (size * nmemb)) h) as P;
     rewrite Hh in P; exact P).
Qed.

(** ** The read path stays inside the buffer and the destination *)

Lemma read_stores (d : Sys.Descriptor) (count : Z) r got d' :
  Sys.read d count = (r, got, d') -> Sys.len got <= Z.max 0 count.
Proof.
  unfold Sys.read. destruct (Sys.next (Sys.on_read d)) as [x rest].
  assert (B : forall k, k <= Z.max 0 count ->
            Sys.len (firstn (Z.to_nat k) (Sys.ahead d)) <= Z.max 0 count).
  { intros k Hk. pose proof (len_firstn_le k (Sys.ahead d)). lia. }
  destruct x; intros E; inversion E; subst; try (apply B; simpl; lia).
  change (Sys.len []) with 0. lia.
Qed.

Lemma copy_out_stored rest : forall at_ end' n ptrAt out at' ptrAt' e out',
  copy_out rest at_ end' n ptrAt out = Some (at', ptrAt', e, out') ->
  Sys.len out' - Sys.len out = ptrAt' - ptrAt /\ (ptrAt <= n -> ptrAt' <= n).
Proof.
  induction rest as [|c rest IH]; intros at_ end' n ptrAt out at' ptrAt' e out' E;
    cbn [copy_out] in E; destruct (ptrAt <? n) eqn:L;
    try (inversion E; subst; lia);
    destruct ((at_ =? end') && (end' <? bufsiz));
    try (inversion E; subst; lia); try discriminate.
  apply Z.ltb_lt in L. apply IH in E. rewrite len_app in E.
  change (Sys.len [c]) with 1 in E. lia.
Qed.

Lemma fread_copy_stored n ptrAt out (f : File) :
  Sys.len out = ptrAt -> ptrAt <= n -> stores_at_most n (fread_copy n ptrAt out f).
Proof.
  intros Ho Hp. unfold fread_copy.
  destruct (copy_out _ _ _ _ _ _) as [[[[at' p'] ended] out']|] eqn:E; [|exact I].
  apply copy_out_stored in E. cbn [stores_at_most]. lia.
Qed.

(** The refill, or the read into the destination: the direct read asks
    for [n] bytes at [ptr + ptrAt], so it is held to [n] bytes in all
    only when nothing has been delivered before it. *)
Lemma fread_fill_stored n ptrAt out (f : File) :
  Sys.len out = ptrAt -> 0 <= ptrAt <= n -> n < Int.size_max ->
  ptrAt = 0 \/ n - ptrAt <= bufsiz ->
  stores_at_most n (fread_fill n ptrAt out f).
Proof.
  intros Ho Hp Hmax Hc. unfold fread_fill.
  destruct (lastAct f); try (apply fread_copy_stored; lia).
  rewrite (to_size_t_small (n - ptrAt)) by lia.
  destruct (n - ptrAt >? bufsiz) eqn:G.
  - rewrite Z.gtb_ltb in G. apply Z.ltb_lt in G.
    destruct (Sys.read (fd f) n) as [[r got] d] eqn:E.
    apply read_stores in E. rewrite size_t_never_negative.
    cbn [stores_at_most]. rewrite len_app. lia.
  - destruct (Sys.read (fd f) bufsiz) as [[r got] d].
    cbn [bufEnd set_bufEnd]. rewrite size_t_never_negative.
    destruct (_ =? 0); [cbn [stores_at_most]; lia | apply fread_copy_stored; lia].
Qed.

Lemma fread_drain_stored n (f : File) :
  0 <= n < Int.size_max - bufsiz ->
  (lastAct f = act_r ->
   0 <= bufAt f <= bufEnd f /\ bufEnd f <= bufsiz /\
   (bufAt f = bufEnd f \/ n - (bufEnd f - bufAt f) <= bufsiz)) ->
  stores_at_most n (fread_drain n f).
Proof.
  intros Hn Hr. rewrite size_max_eq in Hn. unfold bufsiz in Hn.
  assert (Fresh : forall g, stores_at_most n (fread_fill n 0 [] g)).
  { intros g. apply fread_fill_stored;
      [reflexivity | lia | rewrite size_max_eq; lia | left; reflexivity]. }
  unfold fread_drain. destruct (lastAct f) eqn:A; try apply Fresh.
  destruct (Hr eq_refl) as (Hat & He & Hc). unfold bufsiz in He.
  rewrite to_size_t_small by (rewrite size_max_eq; lia).
  destruct (_ >? bufEnd f) eqn:G; [|apply Fresh].
  rewrite Z.gtb_ltb in G. apply Z.ltb_lt in G.
  destruct (drain _ _ _ _) as [[at' out]|] eqn:D; [|exact I].
  apply drain_end in D; [|lia]. destruct D as [-> Hout].
  change (Sys.len []) with 0 in Hout.
  destruct (fflush _) as [r g| |]; cbn [bind]; try exact I.
  destruct (negb (r =? 0)); [cbn [stores_at_most]; lia|].
  apply fread_fill_stored; [reflexivity | lia | rewrite size_max_eq; lia | ].
  destruct Hc as [Hc|Hc]; [left | right]; lia.
Qed.

Lemma fread_stored size nmemb (f : File) :
  buffer_ok f -> 0 <= size * nmemb < Int.size_max - bufsiz ->
  (lastAct f = act_r ->
   bufAt f = bufEnd f \/ size * nmemb - (bufEnd f - bufAt f) <= bufsiz) ->
  stores_at_most (size * nmemb) (fread size nmemb f).
Proof.
  intros [_ Hb] Hn Hc. unfold fread.
  rewrite (to_size_t_small (size * nmemb))
    by (rewrite size_max_eq in *; unfold bufsiz in Hn; lia).
  assert (Nil : forall (r : Z) g,
            stores_at_most (size * nmemb) (Done (r, @nil byte) g))
    by (intros; cbn [stores_at_most]; change (Sys.len []) with 0; lia).
  assert (F : stores_at_most (size * nmemb)
                (call (r, g) <- flush_when act_w f;
                 if negb (r =? 0) then Done (Int.to_size_t eof, []) g
                 else fread_drain (size * nmemb) g)).
  { unfold flush_when. destruct (lastAct f) eqn:A.
    - cbn [bind Z.eqb negb]. apply fread_drain_stored; [exact Hn | congruence].
    - cbn [bind Z.eqb negb]. apply fread_drain_stored; [exact Hn|].
      intros _. destruct (Hc eq_refl); lia.
    - destruct (fflush f) as [r g| |] eqn:E; cbn [bind]; try exact I.
      destruct (r =? 0) eqn:R; cbn [negb]; [|apply Nil].
      apply Z.eqb_eq in R.
      destruct (fflush_done _ _ _ E) as (_ & _ & [(_ & _ & _ & H3) | (H0 & _)]);
        [|contradiction].
      apply fread_drain_stored; [exact Hn | congruence]. }
  destruct (fmode f); [exact F | apply Nil | exact F].
Qed.

(** X21.  From a state the operations hand on ([sound]: the cursor
    invariant holds and no [read] fails), [fread] of fewer than
    2^64 - 8192 bytes that finds nothing buffered, or asks for at most
    [bufsiz] bytes beyond the buffered ones, returns without an access
    outside the buffer of the stream and stores at most [size * nmemb]
    bytes into the destination; [fgetc] returns, its [fread] storing at
    most the one byte of [temp]; [fflush] and [fseek] return.  (The
    remaining case of [fread], the read into the destination behind
    buffered bytes, is the one that stores more than was asked for.) *)
Theorem read_path_stays_in_bounds (f : File) :
  sound f ->
  (forall size nmemb,
      0 <= size * nmemb < Int.size_max - bufsiz ->
      (lastAct f = act_r ->
       bufAt f = bufEnd f \/ size * nmemb - (bufEnd f - bufAt f) <= bufsiz) ->
      returns (fread size nmemb f) /\
      stores_at_most (size * nmemb) (fread size nmemb f)) /\
  (returns (fgetc f) /\ stores_at_most 1 (fread 1 1 f)) /\
  returns (fflush f) /\
  (forall offset whence, returns (fseek offset whence f)).
Proof.
  intros S. pose proof S as [Hb _]. split.
  - intros size nmemb Hn Hc.
    split; [now apply fread_returns | now apply fread_stored].
  - split; [|split; [now apply fflush_returns | intros; now apply fseek_returns]].
    split; [now apply fgetc_returns|].
    apply (fread_stored 1 1 f Hb); [rewrite size_max_eq; unfold bufsiz; lia|].
    intros A. destruct Hb as [_ Hb]. rewrite A in Hb. unfold bufsiz. lia.
Qed.

Lemma read_path_stays_in_bounds_witness :
  sound read_ab /\
  0 <= 1 * 8196 < Int.size_max - bufsiz /\
  (lastAct read_ab = act_r ->
   bufAt read_ab = bufEnd read_ab \/
   1 * 8196 - (bufEnd read_ab - bufAt read_ab) <= bufsiz) /\
  returns (fread 1 8196 read_ab) /\ stores_at_most (1 * 8196) (fread 1 8196 read_ab).
Proof.
  assert (S : sound read_ab).
  { split; [split; [vm_compute; reflexivity | cbn; unfold bufsiz; lia] | constructor]. }
  assert (Hn : 0 <= 1 * 8196 < Int.size_max - bufsiz) 
    by (rewrite size_max_eq; unfold bufsiz; lia).
  assert (Hc : lastAct read_ab = act_r ->
               bufAt read_ab = bufEnd read_ab \/
               1 * 8196 - (bufEnd read_ab - bufAt read_ab) <= bufsiz)
    by (intros _; right; vm_compute; discriminate).
  split; [exact S | split; [exact Hn | split; [exact Hc|]]].
  exact (proj1 (read_path_stays_in_bounds read_ab S) 1 8196 Hn Hc).
Defined.

(** ** Opening *)

(** X22.  A stream that [File::File] has built on a file, in a mode
    other than "w", reads the file from its start: the first [fread] of
    up to [bufsiz] bytes delivers the first bytes of the file. *)
Theorem open_then_fread (mode file : list byte) (f : File) (n : Z) :
  File_new (Some (Sys.fresh file)) mode heap = Built f ->
  fmode f <> mode_w -> 0 < n <= bufsiz ->
  exists g,
    fread 1 n f = Done (Z.min n (Sys.len file), firstn (Z.to_nat n) file) g /\
    end_ g = (Sys.len file <? n) /\ err g = 0.
Proof.
  intros B Hm Hn.
  assert (Hf : f = stream (fmode f) (Sys.fresh file)).
  { unfold File_new in B.
    destruct (match c_str mode with [] => _ | _ => _ end) as [m|];
      [|discriminate].
    inversion B; subst. reflexivity. }
  assert (R : reading f [] [] file) by (rewrite Hf; apply stream_reading; exact Hm).
  destruct (fread_reading f _ _ _ 1 n R) as (g & _ & _ & E & _ & _ & Hend & Herr).
  { lia. }
  { change (Sys.len []) with 0. lia. }
  cbn [app] in E, Hend. rewrite Z.mul_1_l in E, Hend.
  rewrite len_firstn_min in E, Hend by lia. rewrite min_short in Hend.
  exists g. split; [exact E|]. rewrite Hend, Herr, Hf. auto.
Qed.

Lemma open_then_fread_witness :
  File_new (Some (Sys.fresh (bytes "abcdef"))) (bytes "r+") heap
  = Built (stream mode_plus (Sys.fresh (bytes "abcdef"))) /\
  fmode (stream mode_plus (Sys.fresh (bytes "abcdef"))) <> mode_w /\
  0 < 4 <= bufsiz /\
  exists g, fread 1 4 (stream mode_plus (Sys.fresh (bytes "abcdef")))
            = Done (4, bytes "abcd") g.
Proof.
  assert (B : File_new (Some (Sys.fresh (bytes "abcdef"))) (bytes "r+") heap
              = Built (stream mode_plus (Sys.fresh (bytes "abcdef")))) by reflexivity.
  assert (Hm : fmode (stream mode_plus (Sys.fresh (bytes "abcdef"))) <> mode_w)
    by discriminate.
  assert (Hn : 0 < 4 <= bufsiz) by (unfold bufsiz; lia).
  split; [exact B | split; [exact Hm | split; [exact Hn|]]].
  destruct (open_then_fread _ _ _ 4 B Hm Hn) as (g & E & _).
  exists g. exact E.
Defined.

(** ** Calls in the wrong direction *)

(** X23.  The reading calls on a stream opened for writing only, and
    [fputs] on a stream opened for reading only, leave the stream and the
    file exactly as they were.  [fread] returns [(size_t) eof] and
    [fgets] returns [NULL]; [fgetc], whose test of [fread]'s result never
    fires, returns 0; [fputs] returns -1. *)
Theorem wrong_direction_changes_nothing (f : File) :
  (fmode f = mode_w ->
   (forall size nmemb, fread size nmemb f = Done (Int.size_max - 1, []) f) /\
   fgetc f = Done 0 f /\
   (forall size, fgets size f = Done (false, []) f)) /\
  (fmode f = mode_r -> forall str, fputs str f = Done (-1) f).
Proof.
  split.
  - intros Hm.
    assert (R : forall size nmemb, fread size nmemb f = Done (Int.size_max - 1, []) f)
      by (intros; unfold fread; rewrite Hm; reflexivity).
    split; [exact R|]. split.
    + unfold fgetc. rewrite R. reflexivity.
    + intros size. unfold fgets. rewrite Hm. reflexivity.
  - intros Hm str. unfold fputs. rewrite Hm. reflexivity.
Qed.

Lemma wrong_direction_changes_nothing_witness :
  fmode (stream mode_w (Sys.fresh (bytes "abc"))) = mode_w /\
  fgetc (stream mode_w (Sys.fresh (bytes "abc")))
  = Done 0 (stream mode_w (Sys.fresh (bytes "abc"))).
Proof.
  split; [reflexivity|].
  apply (proj1 (wrong_direction_changes_nothing (stream mode_w (Sys.fresh (bytes "abc"))))).
  reflexivity.
Defined.

(** ** Instances *)

Lemma itoa_minimal_decimal_witness :
  Int.int_min < -2147483647 <= Int.int_max /\
  exists s, itoa (-2147483647) = Some s /\ minimal_decimal s (-2147483647).
Proof.
  assert (H : Int.int_min < -2147483647 <= Int.int_max)
    by (unfold Int.int_min, Int.int_max; lia).
  split; [exact H|]. exact (itoa_minimal_decimal (-2147483647) H).
Defined.

Lemma fgetc_returns_temp_witness :
  exists g,
    fgetc (stream mode_r (Sys.fresh [])) = Done 0 g /\
    exists r out, fread 1 1 (stream mode_r (Sys.fresh [])) = Done (r, out) g /\
                  0 = Int.char_to_int (temp_after out).
Proof.
  assert (R : reading (stream mode_r (Sys.fresh [])) [] [] [])
    by (apply stream_reading; discriminate).
  destruct (fgetc_reading _ _ _ _ R) as (g & E & _).
  exists g. split; [exact E|].
  exact (fgetc_returns_temp _ 0 g E).
Defined.

(** ** [fseek] on a value that names no enumerator *)

Lemma fseek_value_enumerator (offset : Z) (whence : Whence) (f : File) :
  fseek_value offset (Whence_value whence) f = fseek offset whence f.
Proof.
  unfold fseek_value, fseek. destruct (fflush f) as [r g| |]; cbn [bind];
    try reflexivity.
  destruct whence; reflexivity.
Qed.

(** With such a value [fseek] flushes and returns -2: the descriptor is
    not moved and [end] is not cleared. *)
Lemma fseek_value_unnamed (offset whence : Z) (f : File) :
  whence <> 0 -> whence <> 1 -> whence <> 2 ->
  fseek_value offset whence f = (call (_r, g) <- fflush f; Done (-2) g).
Proof.
  intros H0 H1 H2. unfold fseek_value, Whence_value.
  apply Z.eqb_neq in H0. apply Z.eqb_neq in H1. apply Z.eqb_neq in H2.
  rewrite H0, H1, H2. reflexivity.
Qed.

(** ** The byte of the block *)

(** X27.  When the first [read] on a stream just built fails, [fread] of
    one byte returns 1 and hands out the first byte of the block
    [malloc] returned, whatever it is; [fgetc] returns that byte.  No
    error is recorded, [end] is not set, [bufEnd] is left at 2^64 - 1 and
    the descriptor stays where it was. *)
Theorem failed_first_read_hands_out_block_byte (m : Mode) (d : Sys.Descriptor)
    (rest : list Sys.Fault) (b : byte) (block : list byte) :
  m <> mode_w -> Sys.on_read d = Sys.fail :: rest ->
  exists g,
    fread 1 1 (mkFile (b :: block) 0 0 m act_0 d 0 false) = Done (1, [b]) g /\
    fgetc (mkFile (b :: block) 0 0 m act_0 d 0 false) = Done (Int.char_to_int b) g /\
    err g = 0 /\ end_ g = false /\ bufEnd g = Int.size_max - 1 /\
    Sys.offset (fd g) = Sys.offset d /\ Sys.contents (fd g) = Sys.contents d.
Proof.
  intros Hm Hr.
  assert (L : (0 <? Sys.len (b :: block)) = true).
  { apply Z.ltb_lt. unfold Sys.len. cbn [length]. lia. }
  assert (E : exists g,
            fread 1 1 (mkFile (b :: block) 0 0 m act_0 d 0 false) = Done (1, [b]) g /\
            err g = 0 /\ end_ g = false /\ bufEnd g = Int.size_max - 1 /\
            Sys.offset (fd g) = Sys.offset d /\ Sys.contents (fd g) = Sys.contents d).
  { unfold fread, flush_when, fread_drain, fread_fill, fread_copy, Sys.read.
    cbn [fmode lastAct fd bind]. rewrite Hr. cbn [Sys.next].
    change (Int.to_size_t (1 * 1)) with 1.
    cbn [Z.eqb negb bind lastAct].
    change (Int.to_size_t (1 - 0) >? bufsiz) with false. cbv iota.
    cbn [set_fd set_buf set_bufEnd set_lastAct bufEnd bufAt buf fill length skipn app].
    change (Int.to_size_t (-1)) with (Int.size_max - 1).
    change (Int.size_max - 1 <? 0) with false.
    change (Int.size_max - 1 =? 0) with false. cbv iota.
    unfold from. rewrite L. cbn [Z.leb Z.compare andb Z.to_nat skipn copy_out].
    change (1 <? 1) with false. change (0 <? 1) with true.
    change (0 =? Int.size_max - 1) with false. cbn [andb app].
    rewrite copy_out_stop by lia.
    destruct m; [|congruence|]; (eexists; split; [reflexivity|]; cbn; auto 10). }
  destruct E as (g & E & Rest). exists g. split; [exact E|].
  split; [|exact Rest]. unfold fgetc. rewrite E. reflexivity.
Qed.

Lemma failed_first_read_hands_out_block_byte_witness :
  mode_r <> mode_w /\ Sys.on_read first_read_fails = Sys.fail :: [] /\
  exists g,
    fread 1 1 (mkFile ("Z"%byte :: skipn 1 heap) 0 0 mode_r act_0 first_read_fails 0 false)
    = Done (1, bytes "Z") g /\
    fgetc (mkFile ("Z"%byte :: skipn 1 heap) 0 0 mode_r act_0 first_read_fails 0 false)
    = Done 90 g.
Proof.
  assert (Hm : mode_r <> mode_w) by discriminate.
  assert (Hr : Sys.on_read first_read_fails = Sys.fail :: []) by reflexivity.
  split; [exact Hm | split; [exact Hr|]].
  destruct (failed_first_read_hands_out_block_byte mode_r first_read_fails []
              "Z"%byte (skipn 1 heap) Hm Hr) as (g & E & E2 & _).
  exists g. split; [exact E | exact E2].
Defined.
